(** * TextToTrack (claudify): the request throttle, the token lifecycle,
      the track resolver and the playlist flows.

    The development follows the three source files of the service:
    [utils.ts] (the backoff wrapper), [requestQueue.ts] (the single-worker
    queue) and [index.ts] (token refresh, track resolution, pagination and
    the two playlist handlers).

    Asynchronous code is embedded by explicit state passing over a state
    [St] that carries the outside world (streaming platform, language
    model, clock, random source, disk), the two local files, the fields of
    the platform client and the trace of outbound calls and timers.  A
    JavaScript exception is the [Throw] result; side effects made before a
    throw are kept.  The queue is embedded a second time as a machine whose
    steps are the turns of the event loop, so that every interleaving of
    [add], settlements and timers is covered.

    Conventions.  Numbers are the integers among the doubles, [NaN] and
    the two infinities: an integer result is rounded to the nearest double,
    ties to even, and [-0] is not told from [0]; a timer is the event of
    its [setTimeout] call, carrying the delay asked for; strings are
    sequences of UTF-16 code units; [JSON.parse] and [JSON.stringify] are
    the identity on typed records, a file that is missing or does not parse
    being [None] and the text [null] being [ParsedNull]; [console.log] and
    the HTML templates are left out, a page being represented by the values
    interpolated into it, except where reading a value for the log line can
    throw.  An external call is answered, with a result or with a failure;
    in the queue machine the settlement of a unit is a step of its own,
    which a run need not contain.  The songs of one batch are resolved
    together: their exact searches are sent in the order of the batch, the
    platform answers a request when it is sent, and the answers are
    delivered in an order that the outside world decides. *)

From Equations Require Import Equations.
From Stdlib Require Import String Ascii.
From Stdlib Require Import List Arith ZArith NArith Bool Lia.
From Stdlib Require Import DecimalNat.
Import ListNotations.

Set Implicit Arguments.
Local Open Scope Z_scope.

(* ===================================================================== *)
(** * JavaScript values used by the service *)
(* ===================================================================== *)

Module Js.

(** A JavaScript string is a sequence of UTF-16 code units. *)
Definition jsstring := list N.

Definition js (s : String.string) : jsstring :=
  map N_of_ascii (String.list_ascii_of_string s).

Definition jsstring_eqb (a b : jsstring) : bool :=
  if list_eq_dec N.eq_dec a b then true else false.

(** The numbers that appear here: an integer that a double holds exactly,
    [NaN] (the result of [parseInt] on a string without digits), or an
    infinity. *)
Inductive jsnum :=
| Num (z : Z)
| NaN
| Infinity (negative : bool).

(** The double nearest to the integer [z], ties to even: an integer below
    2^53 in size is a double; a larger one keeps its 53 leading bits, and
    what rounds to 2^1024 or beyond is an infinity. *)
Definition toDouble (z : Z) : jsnum :=
  let a := Z.abs z in
  if a <? 2 ^ 53 then Num z
  else
    let e := Z.log2 a - 52 in
    let q := a / 2 ^ e in
    let r := a mod 2 ^ e in
    let half := 2 ^ (e - 1) in
    let q1 := if (half <? r) || ((r =? half) && Z.odd q) then q + 1 else q in
    let m := q1 * 2 ^ e in
    if 2 ^ 1024 <=? m then Infinity (z <? 0) else Num (Z.sgn z * m).

(** [a * b] on doubles: the exact product, rounded. *)
Definition jsmul (a b : jsnum) : jsnum :=
  match a, b with
  | Num x, Num y => toDouble (x * y)
  | Num x, Infinity s | Infinity s, Num x =>
      if x =? 0 then NaN else Infinity (xorb s (x <? 0))
  | Infinity s, Infinity t => Infinity (xorb s t)
  | _, _ => NaN
  end.

(** The values that flow into the conditions of the track resolver. *)
Inductive jsval :=
| VUndefined
| VNumber (n : Z)
| VBoolean (b : bool).

(** [ToBoolean]. *)
Definition truthy (v : jsval) : bool :=
  match v with
  | VUndefined => false
  | VNumber n => negb (n =? 0)
  | VBoolean b => b
  end.

(** [a ?? b]: [b] only when [a] is [null] or [undefined]. *)
Definition nullish (a b : jsval) : jsval :=
  match a with
  | VUndefined => b
  | _ => a
  end.

(** A string is truthy when it is not empty. *)
Definition truthy_string (s : jsstring) : bool :=
  match s with
  | [] => false
  | _ :: _ => true
  end.

(** WhiteSpace and LineTerminator code points of ECMAScript (all of them
    are single code units). *)
Definition isWhiteSpace (c : N) : bool :=
  ((c =? 9) || (c =? 10) || (c =? 11) || (c =? 12) || (c =? 13) ||
   (c =? 32) || (c =? 160) || (c =? 5760) ||
   ((8192 <=? c) && (c <=? 8202)) ||
   (c =? 8232) || (c =? 8233) || (c =? 8239) || (c =? 8287) ||
   (c =? 12288) || (c =? 65279))%N.

Fixpoint trimStart (s : jsstring) : jsstring :=
  match s with
  | [] => []
  | c :: r => if isWhiteSpace c then trimStart r else s
  end.

Definition trimEnd (s : jsstring) : jsstring := rev (trimStart (rev s)).

(** [String.prototype.trim]. *)
Definition trim (s : jsstring) : jsstring := trimEnd (trimStart s).

(** [s.slice(0, n)] and [a.slice(i, j)] for [0 <= i <= j]. *)
Definition slice {A} (i j : nat) (l : list A) : list A :=
  firstn (j - i) (skipn i l).

(** Value of a digit in a radix up to 36. *)
Definition digitValue (c : N) : option N :=
  (if (48 <=? c) && (c <=? 57) then Some (c - 48)
   else if (97 <=? c) && (c <=? 122) then Some (c - 97 + 10)
   else if (65 <=? c) && (c <=? 90) then Some (c - 65 + 10)
   else None)%N.

(** The longest prefix of radix-[R] digits, read as a number; [None] when
    the prefix is empty. *)
Fixpoint parseDigits (R : N) (s : jsstring) (acc : option N) : option N :=
  match s with
  | [] => acc
  | c :: r =>
      match digitValue c with
      | Some d =>
          if (d <? R)%N
          then parseDigits R r
                 (Some (match acc with Some a => a * R + d | None => d end)%N)
          else acc
      | None => acc
      end
  end.

(** [parseInt(s)] without a radix argument: leading white space, an optional
    sign, an optional [0x] prefix, then digits; the number read is rounded
    to a double. *)
Definition parseInt (s : jsstring) : jsnum :=
  let S0 := trimStart s in
  let sign :=
    match S0 with
    | c :: _ => if (c =? 45)%N then -1 else 1
    | [] => 1
    end in
  let S1 :=
    match S0 with
    | c :: r => if ((c =? 45) || (c =? 43))%N then r else S0
    | [] => S0
    end in
  let hex :=
    match S1 with
    | c1 :: c2 :: _ => ((c1 =? 48) && ((c2 =? 120) || (c2 =? 88)))%N
    | _ => false
    end in
  let R := if hex then 16%N else 10%N in
  let S2 := if hex then skipn 2 S1 else S1 in
  match parseDigits R S2 None with
  | None => NaN
  | Some n => toDouble (sign * Z.of_N n)
  end.

(** Decimal rendering of a natural number, as [String(n)] gives it. *)
Fixpoint digitsOfUint (d : Decimal.uint) : jsstring :=
  match d with
  | Decimal.Nil => []
  | Decimal.D0 r => 48%N :: digitsOfUint r
  | Decimal.D1 r => 49%N :: digitsOfUint r
  | Decimal.D2 r => 50%N :: digitsOfUint r
  | Decimal.D3 r => 51%N :: digitsOfUint r
  | Decimal.D4 r => 52%N :: digitsOfUint r
  | Decimal.D5 r => 53%N :: digitsOfUint r
  | Decimal.D6 r => 54%N :: digitsOfUint r
  | Decimal.D7 r => 55%N :: digitsOfUint r
  | Decimal.D8 r => 56%N :: digitsOfUint r
  | Decimal.D9 r => 57%N :: digitsOfUint r
  end.

Definition decimal (n : nat) : jsstring := digitsOfUint (Nat.to_uint n).

End Js.
Export Js.

(* ===================================================================== *)
(** * Data of [index.ts], errors, outbound events and the state monad *)
(* ===================================================================== *)

Module Types.

(** [interface TokenData]. *)
Record TokenData := mkTokenData {
  access_token : jsstring;
  refresh_token : jsstring;
  expires_at : Z
}.

(** [interface LikedSong]. *)
Record LikedSong := mkLikedSong {
  liked_name : jsstring;
  liked_artist : jsstring;
  liked_id : jsstring
}.

(** [interface Song]. *)
Record Song := mkSong {
  title : jsstring;
  artist : jsstring
}.

(** [interface Playlist]. *)
Record Playlist := mkPlaylist {
  name : jsstring;
  description : jsstring;
  songs : list Song
}.

(** What [JSON.parse] gives for the snapshot file and for the language
    model's list of playlists: the array asked for, or [null].  Other JSON
    values are left out. *)
Inductive Parsed :=
| ParsedArray (playlists : list Playlist)
| ParsedNull.

(** Errors as the platform client raises them: an HTTP failure carries the
    status code and the response headers (an object, here its entries with
    distinct lower-case keys); any other failure (network error,
    [TypeError], [SyntaxError], [new Error(...)]) has neither field, so its
    [statusCode] is [undefined]. *)
Inductive JsError :=
| WebapiError (statusCode : Z) (headers : list (jsstring * jsstring))
              (message : jsstring)
| PlainError (message : jsstring).

(** [error.statusCode]. *)
(** The [TypeError] of reading [property] of [undefined], with the
    message Node gives it. *)
Definition typeError (property : jsstring) : JsError :=
  PlainError (js "Cannot read properties of undefined (reading '" ++
              property ++ js "')").

Definition statusCodeOf (error : JsError) : option Z :=
  match error with
  | WebapiError c _ _ => Some c
  | PlainError _ => None
  end.

(** [obj[key]] on a header object. *)
Fixpoint lookup (key : jsstring) (obj : list (jsstring * jsstring))
  : option jsstring :=
  match obj with
  | [] => None
  | (k, v) :: rest => if jsstring_eqb k key then Some v else lookup key rest
  end.

Inductive Res (A : Type) :=
| Ok (a : A)
| Throw (e : JsError).
Arguments Ok {A} a.
Arguments Throw {A} e.

(** Bodies of the platform's answers, reduced to the fields the service
    reads. *)
Record Track := mkTrack { uri : jsstring }.
Record Artist := mkArtist { artist_id : jsstring }.

Record SearchTracksBody := mkSearchTracksBody {
  tracks : option (list Track)          (* [body.tracks?.items] *)
}.
Record SearchArtistsBody := mkSearchArtistsBody {
  artists : option (list Artist)        (* [body.artists?.items] *)
}.
Record TopTracksBody := mkTopTracksBody {
  top_tracks : list Track               (* [body.tracks] *)
}.
Record SavedTrack := mkSavedTrack {
  track_name : jsstring;
  track_artists : list jsstring;        (* names of [item.track.artists] *)
  track_id : jsstring
}.
Record SavedTracksBody := mkSavedTracksBody {
  total : Z;
  items : list SavedTrack
}.
Record RefreshBody := mkRefreshBody {
  new_access_token : jsstring;
  expires_in : Z
}.

(** Outbound calls and timers, in the order they are issued. *)
Inductive Event :=
| ESearchTracks (query : jsstring)
| ESearchArtists (query : jsstring)
| EGetArtistTopTracks (artistId market : jsstring)
| ECreatePlaylist (pname pdescription : jsstring)
| EAddTracksToPlaylist (playlistId : jsstring) (uris : list jsstring)
| EGetMySavedTracks (limit offset : Z)
| ERefreshAccessToken (refreshToken : option jsstring)
| EMessagesCreate (userPrompt : jsstring)
| EWriteTokenFile (record : TokenData)
| ESetTimeout (delay : jsnum).

(** Calls to the streaming platform, calls to the language model. *)
Definition isPlatformCall (ev : Event) : bool :=
  match ev with
  | EMessagesCreate _ | EWriteTokenFile _ | ESetTimeout _ => false
  | _ => true
  end.

Definition isLanguageModelCall (ev : Event) : bool :=
  match ev with
  | EMessagesCreate _ => true
  | _ => false
  end.

End Types.
Export Types.

Module Effects.

(** The outside world: what each external call answers and how the world
    moves on.  [mathRandomIndex m] stands for
    [Math.floor(Math.random() * m)].  [deliverNext n] is the order in which
    answers reach the event loop: of [n] requests that are out at once, the
    one whose answer is delivered next (taken modulo [n]). *)
Record Platform (W : Type) := mkPlatform {
  searchTracks : jsstring -> W -> Res SearchTracksBody * W;
  searchArtists : jsstring -> W -> Res SearchArtistsBody * W;
  getArtistTopTracks : jsstring -> jsstring -> W -> Res TopTracksBody * W;
  createPlaylist : jsstring -> jsstring -> W -> Res jsstring * W;
  addTracksToPlaylist : jsstring -> list jsstring -> W -> Res unit * W;
  getMySavedTracks : Z -> Z -> W -> Res SavedTracksBody * W;
  refreshAccessToken : option jsstring -> W -> Res RefreshBody * W;
  messagesCreate : jsstring -> W -> Res Playlist * W;
  dateNow : W -> Z * W;
  mathRandomIndex : nat -> W -> nat * W;
  writeFile : W -> Res unit * W;
  deliverNext : nat -> W -> nat * W
}.

(** The state threaded through the service. *)
Record St (W : Type) := mkSt {
  world : W;
  trace : list Event;
  tokenFile : option TokenData;              (* token.json, parsed *)
  savedPlaylistsFile : option Parsed;        (* saved_playlists.json *)
  clientAccessToken : option jsstring;       (* spotifyApi's fields *)
  clientRefreshToken : option jsstring
}.

Definition M (W A : Type) := St W -> Res A * St W.

Section Monad.
Context {W : Type}.

Definition ret {A} (a : A) : M W A := fun st => (Ok a, st).

Definition throw {A} (e : JsError) : M W A := fun st => (Throw e, st).

Definition bind {A B} (m : M W A) (k : A -> M W B) : M W B :=
  fun st =>
    match m st with
    | (Ok a, st1) => k a st1
    | (Throw e, st1) => (Throw e, st1)
    end.

(** [try { m } catch (error) { h error }]. *)
Definition catch {A} (m : M W A) (h : JsError -> M W A) : M W A :=
  fun st =>
    match m st with
    | (Ok a, st1) => (Ok a, st1)
    | (Throw e, st1) => h e st1
    end.

Definition withWorld (st : St W) (w : W) : St W :=
  mkSt w (trace st) (tokenFile st) (savedPlaylistsFile st)
       (clientAccessToken st) (clientRefreshToken st).

Definition emit (ev : Event) (st : St W) : St W :=
  mkSt (world st) (trace st ++ [ev]) (tokenFile st) (savedPlaylistsFile st)
       (clientAccessToken st) (clientRefreshToken st).

(** An outbound call: recorded in the trace, answered by the world. *)
Definition call {R} (ev : Event) (op : W -> Res R * W) : M W R :=
  fun st =>
    let '(r, w1) := op (world st) in
    (r, withWorld (emit ev st) w1).

(** [await new Promise((resolve) => setTimeout(resolve, delay))]. *)
Definition setTimeout (delay : jsnum) : M W unit :=
  fun st => (Ok tt, emit (ESetTimeout delay) st).

Fixpoint mapM {A B} (f : A -> M W B) (l : list A) : M W (list B) :=
  match l with
  | [] => ret []
  | a :: rest =>
      bind (f a) (fun b => bind (mapM f rest) (fun bs => ret (b :: bs)))
  end.

End Monad.

Declare Scope js_scope.
Delimit Scope js_scope with js.
Notation "x <- m ;; k" := (bind m (fun x => k))
  (at level 61, m at next level, right associativity) : js_scope.
Notation "m ;;; k" := (bind m (fun _ => k))
  (at level 61, right associativity) : js_scope.

End Effects.
Export Effects.

(* ===================================================================== *)
(** * [utils.ts]: the backoff wrapper *)
(* ===================================================================== *)

Module Utils.
Section ExponentialBackoff.
Context {W A : Type}.
Variable fn : M W A.
Variable maxRetries : nat.
Variable initialDelay : Z.

(** [error.statusCode === 429 && retries < maxRetries]. *)
Definition shouldRetry (error : JsError) (retries : nat) : bool :=
  match statusCodeOf error with
  | Some c => c =? 429
  | None => false
  end && (retries <? maxRetries)%nat.

(** [Math.pow(2, retries)]. *)
Definition pow2 (retries : nat) : jsnum := toDouble (2 ^ Z.of_nat retries).

(** [error.headers["retry-after"] ? parseInt(...) * 1000
                                  : initialDelay * Math.pow(2, retries)].
    Reading a property of the missing [headers] of a plain error is a
    [TypeError]. *)
Definition retryDelay (error : JsError) (retries : nat) : Res jsnum :=
  match error with
  | WebapiError _ headers _ =>
      match lookup (js "retry-after") headers with
      | Some h =>
          if truthy_string h
          then Ok (jsmul (parseInt h) (Num 1000))
          else Ok (jsmul (Num initialDelay) (pow2 retries))
      | None => Ok (jsmul (Num initialDelay) (pow2 retries))
      end
  | PlainError _ => Throw (typeError (js "retry-after"))
  end.

Definition decide (b : bool) : {b = true} + {b = false} :=
  match b as b0 return {b0 = true} + {b0 = false} with
  | true => left eq_refl
  | false => right eq_refl
  end.

(** The [while (true)] loop, with [retries] as its counter. *)
Equations? backoff_loop (retries : nat) (st : St W) : Res A * St W
  by wf (maxRetries - retries)%nat lt :=
backoff_loop retries st with fn st := {
  | (Ok result, st1) => (Ok result, st1)
  | (Throw error, st1) with decide (shouldRetry error retries) := {
      | left _ with retryDelay error retries := {
          | Ok delay =>
              backoff_loop (S retries) (snd (setTimeout delay st1))
          | Throw e => (Throw e, st1) }
      | right _ => (Throw error, st1) } }.
Proof.
  unfold shouldRetry in e.
  apply andb_prop in e. destruct e as [_ e].
  apply Nat.ltb_lt in e. lia.
Qed.

Definition exponentialBackoff : M W A := backoff_loop 0.

End ExponentialBackoff.
End Utils.

(* ===================================================================== *)
(** * [requestQueue.ts]: the single-worker queue *)
(* ===================================================================== *)

Module RequestQueue.
Section Queue.
Context {W A : Type}.

(** A queued closure: the unit of work [fn] together with the
    [resolve]/[reject] pair of the promise [add] returned, named by a
    ticket. *)
Record Request := mkRequest {
  ticket : nat;
  unit_fn : M W A
}.

(** Where an activation of [process()] is suspended. *)
Inductive Pc :=
| AwaitRequest (request : Request)     (* [await request()] *)
| AwaitDelay.                          (* [await new Promise(setTimeout 50)] *)

Inductive QEvent :=
| Started (t : nat)
| Settled (t : nat) (outcome : Res A)
| TimerSet (ms : Z)
| TimerFired.

Record Queue := mkQueue {
  queue : list Request;                (* [this.queue] *)
  isProcessing : bool;                 (* [this.isProcessing] *)
  workers : list Pc;                   (* suspended activations of [process] *)
  promises : list (nat * Res A);       (* settled promises of [add] *)
  nextTicket : nat;
  qlog : list QEvent;
  env : St W
}.

Definition empty (st : St W) : Queue :=
  mkQueue [] false [] [] 0 [] st.

(** Units of work that are executing: those some activation awaits. *)
Definition inflight (q : Queue) : list nat :=
  flat_map (fun pc => match pc with
                      | AwaitRequest r => [ticket r]
                      | AwaitDelay => []
                      end) (workers q).

(** The [while (this.queue.length > 0)] loop, run by an activation from its
    loop test to its next [await] or to its end. *)
Definition worker_loop (q : Queue) : Queue :=
  match queue q with
  | [] =>
      mkQueue [] false (workers q) (promises q) (nextTicket q) (qlog q)
              (env q)
  | request :: rest =>
      mkQueue rest (isProcessing q) (workers q ++ [AwaitRequest request])
              (promises q) (nextTicket q)
              (qlog q ++ [Started (ticket request)]) (env q)
  end.

(** [process()]. *)
Definition process (q : Queue) : Queue :=
  if isProcessing q then q
  else worker_loop
         (mkQueue (queue q) true (workers q) (promises q) (nextTicket q)
                  (qlog q) (env q)).

(** [add(fn)]: push the closure, call [process()]. *)
Definition add (fn : M W A) (q : Queue) : Queue :=
  process
    (mkQueue (queue q ++ [mkRequest (nextTicket q) fn]) (isProcessing q)
             (workers q) (promises q) (S (nextTicket q)) (qlog q) (env q)).

Fixpoint remove_nth {X} (i : nat) (l : list X) : list X :=
  match i, l with
  | _, [] => []
  | O, _ :: rest => rest
  | S j, x :: rest => x :: remove_nth j rest
  end.

Fixpoint replace_nth {X} (i : nat) (y : X) (l : list X) : list X :=
  match i, l with
  | _, [] => []
  | O, _ :: rest => y :: rest
  | S j, x :: rest => x :: replace_nth j y rest
  end.

(** The awaited request of activation [i] settles: the closure ran
    [exponentialBackoff(fn)] and resolved or rejected the caller's promise
    (its [catch] turns a failure into [reject(error)], so [request()] itself
    never fails); the activation goes on to set the 50 ms timer.  The calls
    the unit made are placed in the world at this step.  The step is the
    event of the unit settling: nothing obliges a run to take it, and a
    unit that never settles ([await request()] has no timeout) is a run in
    which this step does not occur. *)
Definition settle (i : nat) (q : Queue) : option Queue :=
  match nth_error (workers q) i with
  | Some (AwaitRequest request) =>
      let '(outcome, st1) :=
        Utils.exponentialBackoff (unit_fn request) 5 1000 (env q) in
      Some (mkQueue (queue q) (isProcessing q)
                    (replace_nth i AwaitDelay (workers q))
                    (promises q ++ [(ticket request, outcome)])
                    (nextTicket q)
                    (qlog q ++ [Settled (ticket request) outcome; TimerSet 50])
                    (emit (ESetTimeout (Num 50)) st1))
  | _ => None
  end.

(** The 50 ms timer of activation [i] fires: back to the loop test. *)
Definition timer (i : nat) (q : Queue) : option Queue :=
  match nth_error (workers q) i with
  | Some AwaitDelay =>
      Some (worker_loop
              (mkQueue (queue q) (isProcessing q) (remove_nth i (workers q))
                       (promises q) (nextTicket q) (qlog q ++ [TimerFired])
                       (env q)))
  | _ => None
  end.

(** What the event loop can do next. *)
Inductive Step :=
| DoAdd (fn : M W A)
| DoSettle (i : nat)
| DoTimer (i : nat).

Definition step (s : Step) (q : Queue) : option Queue :=
  match s with
  | DoAdd fn => Some (add fn q)
  | DoSettle i => settle i q
  | DoTimer i => timer i q
  end.

Fixpoint run (steps : list Step) (q : Queue) : option Queue :=
  match steps with
  | [] => Some q
  | s :: rest =>
      match step s q with
      | Some q1 => run rest q1
      | None => None
      end
  end.

(** The schedule that lets the single activation finish [n] units. *)
Fixpoint drain (n : nat) : list Step :=
  match n with
  | O => []
  | S m => DoSettle 0 :: DoTimer 0 :: drain m
  end.

(** Tickets in the order their units were started. *)
Definition started (log : list QEvent) : list nat :=
  flat_map (fun ev => match ev with Started t => [t] | _ => [] end) log.

(** The phase of the log as a word of
    [(Started; Settled; TimerSet 50; TimerFired)*]: [None] when the log is
    not a prefix of such a word. *)
Inductive Phase := Idle | Running (t : nat) | Done | Waiting.

Definition phase_step (p : Phase) (ev : QEvent) : option Phase :=
  match p, ev with
  | Idle, Started t => Some (Running t)
  | Running t, Settled t' _ => if Nat.eqb t t' then Some Done else None
  | Done, TimerSet ms => if ms =? 50 then Some Waiting else None
  | Waiting, TimerFired => Some Idle
  | _, _ => None
  end.

Fixpoint pace (p : Phase) (log : list QEvent) : option Phase :=
  match log with
  | [] => Some p
  | ev :: rest =>
      match phase_step p ev with
      | Some p1 => pace p1 rest
      | None => None
      end
  end.

End Queue.

(** [await requestQueue.add(fn)] as the handlers use it, one awaited unit
    after the other: the unit runs under the backoff wrapper, the caller
    gets its outcome, and the worker holds its 50 ms delay. *)
Definition addAwait {W A} (fn : M W A) : M W A :=
  fun st =>
    let '(outcome, st1) := Utils.exponentialBackoff fn 5 1000 st in
    (outcome, emit (ESetTimeout (Num 50)) st1).

(** Several units awaited one after the other, with their outcomes. *)
Fixpoint awaitAll {W A} (fns : list (M W A)) (st : St W)
  : list (Res A) * St W :=
  match fns with
  | [] => ([], st)
  | fn :: rest =>
      let '(outcome, st1) := addAwait fn st in
      let '(outcomes, st2) := awaitAll rest st1 in
      (outcome :: outcomes, st2)
  end.

End RequestQueue.

(* ===================================================================== *)
(** * [index.ts]: token lifecycle, track resolver, pagination, handlers *)
(* ===================================================================== *)

Module Index.

(** One card of the preview page: the markup interpolates the name, the
    description and the identifier of the created playlist. *)
Record Embed := mkEmbed {
  embed_name : jsstring;
  embed_description : jsstring;
  embed_playlist_id : jsstring
}.

Inductive Body :=
| BText (text : jsstring)
| BErrorMessage (error : JsError)      (* ["Error: " + formatSpotifyError] *)
| BPreviewPage (playlistEmbeds : list Embed)
| BCustomPage (playlistEmbed : Embed).

Record Response := mkResponse {
  status : Z;
  body : Body
}.

(** The parts of an incoming request the handlers read; [prompt] is
    [req.body.prompt], [None] when the field is missing. *)
Record HttpRequest := mkHttpRequest {
  path : jsstring;
  prompt : option jsstring
}.


(** [x?.items.length]. *)
Definition countOf {X} (items : option (list X)) : jsval :=
  match items with
  | None => VUndefined
  | Some l => VNumber (Z.of_nat (length l))
  end.

(** [x?.items.length ?? 0 > 0]: the relational operator binds tighter than
    [??], so this is [x?.items.length ?? (0 > 0)]. *)
Definition foundCondition {X} (items : option (list X)) : bool :=
  truthy (nullish (countOf items) (VBoolean (0 >? 0))).

(** [trackUris.filter((uri) => uri !== undefined)]. *)
Fixpoint definedOnly {X} (l : list (option X)) : list X :=
  match l with
  | [] => []
  | Some x :: rest => x :: definedOnly rest
  | None :: rest => definedOnly rest
  end.

(** [sanitizePlaylistData]. *)
Definition sanitizePlaylistData (playlist : Playlist) : Playlist :=
  mkPlaylist (slice 0 100 (trim (name playlist)))
             (slice 0 300 (trim (description playlist)))
             (songs playlist).

(** [item => ({ name: item.track.name, artist: item.track.artists[0].name,
    id: item.track.id })]. *)
Definition toLikedSong (item : SavedTrack) : Res LikedSong :=
  match track_artists item with
  | [] => Throw (typeError (js "name"))
  | first :: _ => Ok (mkLikedSong (track_name item) first (track_id item))
  end.

Fixpoint mapRes {X Y} (f : X -> Res Y) (l : list X) : Res (list Y) :=
  match l with
  | [] => Ok []
  | x :: rest =>
      match f x with
      | Throw e => Throw e
      | Ok y =>
          match mapRes f rest with
          | Throw e => Throw e
          | Ok ys => Ok (y :: ys)
          end
      end
  end.

(** [const batchSize = 20] of [findTrackUris]. *)
Definition batchSize : nat := 20.

(** The [for (let i = 0; i < songs.length; i += batchSize)] loop of
    [findTrackUris]. *)
Equations? batchLoop {X} (songs : list X) (i : nat)
  (batches : list (list X)) : list (list X)
  by wf (length songs - i)%nat lt :=
batchLoop songs i batches with Utils.decide (i <? length songs)%nat := {
  | left _ =>
      batchLoop songs (i + batchSize)
        (batches ++ [slice i (i + batchSize) songs])
  | right _ => batches }.
Proof.
  apply Nat.ltb_lt in e. unfold batchSize. lia.
Qed.

(** A song's resolution between two of its [await]s, as [Promise.all]
    over a batch runs it: the function has one request out, which the
    platform answered when it was sent, and it goes on when that answer is
    delivered to it; or it has returned. *)
Inductive Lookup :=
| AwaitExact (song : Song) (answer : Res SearchTracksBody)
| AwaitArtist (answer : Res SearchArtistsBody)
| AwaitTop (answer : Res TopTracksBody)
| Returned (u : option jsstring).

Definition isOut (l : Lookup) : bool :=
  match l with
  | Returned _ => false
  | _ => true
  end.

(** The number of requests that are out. *)
Definition outCount (ls : list Lookup) : nat := length (filter isOut ls).

Definition resultOf (l : Lookup) : option jsstring :=
  match l with
  | Returned u => u
  | _ => None
  end.

Section Service.
Context {W : Type}.
Variable P : Platform W.

Local Open Scope js_scope.
Import RequestQueue.

Definition now : M W Z :=
  fun st => let '(t, w1) := dateNow P (world st) in (Ok t, withWorld st w1).

Definition random (m : nat) : M W nat :=
  fun st =>
    let '(i, w1) := mathRandomIndex P m (world st) in (Ok i, withWorld st w1).

(** [JSON.parse(await fs.readFile(tokenPath, "utf8"))]. *)
Definition readTokenFile : M W TokenData :=
  fun st =>
    match tokenFile st with
    | Some tokenData => (Ok tokenData, st)
    | None => (Throw (PlainError (js "ENOENT")), st)
    end.

(** [await fs.writeFile(tokenPath, JSON.stringify(record))]. *)
Definition writeTokenFile (record : TokenData) : M W unit :=
  fun st =>
    match writeFile P (world st) with
    | (Ok _, w1) =>
        (Ok tt,
         mkSt w1 (trace st ++ [EWriteTokenFile record]) (Some record)
              (savedPlaylistsFile st) (clientAccessToken st)
              (clientRefreshToken st))
    | (Throw e, w1) => (Throw e, withWorld st w1)
    end.

(** [JSON.parse(await fs.readFile(savedPlaylistsPath, "utf8"))]. *)
Definition readSavedPlaylists : M W Parsed :=
  fun st =>
    match savedPlaylistsFile st with
    | Some playlists => (Ok playlists, st)
    | None => (Throw (PlainError (js "ENOENT")), st)
    end.

Definition setRefreshToken (t : jsstring) : M W unit :=
  fun st =>
    (Ok tt, mkSt (world st) (trace st) (tokenFile st) (savedPlaylistsFile st)
                 (clientAccessToken st) (Some t)).

Definition setAccessToken (t : jsstring) : M W unit :=
  fun st =>
    (Ok tt, mkSt (world st) (trace st) (tokenFile st) (savedPlaylistsFile st)
                 (Some t) (clientRefreshToken st)).

(** [spotifyApi.refreshAccessToken()]: the exchange uses the refresh token
    held by the client. *)
Definition refreshAccessTokenCall : M W RefreshBody :=
  fun st =>
    call (ERefreshAccessToken (clientRefreshToken st))
         (refreshAccessToken P (clientRefreshToken st)) st.

(** [refreshTokenIfNeeded]. *)
Definition refreshTokenIfNeeded : M W unit :=
  catch
    (tokenData <- readTokenFile ;;
     t <- now ;;
     if t >? expires_at tokenData - 300000 then
       setRefreshToken (refresh_token tokenData) ;;;
       data <- refreshAccessTokenCall ;;
       t2 <- now ;;
       writeTokenFile
         (mkTokenData (new_access_token data) (refresh_token tokenData)
                      (t2 + expires_in data * 1000)) ;;;
       setAccessToken (new_access_token data)
     else
       setAccessToken (access_token tokenData))
    (fun _ =>
       throw (PlainError (js "Failed to refresh token. Please log in again."))).

Definition limit : Z := 50.

(** [getAllLikedSongs]: the [do ... while (offset < total)] loop; [fuel]
    bounds the number of pages, [None] is a loop still running. *)
Fixpoint likedSongsLoop (fuel : nat) (allTracks : list LikedSong)
  (offset : Z) (st : St W) : option (Res (list LikedSong) * St W) :=
  match fuel with
  | O => None
  | S fuel' =>
      match call (EGetMySavedTracks limit offset)
                 (getMySavedTracks P limit offset) st with
      | (Throw e, st1) => Some (Throw e, st1)
      | (Ok data, st1) =>
          match mapRes toLikedSong (items data) with
          | Throw e => Some (Throw e, st1)
          | Ok tracks =>
              let allTracks1 := allTracks ++ tracks in
              let offset1 := offset + limit in
              if offset1 <? total data
              then likedSongsLoop fuel' allTracks1 offset1 st1
              else Some (Ok allTracks1, st1)
          end
      end
  end.

Definition getAllLikedSongs (fuel : nat) (st : St W)
  : option (Res (list LikedSong) * St W) :=
  likedSongsLoop fuel [] 0 st.

Definition exactQuery (song : Song) : jsstring :=
  js "track:" ++ title song ++ js " artist:" ++ artist song.

(** The second half of a song's resolution, from the artist search on
    ("If exact song not found, search for the artist's top tracks"). *)
Definition artistFallback (song : Song) : M W (option jsstring) :=
  artistSearch <- call (ESearchArtists (artist song))
                       (searchArtists P (artist song)) ;;
  if foundCondition (artists artistSearch) then
    match artists artistSearch with
    | None => throw (typeError (js "items"))
    | Some found =>
        match nth_error found 0 with
        | None => throw (typeError (js "id"))
        | Some a =>
            topTracks <-
              call (EGetArtistTopTracks (artist_id a) (js "US"))
                   (getArtistTopTracks P (artist_id a) (js "US")) ;;
            if (0 <? length (top_tracks topTracks))%nat then
              randomIndex <-
                random (Nat.min 5 (length (top_tracks topTracks))) ;;
              match nth_error (top_tracks topTracks) randomIndex with
              | Some t => ret (Some (uri t))
              | None => throw (typeError (js "uri"))
              end
            else ret None
        end
    end
  else ret None.

(** The body of [batch.map(async (song) => { try ... catch ... })], run
    from its first line to its return with nothing else in between, as it
    runs when the batch has this song only. *)
Definition resolveSong (song : Song) : M W (option jsstring) :=
  catch
    (exactSearch <- call (ESearchTracks (exactQuery song))
                         (searchTracks P (exactQuery song)) ;;
     if foundCondition (tracks exactSearch) then
       match tracks exactSearch with
       | None => ret None
       | Some found =>
           match nth_error found 0 with
           | Some t => ret (Some (uri t))
           | None => throw (typeError (js "uri"))
           end
       end
     else artistFallback song)
    (fun _ => ret None).

(** The same body cut at its [await]s.  [startSong] is the function up to
    its first [await]: the exact search is sent. *)
Definition startSong (song : Song) (st : St W) : Lookup * St W :=
  let '(answer, st1) :=
    call (ESearchTracks (exactQuery song))
         (searchTracks P (exactQuery song)) st in
  (AwaitExact song answer, st1).

(** From the delivery of an answer to the next [await] or to the return.
    A failure anywhere is caught by the function's [try]/[catch], which
    returns [undefined]. *)
Definition resumeSong (l : Lookup) (st : St W) : Lookup * St W :=
  match l with
  | AwaitExact song (Throw _) => (Returned None, st)
  | AwaitExact song (Ok exactSearch) =>
      if foundCondition (tracks exactSearch) then
        match tracks exactSearch with
        | None => (Returned None, st)
        | Some found =>
            match nth_error found 0 with
            | Some t => (Returned (Some (uri t)), st)
            | None => (Returned None, st)
            end
        end
      else
        let '(answer, st1) :=
          call (ESearchArtists (artist song))
               (searchArtists P (artist song)) st in
        (AwaitArtist answer, st1)
  | AwaitArtist (Throw _) => (Returned None, st)
  | AwaitArtist (Ok artistSearch) =>
      if foundCondition (artists artistSearch) then
        match artists artistSearch with
        | None => (Returned None, st)
        | Some found =>
            match nth_error found 0 with
            | None => (Returned None, st)
            | Some a =>
                let '(answer, st1) :=
                  call (EGetArtistTopTracks (artist_id a) (js "US"))
                       (getArtistTopTracks P (artist_id a) (js "US")) st in
                (AwaitTop answer, st1)
            end
        end
      else (Returned None, st)
  | AwaitTop (Throw _) => (Returned None, st)
  | AwaitTop (Ok topTracks) =>
      if (0 <? length (top_tracks topTracks))%nat then
        let '(randomIndex, w1) :=
          mathRandomIndex P (Nat.min 5 (length (top_tracks topTracks)))
                          (world st) in
        match nth_error (top_tracks topTracks) randomIndex with
        | Some t => (Returned (Some (uri t)), withWorld st w1)
        | None => (Returned None, withWorld st w1)
        end
      else (Returned None, st)
  | Returned u => (Returned u, st)
  end.

(** [batch.map(async (song) => ...)]: every function of the batch runs up
    to its first [await], in the order of the batch. *)
Fixpoint startAll (batch : list Song) (st : St W) : list Lookup * St W :=
  match batch with
  | [] => ([], st)
  | song :: rest =>
      let '(l, st1) := startSong song st in
      let '(ls, st2) := startAll rest st1 in
      (l :: ls, st2)
  end.

(** The answer of the [k]-th request that is out is delivered: its
    function goes on, the others stay as they are. *)
Fixpoint deliver (k : nat) (ls : list Lookup) (st : St W)
  : list Lookup * St W :=
  match ls with
  | [] => ([], st)
  | l :: rest =>
      if isOut l then
        match k with
        | O => let '(l1, st1) := resumeSong l st in (l1 :: rest, st1)
        | S k' =>
            let '(rest1, st1) := deliver k' rest st in (l :: rest1, st1)
        end
      else
        let '(rest1, st1) := deliver k rest st in (l :: rest1, st1)
  end.

(** The event loop until every function has returned: as long as a
    request is out, the next answer is delivered.  [fuel] bounds the number
    of deliveries. *)
Fixpoint settleAll (fuel : nat) (ls : list Lookup) (st : St W)
  : list Lookup * St W :=
  match fuel with
  | O => (ls, st)
  | S fuel' =>
      match outCount ls with
      | O => (ls, st)
      | S n =>
          let '(k, w1) := deliverNext P (S n) (world st) in
          let '(ls1, st1) := deliver (k mod S n) ls (withWorld st w1) in
          settleAll fuel' ls1 st1
      end
  end.

(** [await Promise.all(batch.map(async (song) => ...))]: the functions are
    started together and the results come in the order of the batch.  A
    function has three answers to wait for at most, so three deliveries
    per song are enough. *)
Definition resolveBatch (batch : list Song) : M W (list (option jsstring)) :=
  fun st =>
    let '(ls, st1) := startAll batch st in
    let '(ls1, st2) := settleAll (3 * length batch) ls st1 in
    (Ok (map resultOf ls1), st2).

Definition makeBatches (songs : list Song) : list (list Song) :=
  batchLoop songs 0 [].

(** [findTrackUris]: every batch is one unit of work of the request
    queue. *)
Definition findTrackUris (songs : list Song) : M W (list (option jsstring)) :=
  results <- mapM (fun batch => addAwait (resolveBatch batch))
                  (makeBatches songs) ;;
  ret (concat results).

(** The [for (let i = 0; i < validTrackUris.length; i += batchSize)] loop
    of the bulk flow, [batchSize = 100]. *)
Equations? addTracksLoop (playlistId : jsstring)
  (validTrackUris : list jsstring) (i : nat) : M W unit
  by wf (length validTrackUris - i)%nat lt :=
addTracksLoop playlistId validTrackUris i
  with Utils.decide (i <? length validTrackUris)%nat := {
  | left _ =>
      bind (addAwait
              (call (EAddTracksToPlaylist playlistId
                       (slice i (i + 100) validTrackUris))
                    (addTracksToPlaylist P playlistId
                       (slice i (i + 100) validTrackUris))))
           (fun _ => addTracksLoop playlistId validTrackUris (i + 100)%nat)
  | right _ => ret tt }.
Proof.
  apply Nat.ltb_lt in e. lia.
Qed.

(** The body of [for (const playlist of playlists) { try ... catch ... }]
    in [/preview-playlists]. *)
Definition previewStep (playlist : Playlist)
  (acc : list jsstring * list Embed) : M W (list jsstring * list Embed) :=
  let '(createdPlaylistIds, playlistEmbeds) := acc in
  catch
    (trackUris <- findTrackUris (songs playlist) ;;
     let validTrackUris := definedOnly trackUris in
     if (length validTrackUris =? 0)%nat then
       ret (createdPlaylistIds, playlistEmbeds)
     else
       let sanitizedPlaylist := sanitizePlaylistData playlist in
       newPlaylistId <-
         addAwait
           (call (ECreatePlaylist (name sanitizedPlaylist)
                                  (description sanitizedPlaylist))
                 (createPlaylist P (name sanitizedPlaylist)
                                 (description sanitizedPlaylist))) ;;
       addTracksLoop newPlaylistId validTrackUris 0 ;;;
       ret (createdPlaylistIds ++ [newPlaylistId],
            playlistEmbeds ++
              [mkEmbed (name sanitizedPlaylist)
                       (description sanitizedPlaylist) newPlaylistId]))
    (fun _ => ret (createdPlaylistIds, playlistEmbeds)).

Fixpoint previewLoop (playlists : list Playlist)
  (acc : list jsstring * list Embed) : M W (list jsstring * list Embed) :=
  match playlists with
  | [] => ret acc
  | playlist :: rest =>
      acc1 <- previewStep playlist acc ;;
      previewLoop rest acc1
  end.

(** The [try] block of [/preview-playlists] up to the end of the loop. *)
Definition previewCreate : M W (list jsstring * list Embed) :=
  refreshTokenIfNeeded ;;;
  parsed <- readSavedPlaylists ;;
  match parsed with
  | ParsedArray playlists => previewLoop playlists ([], [])
  | ParsedNull =>                  (* [for (const playlist of null)] *)
      throw (PlainError (js "playlists is not iterable"))
  end.

(** [app.get("/preview-playlists", ...)]. *)
Definition previewPlaylists : M W Response :=
  catch
    (acc <- previewCreate ;;
     if (length (snd acc) =? 0)%nat then
       throw (PlainError (js "No valid playlists could be created"))
     else
       ret (mkResponse 200 (BPreviewPage (snd acc))))
    (fun error => ret (mkResponse 500 (BErrorMessage error))).

(** [anthropic.messages.create] with the custom prompt, then [JSON.parse]
    of the answer. *)
Definition generateCustomPlaylistWithClaude (userPrompt : jsstring)
  : M W Playlist :=
  call (EMessagesCreate userPrompt) (messagesCreate P userPrompt).

(** [!userPrompt]. *)
Definition promptMissing (p : option jsstring) : bool :=
  match p with
  | None => true
  | Some s => negb (truthy_string s)
  end.

(** [app.post("/create-custom-playlist", ...)]. *)
Definition createCustomPlaylist (req : HttpRequest) : M W Response :=
  catch
    (refreshTokenIfNeeded ;;;
     if promptMissing (prompt req) then
       ret (mkResponse 400 (BText (js "Prompt is required")))
     else
       let userPrompt := match prompt req with Some s => s | None => [] end in
       customPlaylist <- generateCustomPlaylistWithClaude userPrompt ;;
       trackUris <- findTrackUris (songs customPlaylist) ;;
       let validTrackUris := definedOnly trackUris in
       if (length validTrackUris =? 0)%nat then
         ret (mkResponse 404
                (BText (js "No valid tracks found for the custom playlist")))
       else
         newPlaylistId <-
           addAwait
             (call (ECreatePlaylist (name customPlaylist)
                                    (description customPlaylist))
                   (createPlaylist P (name customPlaylist)
                                   (description customPlaylist))) ;;
         addAwait
           (call (EAddTracksToPlaylist newPlaylistId validTrackUris)
                 (addTracksToPlaylist P newPlaylistId validTrackUris)) ;;;
         ret (mkResponse 200
                (BCustomPage (mkEmbed (name customPlaylist)
                                      (description customPlaylist)
                                      newPlaylistId))))
    (fun error => ret (mkResponse 500 (BErrorMessage error))).

(** The middleware registered before the routes. *)
Definition tokenMiddleware (req : HttpRequest) (next : M W Response)
  : M W Response :=
  if negb (jsstring_eqb (path req) (js "/login")) &&
     negb (jsstring_eqb (path req) (js "/callback"))
  then
    fun st =>
      match refreshTokenIfNeeded st with
      | (Ok _, st1) => next st1
      | (Throw _, st1) =>
          (Ok (mkResponse 401
                 (BText (js "Authentication required. Please log in again."))),
           st1)
      end
  else next.

(** A request to [POST /create-custom-playlist] as the application serves
    it: middleware, then handler. *)
Definition serveCreateCustomPlaylist (req : HttpRequest) : M W Response :=
  tokenMiddleware req (createCustomPlaylist req).

(** A request to [GET /preview-playlists]. *)
Definition servePreviewPlaylists (req : HttpRequest) : M W Response :=
  tokenMiddleware req previewPlaylists.

End Service.
End Index.

(* ===================================================================== *)
(** * The retry policy, in the words of the specification *)
(* ===================================================================== *)

Module Policy.
Section Policy.
Context {W A : Type}.
Variable fn : M W A.

(** A failure carries the too-many-requests signal. *)
Definition tooManyRequests (e : JsError) : Prop := statusCodeOf e = Some 429.

(** The server-specified retry-after value, when the failure has one. *)
Definition retryAfterHint (e : JsError) : option jsstring :=
  match e with
  | WebapiError _ headers _ =>
      match lookup (js "retry-after") headers with
      | Some h => if truthy_string h then Some h else None
      | None => None
      end
  | PlainError _ => None
  end.

(** [Retried retries st calls out]: started in [st] with [retries] retries
    already made, the wrapper calls the unit [calls] times and ends with
    [out].  A success or a failure without the signal ends the run at once;
    a failure with the signal ends it after 5 retries; otherwise the wrapper
    waits (hint times 1000 ms, or 1000 ms doubled per retry made) and calls
    the unit again. *)
Inductive Retried : nat -> St W -> nat -> Res A * St W -> Prop :=
| R_success retries st r st1 :
    fn st = (Ok r, st1) ->
    Retried retries st 1 (Ok r, st1)
| R_propagate retries st e st1 :
    fn st = (Throw e, st1) ->
    ~ tooManyRequests e ->
    Retried retries st 1 (Throw e, st1)
| R_exhausted st e st1 :
    fn st = (Throw e, st1) ->
    tooManyRequests e ->
    Retried 5 st 1 (Throw e, st1)
| R_retry_hint retries st e st1 h calls out :
    fn st = (Throw e, st1) ->
    tooManyRequests e ->
    (retries < 5)%nat ->
    retryAfterHint e = Some h ->
    Retried (S retries)
            (emit (ESetTimeout (jsmul (parseInt h) (Num 1000))) st1)
            calls out ->
    Retried retries st (S calls) out
| R_retry_backoff retries st e st1 calls out :
    fn st = (Throw e, st1) ->
    tooManyRequests e ->
    (retries < 5)%nat ->
    retryAfterHint e = None ->
    Retried (S retries)
            (emit (ESetTimeout (Num (1000 * 2 ^ Z.of_nat retries))) st1)
            calls out ->
    Retried retries st (S calls) out.

End Policy.
End Policy.

(* ===================================================================== *)
(** * [index.ts]: the remaining routes *)
(* ===================================================================== *)

Module Routes.
Import Index.

(** [data.body] of [authorizationCodeGrant]. *)
Record GrantBody := mkGrantBody {
  granted_access_token : jsstring;
  granted_refresh_token : jsstring;
  granted_expires_in : Z
}.

(** The services the remaining routes call besides those of [Platform]:
    the authorization-code exchange, the language model asked for several
    playlists (its text parsed by [JSON.parse]: a failure is a failed
    request or a text that does not parse, [ParsedNull] the text [null]),
    and [JSON.stringify] on the liked songs that the prompt interpolates. *)
Record Services (W : Type) := mkServices {
  authorizationCodeGrant : option jsstring -> W -> Res GrantBody * W;
  messagesCreatePlaylists : jsstring -> W -> Res Parsed * W;
  stringifyLikedSongs : list LikedSong -> jsstring
}.

(** What a route sends: [res.json(value)] or a page or text with a status. *)
Inductive Reply (A : Type) :=
| Json (value : A)
| Plain (response : Response).
Arguments Json {A} value.
Arguments Plain {A} response.

(** [error.message]. *)
Definition messageOf (error : JsError) : jsstring :=
  match error with
  | WebapiError _ _ m => m
  | PlainError m => m
  end.

(** The [TypeError] of [playlists.length] when [playlists] is [null]. *)
Definition nullLength : JsError :=
  PlainError (js "Cannot read properties of null (reading 'length')").

(** [res.status(code).send(`Error: ${(error as Error).message}`)]. *)
Definition errorReply (code : Z) (error : JsError) : Response :=
  mkResponse code (BText (js "Error: " ++ messageOf error)).

Section Routes.
Context {W : Type}.
Variable P : Platform W.
Variable svc : Services W.
Variable isDevelopment : bool.       (* [NODE_ENV !== "production"] *)

Local Open Scope js_scope.

(** [app.get("/callback", ...)]; [code] is [req.query.code]. *)
Definition callbackRoute (code : option jsstring) : M W Response :=
  catch
    (data <- (fun st =>
                let '(r, w1) := authorizationCodeGrant svc code (world st) in
                (r, withWorld st w1)) ;;
     t <- now P ;;
     writeTokenFile P
       (mkTokenData (granted_access_token data) (granted_refresh_token data)
                    (t + granted_expires_in data * 1000)) ;;;
     ret (mkResponse 200
            (BText (js "Login successful! You can now use the other endpoints."))))
    (fun error => ret (errorReply 400 error)).

(** [app.get("/liked-songs", ...)]. *)
Definition likedSongsRoute (fuel : nat) (st : St W)
  : option (Res (Reply (list LikedSong)) * St W) :=
  match getAllLikedSongs P fuel st with
  | None => None
  | Some (Ok allLikedSongs, st1) => Some (Ok (Json allLikedSongs), st1)
  | Some (Throw error, st1) => Some (Ok (Plain (errorReply 500 error)), st1)
  end.





End Routes.
End Routes.

(* ===================================================================== *)
(** * Observations used to state the properties *)
(* ===================================================================== *)

Module Observations.
Import RequestQueue Index.

(** The condition the specification's design note asks for at the exact
    search: [(count ?? 0) > 0]. *)
Definition countGreaterThanZero {X} (items : option (list X)) : bool :=
  match nullish (countOf items) (VNumber 0) with
  | VNumber n => n >? 0
  | _ => false
  end.



(** What [toLikedSong] yields on an item that has an artist. *)
Definition likedOf (item : SavedTrack) : LikedSong :=
  mkLikedSong (track_name item) (hd [] (track_artists item)) (track_id item).

Definition hasArtist (item : SavedTrack) : Prop := track_artists item <> [].

(** Number of page requests for a reported total: one at least, then one
    per started block of 50. *)
Definition pageCount (T : Z) : nat := Nat.max 1 (Z.to_nat ((T + 49) / 50)).

Definition offsetOf (k : nat) : Z := 50 * Z.of_nat k.

(** Events of a track resolution: searches, top-tracks lookups, timers. *)
Definition isResolution (ev : Event) : Prop :=
  match ev with
  | ESearchTracks _ | ESearchArtists _ | EGetArtistTopTracks _ _
  | ESetTimeout _ => True
  | _ => False
  end.

(** Events of a token check: the refresh exchange and the token file. *)
Definition isTokenEvent (ev : Event) : Prop :=
  match ev with
  | ERefreshAccessToken _ | EWriteTokenFile _ => True
  | _ => False
  end.

(** Searches and top-tracks lookups only. *)
Definition isLookup (ev : Event) : Prop :=
  match ev with
  | ESearchTracks _ | ESearchArtists _ | EGetArtistTopTracks _ _ => True
  | _ => False
  end.

(** The answers a lookup still waits for at most, and the requests it
    can still send. *)
Definition stepsLeft (l : Lookup) : nat :=
  match l with
  | AwaitExact _ _ => 3
  | AwaitArtist _ => 2
  | AwaitTop _ => 1
  | Returned _ => 0
  end.

Definition requestsLeft (l : Lookup) : nat :=
  match l with
  | AwaitExact _ _ => 2
  | AwaitArtist _ => 1
  | _ => 0
  end.

Definition sumOver (f : Lookup -> nat) (ls : list Lookup) : nat :=
  list_sum (map f ls).

Definition isTimer (ev : Event) : bool :=
  match ev with
  | ESetTimeout _ => true
  | _ => false
  end.

Definition isCreatePlaylist (ev : Event) : bool :=
  match ev with
  | ECreatePlaylist _ _ => true
  | _ => false
  end.

Section WithWorld.
Context {W : Type}.

(** [emits Q m]: whatever the state, [m] only appends events that
    satisfy [Q] to the trace. *)
Definition emits {A} (Q : Event -> Prop) (m : M W A) : Prop :=
  forall st, exists evs,
    trace (snd (m st)) = trace st ++ evs /\ Forall Q evs.

Variable P : Platform W.

(** [r] is what the operation answers in some state of the world. *)
Definition answers {R} (op : W -> Res R * W) (r : Res R) : Prop :=
  exists w, fst (op w) = r.

(** Where an identifier returned for [song] comes from: it is the first
    track of an answer to the exact search for the song, or a top track of
    the first artist of an answer to the search for the song's artist. *)
Definition foundFor (song : Song) (u : jsstring) : Prop :=
  (exists body found t,
      answers (searchTracks P (exactQuery song)) (Ok body) /\
      tracks body = Some found /\
      nth_error found 0 = Some t /\ uri t = u) \/
  (exists body a rest top t,
      answers (searchArtists P (artist song)) (Ok body) /\
      artists body = Some (a :: rest) /\
      answers (getArtistTopTracks P (artist_id a) (js "US")) (Ok top) /\
      In t (top_tracks top) /\ uri t = u).

(** An entry of the result at the position of [song]: absent, or an
    identifier found for [song]. *)
Definition resolvedFor (song : Song) (entry : option jsstring) : Prop :=
  match entry with
  | Some u => foundFor song u
  | None => True
  end.

(** What the lookup of [song] can be while its batch is resolved. *)
Definition lookupOf (song : Song) (l : Lookup) : Prop :=
  match l with
  | AwaitExact s r =>
      s = song /\ answers (searchTracks P (exactQuery song)) r
  | AwaitArtist r => answers (searchArtists P (artist song)) r
  | AwaitTop r =>
      exists body a rest,
        answers (searchArtists P (artist song)) (Ok body) /\
        artists body = Some (a :: rest) /\
        answers (getArtistTopTracks P (artist_id a) (js "US")) r
  | Returned entry => resolvedFor song entry
  end.

(** The unit of work that creates the sanitized playlist. *)
Definition createSanitized (playlist : Playlist) : M W jsstring :=
  addAwait
    (call (ECreatePlaylist (name (sanitizePlaylistData playlist))
                           (description (sanitizePlaylistData playlist)))
          (createPlaylist P (name (sanitizePlaylistData playlist))
                          (description (sanitizePlaylistData playlist)))).

Definition embedOf (playlist : Playlist) (id : jsstring) : Embed :=
  mkEmbed (name (sanitizePlaylistData playlist))
          (description (sanitizePlaylistData playlist)) id.

End WithWorld.

Section QueueInvariant.
Context {W A : Type}.

(** The invariant of the queue between two steps of the event loop. *)
Definition worker_ok (q : @Queue W A) : Prop :=
  (isProcessing q = false /\ workers q = [] /\ queue q = [] /\
   pace Idle (qlog q) = Some Idle) \/
  (isProcessing q = true /\
   exists r, workers q = [AwaitRequest r] /\
             pace Idle (qlog q) = Some (Running (ticket r))) \/
  (isProcessing q = true /\ workers q = [AwaitDelay] /\
   pace Idle (qlog q) = Some Waiting).

Definition fifo_ok (q : @Queue W A) : Prop :=
  started (qlog q) ++ map ticket (queue q) = seq 0 (nextTicket q) /\
  map fst (promises q) ++ inflight q = started (qlog q).

Definition inv (q : @Queue W A) : Prop := worker_ok q /\ fifo_ok q.

End QueueInvariant.

End Observations.

(* ===================================================================== *)
(** * Concrete runs used as examples *)
(* ===================================================================== *)

Module Scenario.

Definition tooMany (hdrs : list (jsstring * jsstring)) : JsError :=
  WebapiError 429 hdrs (js "Too Many Requests").

(** Units of work over a world that only counts the calls made to it. *)
Definition okUnit (n : nat) : M nat nat :=
  fun st => (Ok n, withWorld st (S (world st))).

Definition failingUnit : M nat nat :=
  fun st => (Throw (PlainError (js "boom")), withWorld st (S (world st))).

(** Always rate limited, without a hint. *)
Definition busyUnit : M nat nat :=
  fun st => (Throw (tooMany []), withWorld st (S (world st))).

(** Rate limited twice, with a hint of 3 seconds, then successful. *)
Definition hintedUnit : M nat nat :=
  fun st =>
    (if (world st <? 2)%nat
     then Throw (tooMany [(js "retry-after", js "3")])
     else Ok 7%nat,
     withWorld st (S (world st))).

(** Rate limited once, with a retry-after of 99999999999999999999
    seconds, then successful. *)
Definition hugeHintUnit : M nat nat :=
  fun st =>
    (if (world st <? 1)%nat
     then Throw (tooMany [(js "retry-after", js "99999999999999999999")])
     else Ok 7%nat,
     withWorld st (S (world st))).

Definition start {W} (w : W) : St W := mkSt w [] None None None None.

(** A small platform.  The world counts the calls made to it.  One song is
    in the catalogue, one artist is known, the language model always
    proposes the same playlist, the saved library has 120 tracks. *)
Definition heyJude : Song := mkSong (js "Hey Jude") (js "The Beatles").
Definition bSide : Song := mkSong (js "B-side") (js "The Beatles").
Definition nothing : Song := mkSong (js "Nothing") (js "Nobody").

Definition library : list SavedTrack :=
  map (fun i => mkSavedTrack (decimal i) [js "artist"] (decimal i))
      (seq 0 120).

Definition longName : jsstring := repeat 97%N 101.

Definition proposed : Playlist :=
  mkPlaylist longName (js "  described  ") [heyJude].

Definition demo : Platform nat :=
  mkPlatform
    (fun q w =>
       (Ok (mkSearchTracksBody
              (Some (if jsstring_eqb q (js "track:Hey Jude artist:The Beatles")
                     then [mkTrack (js "uri:hey-jude")] else []))),
        S w))
    (fun a w =>
       (Ok (mkSearchArtistsBody
              (Some (if jsstring_eqb a (js "The Beatles")
                     then [mkArtist (js "beatles")] else []))),
        S w))
    (fun _ _ w =>
       (Ok (mkTopTracksBody [mkTrack (js "uri:top0"); mkTrack (js "uri:top1")]),
        S w))
    (fun pname _ w =>
       (if jsstring_eqb pname (js "Busy") then Throw (tooMany [])
        else Ok (js "playlist-" ++ decimal w),
        S w))
    (fun _ _ w => (Ok tt, S w))
    (fun lim offset w =>
       (Ok (mkSavedTracksBody 120
              (slice (Z.to_nat offset) (Z.to_nat (offset + lim)) library)),
        S w))
    (fun _ w => (Ok (mkRefreshBody (js "fresh") 3600), S w))
    (fun _ w => (Ok proposed, S w))
    (fun w => (1000000, w))
    (fun _ w => (0%nat, w))
    (fun w => (Ok tt, w))
    (fun _ w => (0%nat, w)).

(** A stored token that expires at [expiry], and the six suggested
    playlists of the bulk scenario: the third one has no song the platform
    knows. *)
Definition stored (expiry : Z) : TokenData :=
  mkTokenData (js "old-access") (js "the-refresh-token") expiry.

Definition suggested : list Playlist :=
  [mkPlaylist (js "One") (js "d1") [heyJude];
   mkPlaylist (js "Two") (js "d2") [bSide; nothing];
   mkPlaylist (js "Three") (js "d3") [nothing; nothing];
   mkPlaylist (js "Four") (js "d4") [heyJude; bSide];
   mkPlaylist (js " Five ") (js "d5") [heyJude];
   mkPlaylist (js "Six") (js "d6") [bSide]].

Definition loggedIn (expiry : Z) : St nat :=
  mkSt 0%nat [] (Some (stored expiry)) (Some (ParsedArray suggested)) None
       None.

End Scenario.

(* ===================================================================== *)
(** * Measures on traces and further example data *)
(* ===================================================================== *)

Module Measures.
Import Index Policy.

(** A unit that is rate limited at every call and gives no retry-after
    hint; each of its calls shows in the trace as the event [ev]. *)
Definition alwaysLimited {W A} (fn : M W A) (ev : Event) : Prop :=
  forall s, exists e s1,
    fn s = (Throw e, s1) /\ tooManyRequests e /\ retryAfterHint e = None /\
    trace s1 = trace s ++ [ev].

(** The wait before retry [k + 1]. *)
Definition doubling (initialDelay : Z) (k : nat) : Event :=
  ESetTimeout (Num (initialDelay * 2 ^ Z.of_nat k)).

(** The call [ev] made [m + 1] times, with the doubled waits between the
    calls. *)
Definition retrySchedule (ev : Event) (initialDelay : Z) (first m : nat)
  : list Event :=
  ev :: flat_map (fun k => [doubling initialDelay k; ev]) (seq first m).

Definition isCall (ev : Event) : bool :=
  match ev with
  | ESetTimeout _ => false
  | _ => true
  end.

(** The delays asked of [setTimeout], added up ([NaN] counts for 0). *)
Fixpoint totalDelay (evs : list Event) : Z :=
  match evs with
  | [] => 0
  | ESetTimeout (Num d) :: rest => d + totalDelay rest
  | _ :: rest => totalDelay rest
  end.

Definition isLookupb (ev : Event) : bool :=
  match ev with
  | ESearchTracks _ | ESearchArtists _ | EGetArtistTopTracks _ _ => true
  | _ => false
  end.

Definition isAddTracks (ev : Event) : bool :=
  match ev with
  | EAddTracksToPlaylist _ _ => true
  | _ => false
  end.

Definition lookupCount (evs : list Event) : nat :=
  length (filter isLookupb evs).

(** A lookup, or the 50 ms pause of the queue's worker. *)
Definition isLookupOrPacing (ev : Event) : Prop :=
  match ev with
  | ESearchTracks _ | ESearchArtists _ | EGetArtistTopTracks _ _ => True
  | ESetTimeout d => d = Num 50
  | _ => False
  end.

(** A population call for [playlistId] with 1 to 100 identifiers, or the
    50 ms pause of the queue's worker. *)
Definition isChunkFor (playlistId : jsstring) (ev : Event) : Prop :=
  match ev with
  | EAddTracksToPlaylist id uris =>
      id = playlistId /\ (1 <= length uris <= 100)%nat
  | ESetTimeout d => d = Num 50
  | _ => False
  end.

(** [Math.floor(Math.random() * m)] is below [m]. *)
Definition randomInRange {W} (P : Platform W) : Prop :=
  forall m w, (0 < m)%nat -> (fst (mathRandomIndex P m w) < m)%nat.

(** The platform accepts every population call. *)
Definition populationSucceeds {W} (P : Platform W) : Prop :=
  forall id uris w, exists w1, addTracksToPlaylist P id uris w = (Ok tt, w1).

(** The identifiers handed to [addTracksToPlaylist], in call order. *)
Definition addedUris (evs : list Event) : list jsstring :=
  flat_map (fun ev => match ev with
                      | EAddTracksToPlaylist _ uris => uris
                      | _ => []
                      end) evs.

(** Events the bulk flow can produce: anything but a call to the language
    model or a page request for the saved tracks. *)
Definition isBulkFlowEvent (ev : Event) : Prop :=
  match ev with
  | EMessagesCreate _ | EGetMySavedTracks _ _ => False
  | _ => True
  end.

(** Neither a playlist creation nor a population call. *)
Definition createsNothing (ev : Event) : Prop :=
  match ev with
  | ECreatePlaylist _ _ | EAddTracksToPlaylist _ _ => False
  | _ => True
  end.

(** What the custom flow may write for the card [embed]: creations under
    the card's name and description, population calls for the card's
    playlist with the whole list [uris]. *)
Definition isCustomFlowWrite (embed : Embed) (uris : list jsstring)
  (ev : Event) : Prop :=
  match ev with
  | ECreatePlaylist n d => n = embed_name embed /\ d = embed_description embed
  | EAddTracksToPlaylist id us => id = embed_playlist_id embed /\ us = uris
  | _ => True
  end.

(** [id] is an answer of the platform to the creation of a playlist under
    the name [n] and the description [d]. *)
Definition createdAs {W} (P : Platform W) (n d id : jsstring) : Prop :=
  exists w w1, createPlaylist P n d w = (Ok id, w1).

(** [id] is an answer of the platform to the creation of [playlist] under
    its sanitized name and description. *)
Definition createdFor {W} (P : Platform W) (playlist : Playlist)
  (id : jsstring) : Prop :=
  createdAs P (name (sanitizePlaylistData playlist))
              (description (sanitizePlaylistData playlist)) id.

(** The cards of the playlists [kept], created under [ids]. *)
Definition cardsOf (kept : list Playlist) (ids : list jsstring)
  : list Embed :=
  map (fun pi => Observations.embedOf (fst pi) (snd pi)) (combine kept ids).

(** The clock stands at [t]. *)
Definition clockAt {W} (P : Platform W) (t : Z) : Prop :=
  forall w, fst (dateNow P w) = t.

(** Every token the platform issues at a refresh lives for 5 minutes at
    least. *)
Definition issuesForFiveMinutes {W} (P : Platform W) : Prop :=
  forall tok w body w1,
    refreshAccessToken P tok w = (Ok body, w1) -> 300 <= expires_in body.

Definition authenticationRequired : Response :=
  mkResponse 401 (BText (js "Authentication required. Please log in again.")).

Definition refreshFailed : JsError :=
  PlainError (js "Failed to refresh token. Please log in again.").


(** The first [k] page requests are answered by [page], every item has an
    artist, and each reported total lies beyond the next offset. *)
Definition answersUpTo {W} (P : Platform W) (k : nat)
  (page : nat -> SavedTracksBody) : Prop :=
  forall j w, (j < k)%nat ->
    exists w1,
      getMySavedTracks P 50 (Observations.offsetOf j) w = (Ok (page j), w1) /\
      Forall Observations.hasArtist (items (page j)) /\
      Observations.offsetOf (S j) < total (page j).

(** Page request [k] fails with [e], or its answer has an item without
    artist, [e] being the [TypeError] of reading [artists[0].name]. *)
Definition failsAt {W} (P : Platform W) (k : nat) (e : JsError) : Prop :=
  forall w, exists w1,
    getMySavedTracks P 50 (Observations.offsetOf k) w = (Throw e, w1) \/
    exists body,
      getMySavedTracks P 50 (Observations.offsetOf k) w = (Ok body, w1) /\
      Exists (fun item => track_artists item = []) (items body) /\
      e = typeError (js "name").

(** Every page request is answered, with a total beyond the next offset. *)
Definition totalKeepsAhead {W} (P : Platform W) : Prop :=
  forall offset w, exists body w1,
    getMySavedTracks P 50 offset w = (Ok body, w1) /\
    Forall Observations.hasArtist (items body) /\
    offset + 50 < total body.


Definition isBlank (s : jsstring) : Prop :=
  Forall (fun c => isWhiteSpace c = true) s.



(** [kept] is [all] with some elements left out, order kept. *)
Inductive Subseq {X : Type} : list X -> list X -> Prop :=
| Subseq_nil : Subseq [] []
| Subseq_skip x kept all : Subseq kept all -> Subseq kept (x :: all)
| Subseq_keep x kept all : Subseq kept all -> Subseq (x :: kept) (x :: all).

(** An ASCII letter. *)
Definition isLetter (c : N) : Prop :=
  (65 <= c <= 90 \/ 97 <= c <= 122)%N.

End Measures.

Module Scenario2.
Import Scenario.

(** Always rate limited, the hint being an HTTP date. *)
Definition datedUnit : M nat nat :=
  fun st =>
    (Throw (tooMany [(js "retry-after", js "Wed, 21 Oct 2015 07:28:00 GMT")]),
     withWorld st (S (world st))).

(** The creation of a playlist the example platform always refuses as
    rate limited, without a hint. *)
Definition limitedUnit : M nat jsstring :=
  call (ECreatePlaylist (js "Busy") [])
       (createPlaylist demo (js "Busy") []).

(** The example platform with another proposal of the language model. *)
Definition demoProposing (proposal : Playlist) : Platform nat :=
  mkPlatform (searchTracks demo) (searchArtists demo)
             (getArtistTopTracks demo) (createPlaylist demo)
             (addTracksToPlaylist demo) (getMySavedTracks demo)
             (refreshAccessToken demo)
             (fun _ w => (Ok proposal, S w))
             (dateNow demo) (mathRandomIndex demo) (writeFile demo)
             (deliverNext demo).

Definition unknownOnly : Playlist :=
  mkPlaylist (js "Ghosts") (js "nobody home") [nothing; nothing].

(** The example platform whose saved-tracks request fails from a given
    offset on. *)
Definition demoFailingFrom (from : Z) : Platform nat :=
  mkPlatform (searchTracks demo) (searchArtists demo)
             (getArtistTopTracks demo) (createPlaylist demo)
             (addTracksToPlaylist demo)
             (fun lim offset w =>
                if offset <? from then getMySavedTracks demo lim offset w
                else (Throw (PlainError (js "socket hang up")), S w))
             (refreshAccessToken demo) (messagesCreate demo)
             (dateNow demo) (mathRandomIndex demo) (writeFile demo)
             (deliverNext demo).

(** The example platform whose reported total is always 100 beyond the
    requested offset. *)
Definition demoGrowing : Platform nat :=
  mkPlatform (searchTracks demo) (searchArtists demo)
             (getArtistTopTracks demo) (createPlaylist demo)
             (addTracksToPlaylist demo)
             (fun lim offset w =>
                (Ok (mkSavedTracksBody (offset + 100) []), S w))
             (refreshAccessToken demo) (messagesCreate demo)
             (dateNow demo) (mathRandomIndex demo) (writeFile demo)
             (deliverNext demo).

(** The example platform refusing every lookup from the fourth call to
    it on, with the answers of two requests that are out delivered in the
    order the requests were sent. *)
Definition demoRefusing : Platform nat :=
  mkPlatform
    (fun q w =>
       if (w <? 3)%nat then searchTracks demo q w
       else (Throw (tooMany []), S w))
    (fun a w =>
       if (w <? 3)%nat then searchArtists demo a w
       else (Throw (tooMany []), S w))
    (fun a m w =>
       if (w <? 3)%nat then getArtistTopTracks demo a m w
       else (Throw (tooMany []), S w))
    (createPlaylist demo) (addTracksToPlaylist demo)
    (getMySavedTracks demo) (refreshAccessToken demo) (messagesCreate demo)
    (dateNow demo) (mathRandomIndex demo) (writeFile demo)
    (fun _ w => (if (w =? 3)%nat then 1%nat else 0%nat, w)).

(** The example platform with a saved track that has no artist on its
    first page. *)
Definition demoNoArtist : Platform nat :=
  mkPlatform (searchTracks demo) (searchArtists demo)
             (getArtistTopTracks demo) (createPlaylist demo)
             (addTracksToPlaylist demo)
             (fun lim offset w =>
                (Ok (mkSavedTracksBody 1
                       [mkSavedTrack (js "untitled") [] (js "t1")]), S w))
             (refreshAccessToken demo) (messagesCreate demo)
             (dateNow demo) (mathRandomIndex demo) (writeFile demo)
             (deliverNext demo).

(** Services for the remaining routes: the grant answers with a token of
    one hour, the language model proposes the six example playlists. *)
Definition services : Routes.Services nat :=
  Routes.mkServices
    (fun code w =>
       (match code with
        | Some _ => Ok (Routes.mkGrantBody (js "granted") (js "refresher") 3600)
        | None => Throw (PlainError (js "invalid_grant"))
        end, S w))
    (fun _ w => (Ok (ParsedArray suggested), S w))
    (fun liked => decimal (length liked)).


End Scenario2.

(* ===================================================================== *)
(** * Facts about the JavaScript operations *)
(* ===================================================================== *)

Module JsFacts.

Example parseInt_30 : parseInt (js "30") = Num 30.
Proof. reflexivity. Qed.

Example parseInt_padded : parseInt (js "  +7s") = Num 7.
Proof. reflexivity. Qed.

Example parseInt_hex : parseInt (js "0x1f") = Num 31.
Proof. reflexivity. Qed.

Example parseInt_date : parseInt (js "Wed, 21 Oct 2015") = NaN.
Proof. reflexivity. Qed.

Example trim_blanks : trim (js "  a b  ") = js "a b".
Proof. reflexivity. Qed.

Example decimal_120 : decimal 120 = js "120".
Proof. reflexivity. Qed.

Lemma digitsOfUint_acc d acc :
  parseDigits 10 (digitsOfUint d) (Some acc) =
  Some (N.of_nat (Nat.of_uint_acc d (N.to_nat acc))).
Proof.
  revert acc.
  induction d; intros acc; simpl;
    try (rewrite IHd; f_equal; f_equal; f_equal;
         rewrite Nat.tail_mul_spec; lia).
  now rewrite N2Nat.id.
Qed.

Lemma parseDigits_uint d :
  d <> Decimal.Nil ->
  parseDigits 10 (digitsOfUint d) None = Some (N.of_nat (Nat.of_uint d)).
Proof.
  intros Hd. unfold Nat.of_uint.
  destruct d; try congruence; simpl; rewrite digitsOfUint_acc; reflexivity.
Qed.

Lemma to_uint_not_nil n : Nat.to_uint n <> Decimal.Nil.
Proof.
  intros H. pose proof (Unsigned.of_to n) as E. rewrite H in E.
  simpl in E. subst n. discriminate H.
Qed.

(** All code units of a decimal rendering are digits. *)
Lemma digitsOfUint_digits d :
  Forall (fun c => (48 <= c <= 57)%N) (digitsOfUint d).
Proof.
  induction d; simpl; constructor; try assumption; lia.
Qed.

(** An integer below 2^53 in size is a double. *)
Lemma toDouble_exact z : Z.abs z < 2 ^ 53 -> toDouble z = Num z.
Proof.
  intros H. unfold toDouble. cbv zeta.
  destruct (Z.ltb_spec (Z.abs z) (2 ^ 53)) as [_ | Hge]; [reflexivity | lia].
Qed.

(** [parseInt] reads back the decimal rendering of a number, rounded to a
    double. *)
Lemma parseInt_decimal n : parseInt (decimal n) = toDouble (Z.of_nat n).
Proof.
  unfold decimal, parseInt.
  pose proof (to_uint_not_nil n) as Hnil.
  pose proof (parseDigits_uint Hnil) as Hp.
  pose proof (digitsOfUint_digits (Nat.to_uint n)) as Hd.
  rewrite Unsigned.of_to in Hp.
  destruct (digitsOfUint (Nat.to_uint n)) as [| c rest] eqn:E.
  - destruct (Nat.to_uint n); simpl in E; congruence.
  - inversion Hd as [| ? ? Hc Hrest]; subst.
    assert (Hws : isWhiteSpace c = false).
    { unfold isWhiteSpace.
      repeat match goal with
             | |- context [(?a =? ?b)%N] =>
                 destruct (N.eqb_spec a b); [lia |]
             end.
      destruct (N.leb_spec 8192 c); [lia | reflexivity]. }
    simpl trimStart. rewrite Hws. cbv zeta.
    assert (H45 : (c =? 45)%N = false) by (apply N.eqb_neq; lia).
    assert (H43 : (c =? 43)%N = false) by (apply N.eqb_neq; lia).
    rewrite H45, H43. simpl orb. cbv iota.
    assert (Hhex :
      match c :: rest with
      | c1 :: c2 :: _ => ((c1 =? 48) && ((c2 =? 120) || (c2 =? 88)))%N
      | _ => false
      end = false).
    { destruct rest as [| c2 rest2]; [reflexivity |].
      inversion Hrest as [| ? ? Hc2 _]; subst.
      assert (H120 : (c2 =? 120)%N = false) by (apply N.eqb_neq; lia).
      assert (H88 : (c2 =? 88)%N = false) by (apply N.eqb_neq; lia).
      rewrite H120, H88. apply andb_false_r. }
    rewrite Hhex, Hp. f_equal. lia.
Qed.

End JsFacts.

(* ===================================================================== *)
(** * The backoff wrapper *)
(* ===================================================================== *)

Module UtilsFacts.
Import Utils Policy.

Section Facts.
Context {W A : Type}.
Variable fn : M W A.
Variable maxRetries : nat.
Variable initialDelay : Z.

Lemma backoff_loop_unfold retries st :
  backoff_loop fn maxRetries initialDelay retries st =
  match fn st with
  | (Ok result, st1) => (Ok result, st1)
  | (Throw error, st1) =>
      if shouldRetry maxRetries error retries then
        match retryDelay initialDelay error retries with
        | Ok delay =>
            backoff_loop fn maxRetries initialDelay (S retries)
              (emit (ESetTimeout delay) st1)
        | Throw e => (Throw e, st1)
        end
      else (Throw error, st1)
  end.
Proof.
  simp backoff_loop.
  destruct (fn st) as [[result | error] st1]; simpl; [reflexivity |].
  destruct (decide (shouldRetry maxRetries error retries)) as [H | H];
    simpl;
    (etransitivity; [ | symmetry; rewrite H; reflexivity ]).
  - destruct (retryDelay initialDelay error retries); reflexivity.
  - reflexivity.
Qed.

Lemma shouldRetry_true error retries :
  shouldRetry maxRetries error retries = true <->
  tooManyRequests error /\ (retries < maxRetries)%nat.
Proof.
  unfold shouldRetry, tooManyRequests.
  rewrite andb_true_iff, Nat.ltb_lt.
  destruct (statusCodeOf error) as [c |].
  - rewrite Z.eqb_eq. split; intros [H1 H2]; split; congruence.
  - split; intros [H1 H2]; discriminate.
Qed.

Lemma retryDelay_hint error retries h :
  tooManyRequests error ->
  retryAfterHint error = Some h ->
  retryDelay initialDelay error retries =
  Ok (jsmul (parseInt h) (Num 1000)).
Proof.
  unfold tooManyRequests, retryAfterHint, retryDelay.
  destruct error as [c headers m | m]; simpl; [| discriminate].
  intros _. destruct (lookup (js "retry-after") headers) as [v |];
    [| discriminate].
  destruct (truthy_string v); [| discriminate].
  intros H. injection H as ->. reflexivity.
Qed.

Lemma retryDelay_no_hint error retries :
  tooManyRequests error ->
  retryAfterHint error = None ->
  retryDelay initialDelay error retries =
  Ok (jsmul (Num initialDelay) (pow2 retries)).
Proof.
  unfold tooManyRequests, retryAfterHint, retryDelay.
  destruct error as [c headers m | m]; simpl; [| discriminate].
  intros _. destruct (lookup (js "retry-after") headers) as [v |];
    [| reflexivity].
  destruct (truthy_string v); [discriminate | reflexivity].
Qed.

End Facts.

(** With the default initial delay the doubled waits are exact. *)
Lemma default_delay retries :
  (retries < 5)%nat ->
  jsmul (Num 1000) (pow2 retries) = Num (1000 * 2 ^ Z.of_nat retries).
Proof.
  intros H. do 5 (destruct retries as [| retries]; [reflexivity |]). lia.
Qed.

(** A doubled wait is exact as long as it stays below 2^53. *)
Lemma doubled_delay d retries :
  1 <= d -> d * 2 ^ Z.of_nat retries < 2 ^ 53 ->
  jsmul (Num d) (pow2 retries) = Num (d * 2 ^ Z.of_nat retries).
Proof.
  intros Hd Hb.
  assert (Hp : 0 < 2 ^ Z.of_nat retries) by (apply Z.pow_pos_nonneg; lia).
  unfold pow2. rewrite JsFacts.toDouble_exact by nia.
  cbn [jsmul]. apply JsFacts.toDouble_exact. nia.
Qed.

Section Default.
Context {W A : Type}.
Variable fn : M W A.

(** The loop with the default arguments follows the policy from any
    number of retries already made. *)
Lemma backoff_loop_retried k :
  forall retries st,
    (retries + k = 5)%nat ->
    exists calls,
      Retried fn retries st calls (backoff_loop fn 5 1000 retries st) /\
      (1 <= calls <= S k)%nat.
Proof.
  induction k as [| k IH]; intros retries st Hk;
    rewrite backoff_loop_unfold;
    destruct (fn st) as [[result | error] st1] eqn:Hfn.
  - exists 1%nat. split; [now apply R_success | lia].
  - destruct (shouldRetry 5 error retries) eqn:Hs.
    + apply shouldRetry_true in Hs. destruct Hs as [_ Hlt]. lia.
    + exists 1%nat. split; [| lia].
      destruct (Z.eq_dec (match statusCodeOf error with
                          | Some c => c | None => 0 end) 429) as [E | E].
      * assert (Ht : tooManyRequests error).
        { unfold tooManyRequests.
          destruct (statusCodeOf error); [congruence | discriminate]. }
        assert (retries = 5)%nat.
        { destruct (Nat.lt_ge_cases retries 5) as [Hlt | Hge].
          - assert (shouldRetry 5 error retries = true)
              by (apply shouldRetry_true; auto).
            congruence.
          - lia. }
        subst retries. now apply R_exhausted.
      * apply R_propagate; [assumption |].
        unfold tooManyRequests. intros Ht. rewrite Ht in E. congruence.
  - exists 1%nat. split; [now apply R_success | lia].
  - destruct (shouldRetry 5 error retries) eqn:Hs.
    + apply shouldRetry_true in Hs. destruct Hs as [Ht Hlt].
      destruct (retryAfterHint error) as [h |] eqn:Hh.
      * rewrite (retryDelay_hint 1000 retries Ht Hh).
        destruct (IH (S retries)
                    (emit (ESetTimeout (jsmul (parseInt h) (Num 1000))) st1))
          as [calls [Hr Hc]]; [lia |].
        exists (S calls). split; [| lia].
        eapply R_retry_hint; eauto.
      * rewrite (retryDelay_no_hint 1000 retries Ht Hh),
          (default_delay Hlt).
        destruct (IH (S retries)
                    (emit (ESetTimeout (Num (1000 * 2 ^ Z.of_nat retries)))
                          st1))
          as [calls [Hr Hc]]; [lia |].
        exists (S calls). split; [| lia].
        eapply R_retry_backoff; eauto.
    + exists 1%nat. split; [| lia].
      apply R_propagate; [assumption |].
      intros Ht.
      assert (shouldRetry 5 error retries = true)
        by (apply shouldRetry_true; split; [assumption | lia]).
      congruence.
Qed.

End Default.

(** C1, as the code has it.  Every unit of work run through the backoff
    wrapper follows the retry policy: a failure with status 429 is retried,
    at most 5 times (so the unit is called at most 6 times), after a wait of
    the retry-after value times 1000 ms when the failure has that hint and
    of 1000 ms doubled for each retry already made otherwise; a failure
    without status 429 is handed on at once, with no wait and no second
    call; after the fifth retry the failure of the last call is re-thrown
    as it is.  A retry-after value that is the decimal rendering of N gives
    a wait of exactly N * 1000 ms as long as that is a delay the timer
    honours (at most 2^31 - 1 ms). *)
Theorem C1_backoff_policy :
  forall (W A : Type) (fn : M W A) (st : St W),
    (exists calls,
        Retried fn 0 st calls (exponentialBackoff fn 5 1000 st) /\
        (1 <= calls <= 6)%nat) /\
    (forall e st1,
        fn st = (Throw e, st1) ->
        ~ tooManyRequests e ->
        exponentialBackoff fn 5 1000 st = (Throw e, st1)) /\
    (forall r st1,
        fn st = (Ok r, st1) ->
        exponentialBackoff fn 5 1000 st = (Ok r, st1)) /\
    (forall N : nat,
        Z.of_nat N * 1000 <= 2147483647 ->
        jsmul (parseInt (decimal N)) (Num 1000) = Num (Z.of_nat N * 1000)).
Proof.
  intros W A fn st. split; [| split; [| split]].
  - unfold exponentialBackoff.
    destruct (@backoff_loop_retried W A fn 5 0%nat st eq_refl)
      as [calls [Hr Hc]].
    exists calls. split; [exact Hr | lia].
  - intros e st1 Hfn Hno. unfold exponentialBackoff.
    rewrite backoff_loop_unfold, Hfn.
    destruct (shouldRetry 5 e 0) eqn:Hs; [| reflexivity].
    apply shouldRetry_true in Hs. destruct Hs as [Ht _]. contradiction.
  - intros r st1 Hfn. unfold exponentialBackoff.
    rewrite backoff_loop_unfold, Hfn. reflexivity.
  - intros N HN. rewrite JsFacts.parseInt_decimal.
    rewrite JsFacts.toDouble_exact by lia.
    cbn [jsmul]. apply JsFacts.toDouble_exact. lia.
Qed.

(** C1 as the specification words it fails for large hints: the product
    is a double.  For the retry-after value 99999999999999999999 the wrapper
    asks the timer for 99999999999999991611392 ms, which is less than that
    many seconds. *)
Lemma C1_counterexample :
  exponentialBackoff Scenario.hugeHintUnit 5 1000 (Scenario.start 0%nat) =
    (Ok 7%nat,
     mkSt 2%nat [ESetTimeout (Num 99999999999999991611392)]
          None None None None) /\
  99999999999999991611392 < 99999999999999999999 * 1000.
Proof. split; [vm_compute; reflexivity | reflexivity]. Qed.

(** A unit that is always rate limited, without a hint: six calls, five
    waits of 1000, 2000, 4000, 8000 and 16000 ms, and the failure of the
    last call comes out as it was thrown. *)
Example always_rate_limited :
  exponentialBackoff Scenario.busyUnit 5 1000 (Scenario.start 0%nat) =
  (Throw (Scenario.tooMany []),
   mkSt 6%nat
        [ESetTimeout (Num 1000); ESetTimeout (Num 2000);
         ESetTimeout (Num 4000); ESetTimeout (Num 8000);
         ESetTimeout (Num 16000)]
        None None None None).
Proof. reflexivity. Qed.

(** Rate limited twice with a retry-after of 3 seconds, then successful:
    two waits of 3000 ms, three calls. *)
Example hinted_then_ok :
  exponentialBackoff Scenario.hintedUnit 5 1000 (Scenario.start 0%nat) =
  (Ok 7%nat,
   mkSt 3%nat [ESetTimeout (Num 3000); ESetTimeout (Num 3000)]
        None None None None).
Proof. reflexivity. Qed.

(** A failure without the signal: one call, no wait. *)
Example other_failure_immediate :
  exponentialBackoff Scenario.failingUnit 5 1000 (Scenario.start 0%nat) =
  (Throw (PlainError (js "boom")), mkSt 1%nat [] None None None None).
Proof. reflexivity. Qed.

End UtilsFacts.

(* ===================================================================== *)
(** * The request queue *)
(* ===================================================================== *)

Module QueueFacts.
Import RequestQueue Observations.

(** Projections of a queue state written out as a record. *)
Tactic Notation "qfields" :=
  cbn [queue isProcessing workers promises nextTicket qlog env].
Tactic Notation "qfields" "in" hyp(H1) "," hyp(H2) :=
  cbn [queue isProcessing workers promises nextTicket qlog env] in H1, H2.
Tactic Notation "qfields" "in" "*" :=
  cbn [queue isProcessing workers promises nextTicket qlog env] in *.

Section Facts.
Context {W A : Type}.

Lemma pace_app (p : Phase) (l1 l2 : list (@QEvent A)) :
  pace p (l1 ++ l2) =
  match pace p l1 with
  | Some p1 => pace p1 l2
  | None => None
  end.
Proof.
  revert p. induction l1 as [| ev l1 IH]; intros p; simpl; [reflexivity |].
  destruct (phase_step p ev); [apply IH | reflexivity].
Qed.

Lemma started_app (l1 l2 : list (@QEvent A)) :
  started (l1 ++ l2) = started l1 ++ started l2.
Proof. unfold started. apply flat_map_app. Qed.

(** What the log looks like at its end, phase by phase. *)
Lemma pace_suffix (log : list (@QEvent A)) :
  forall p, pace Idle log = Some p ->
  match p with
  | Idle =>
      log = [] \/
      exists l0 t o,
        log = l0 ++ [Started t; Settled t o; TimerSet 50; TimerFired] /\
        pace Idle l0 = Some Idle
  | Running t =>
      exists l0, log = l0 ++ [Started t] /\ pace Idle l0 = Some Idle
  | Done =>
      exists l0 t o,
        log = l0 ++ [Started t; Settled t o] /\ pace Idle l0 = Some Idle
  | Waiting =>
      exists l0 t o,
        log = l0 ++ [Started t; Settled t o; TimerSet 50] /\
        pace Idle l0 = Some Idle
  end.
Proof.
  induction log as [| ev log IH] using rev_ind; intros p Hp.
  - simpl in Hp. injection Hp as <-. now left.
  - rewrite pace_app in Hp.
    destruct (pace Idle log) as [p0 |] eqn:Hp0; [| discriminate].
    specialize (IH p0 eq_refl). simpl in Hp.
    destruct (phase_step p0 ev) as [p1 |] eqn:Hs; [| discriminate].
    injection Hp as <-.
    destruct p0, ev; simpl in Hs; try discriminate.
    + injection Hs as <-. exists log. split; [reflexivity | assumption].
    + destruct (Nat.eqb_spec t t0); [| discriminate]. subst t0.
      injection Hs as <-.
      destruct IH as [l0 [-> Hl0]].
      exists l0, t, outcome. split; [| assumption].
      rewrite <- app_assoc. reflexivity.
    + destruct (Z.eqb_spec ms 50); [| discriminate]. subst ms.
      injection Hs as <-.
      destruct IH as [l0 [t [o [-> Hl0]]]].
      exists l0, t, o. split; [| assumption].
      rewrite <- app_assoc. reflexivity.
    + injection Hs as <-. right.
      destruct IH as [l0 [t [o [-> Hl0]]]].
      exists l0, t, o. split; [| assumption].
      rewrite <- app_assoc. reflexivity.
Qed.

(** In a paced log a unit starts either first of all or right after the
    50 ms timer that followed the previous unit's settlement has fired. *)
Lemma pace_start_after_delay (log l1 l2 : list (@QEvent A)) t p :
  pace Idle log = Some p ->
  log = l1 ++ Started t :: l2 ->
  l1 = [] \/
  exists l0 t0 o, l1 = l0 ++ [Settled t0 o; TimerSet 50; TimerFired].
Proof.
  intros Hp ->. rewrite pace_app in Hp.
  destruct (pace Idle l1) as [p1 |] eqn:Hp1; [| discriminate].
  simpl in Hp.
  destruct p1; simpl in Hp; try discriminate.
  destruct (pace_suffix l1 Hp1) as [-> | [l0 [t0 [o [-> _]]]]];
    [now left | right].
  exists (l0 ++ [Started t0]), t0, o.
  rewrite <- app_assoc. reflexivity.
Qed.

Lemma inv_empty (st : St W) : inv (@empty W A st).
Proof.
  split; [left; repeat split | split; reflexivity].
Qed.

Lemma seq_snoc n : seq 0 (S n) = seq 0 n ++ [n].
Proof. rewrite seq_S. reflexivity. Qed.

Lemma inv_add (fn : M W A) q : inv q -> inv (add fn q).
Proof.
  destruct q as [qu ip ws pr nt lg en].
  unfold inv, worker_ok, fifo_ok, inflight, add, process, worker_loop.
  qfields.
  intros [Hw [Hf1 Hf2]].
  destruct Hw as [[Hp [Hws [Hq Hl]]] | [[Hp [r [Hws Hl]]] | [Hp [Hws Hl]]]];
    subst;
    cbn [queue isProcessing workers promises nextTicket qlog env app
         flat_map map ticket] in *;
    rewrite ?List.app_nil_r in Hf1; rewrite ?List.app_nil_r in Hf2; rewrite seq_snoc.
  - split.
    + right; left. split; [reflexivity |].
      eexists. split; [reflexivity |].
      rewrite pace_app, Hl. reflexivity.
    + rewrite started_app, List.app_nil_r. cbn. rewrite Hf2, Hf1.
      split; reflexivity.
  - split.
    + right; left. split; [reflexivity |]. exists r. now split.
    + rewrite map_app, app_assoc, Hf1. cbn. split; [reflexivity | assumption].
  - split.
    + right; right. now repeat split.
    + rewrite map_app, app_assoc, Hf1, List.app_nil_r. cbn.
      split; [reflexivity | assumption].
Qed.

Lemma inv_settle i (q q1 : @Queue W A) :
  inv q -> settle i q = Some q1 -> inv q1.
Proof.
  destruct q as [qu ip ws pr nt lg en].
  unfold inv, worker_ok, fifo_ok, inflight, settle. simpl.
  intros [Hw [Hf1 Hf2]] Hs.
  destruct Hw as [[Hp [Hws [Hq Hl]]] | [[Hp [r [Hws Hl]]] | [Hp [Hws Hl]]]];
    subst; simpl in *.
  - destruct i; discriminate.
  - destruct i as [| i]; simpl in Hs; [| destruct i; discriminate].
    destruct (Utils.exponentialBackoff (unit_fn r) 5 1000 en)
      as [outcome st1].
    injection Hs as <-. simpl. split.
    + right; right. split; [reflexivity |]. split; [reflexivity |].
      rewrite pace_app, Hl. simpl. rewrite Nat.eqb_refl. reflexivity.
    + rewrite started_app; simpl. rewrite !List.app_nil_r.
      split; [assumption |].
      rewrite map_app; simpl. assumption.
  - destruct i as [| i]; simpl in Hs; [| destruct i]; discriminate.
Qed.

Lemma inv_timer i (q q1 : @Queue W A) :
  inv q -> timer i q = Some q1 -> inv q1.
Proof.
  destruct q as [qu ip ws pr nt lg en].
  unfold inv, worker_ok, fifo_ok, inflight, timer, worker_loop. simpl.
  intros [Hw [Hf1 Hf2]] Hs.
  destruct Hw as [[Hp [Hws [Hq Hl]]] | [[Hp [r [Hws Hl]]] | [Hp [Hws Hl]]]];
    subst; simpl in *.
  - destruct i; discriminate.
  - destruct i as [| i]; simpl in Hs; [| destruct i]; discriminate.
  - destruct i as [| i]; simpl in Hs; [| destruct i; discriminate].
    rewrite List.app_nil_r in Hf2.
    destruct qu as [| request rest]; injection Hs as <-; simpl.
    + split.
      * left. repeat split. rewrite pace_app, Hl. reflexivity.
      * rewrite started_app; simpl. rewrite !List.app_nil_r in *.
        split; assumption.
    + split.
      * right; left. split; [reflexivity |]. exists request.
        split; [reflexivity |].
        rewrite !pace_app, Hl. reflexivity.
      * rewrite !started_app; simpl. rewrite !List.app_nil_r in *.
        simpl in Hf1. rewrite <- app_assoc. simpl.
        split; [assumption |]. rewrite Hf2. reflexivity.
Qed.

Lemma inv_step s (q q1 : @Queue W A) :
  inv q -> step s q = Some q1 -> inv q1.
Proof.
  destruct s as [fn | i | i]; simpl; intros Hi Hs.
  - injection Hs as <-. now apply inv_add.
  - eapply inv_settle; eauto.
  - eapply inv_timer; eauto.
Qed.

Lemma inv_run steps :
  forall q q1 : @Queue W A, inv q -> run steps q = Some q1 -> inv q1.
Proof.
  induction steps as [| s steps IH]; simpl; intros q q1 Hi Hr.
  - injection Hr as <-. assumption.
  - destruct (step s q) as [q2 |] eqn:Hs; [| discriminate].
    eapply IH; [| exact Hr]. eapply inv_step; eauto.
Qed.

Lemma inv_single (q : @Queue W A) :
  inv q -> (length (workers q) <= 1)%nat /\ (length (inflight q) <= 1)%nat.
Proof.
  intros [Hw _]. unfold inflight.
  destruct Hw as [[Hp [Hws [Hq Hl]]] | [[Hp [r [Hws Hl]]] | [Hp [Hws Hl]]]];
    rewrite Hws; simpl; lia.
Qed.

(** [add] while the worker is draining only extends the queue. *)
Lemma add_busy fn (q : @Queue W A) :
  isProcessing q = true ->
  workers (add fn q) = workers q /\
  inflight (add fn q) = inflight q /\
  queue (add fn q) = queue q ++ [mkRequest (nextTicket q) fn] /\
  qlog (add fn q) = qlog q.
Proof.
  intros Hp. unfold add, process, inflight; simpl. rewrite Hp. simpl.
  repeat split.
Qed.

(** A settlement, whatever its outcome, leaves the activation alive at its
    50 ms timer and touches the promise of that unit only. *)
Lemma settle_any_outcome (q : @Queue W A) request :
  workers q = [AwaitRequest request] ->
  exists q1,
    settle 0 q = Some q1 /\
    workers q1 = [AwaitDelay] /\
    isProcessing q1 = isProcessing q /\
    queue q1 = queue q /\
    promises q1 =
      promises q ++
      [(ticket request,
        fst (Utils.exponentialBackoff (unit_fn request) 5 1000 (env q)))].
Proof.
  intros Hws. unfold settle. rewrite Hws. simpl.
  destruct (Utils.exponentialBackoff (unit_fn request) 5 1000 (env q))
    as [outcome st1].
  eexists. split; [reflexivity |]. simpl. repeat split.
Qed.

Lemma settle_running (q : @Queue W A) request :
  workers q = [AwaitRequest request] ->
  settle 0 q =
  Some (mkQueue (queue q) (isProcessing q) [AwaitDelay]
          (promises q ++
           [(ticket request,
             fst (Utils.exponentialBackoff (unit_fn request) 5 1000 (env q)))])
          (nextTicket q)
          (qlog q ++
           [Settled (ticket request)
              (fst (Utils.exponentialBackoff (unit_fn request) 5 1000
                      (env q)));
            TimerSet 50])
          (emit (ESetTimeout (Num 50))
             (snd (Utils.exponentialBackoff (unit_fn request) 5 1000
                     (env q))))).
Proof.
  intros Hws. unfold settle. rewrite Hws. simpl.
  destruct (Utils.exponentialBackoff (unit_fn request) 5 1000 (env q));
    reflexivity.
Qed.

Lemma timer_waiting (q : @Queue W A) :
  workers q = [AwaitDelay] ->
  timer 0 q =
  Some (worker_loop
          (mkQueue (queue q) (isProcessing q) [] (promises q) (nextTicket q)
                   (qlog q ++ [TimerFired]) (env q))).
Proof.
  intros Hws. unfold timer. rewrite Hws. reflexivity.
Qed.

Lemma run_drain_S n (q : @Queue W A) :
  run (drain (S n)) q =
  match settle 0 q with
  | Some q1 =>
      match timer 0 q1 with
      | Some q2 => run (drain n) q2
      | None => None
      end
  | None => None
  end.
Proof. reflexivity. Qed.

(** Letting the activation run: every queued unit is started, in the order
    of the queue, and every promise is settled, whatever the outcomes. *)
Lemma drain_all n :
  forall (q : @Queue W A) request,
    workers q = [AwaitRequest request] ->
    length (queue q) = n ->
    exists q1,
      run (drain (S n)) q = Some q1 /\
      isProcessing q1 = false /\
      workers q1 = [] /\
      queue q1 = [] /\
      started (qlog q1) = started (qlog q) ++ map ticket (queue q) /\
      map fst (promises q1) =
        map fst (promises q) ++ ticket request :: map ticket (queue q).
Proof.
  induction n as [| n IH]; intros q request Hws Hlen;
    rewrite run_drain_S, (settle_running q Hws), timer_waiting
      by reflexivity;
    unfold worker_loop;
    qfields;
    destruct (queue q) as [| x rest]; try discriminate.
  - eexists. split; [reflexivity |].
    cbn [queue isProcessing workers promises nextTicket qlog env map].
    rewrite !started_app, map_app. cbn. rewrite !List.app_nil_r.
    repeat split.
  - simpl in Hlen. injection Hlen as Hlen.
    match goal with
    | |- exists q1, run _ ?q2 = _ /\ _ =>
        destruct (IH q2 x eq_refl Hlen) as [q1 [Hr [H1 [H2 [H3 [H4 H5]]]]]]
    end.
    exists q1. split; [exact Hr |].
    qfields in H4, H5.
    repeat split; try assumption.
    + rewrite H4, !started_app. cbn. rewrite !List.app_nil_r.
      rewrite <- !app_assoc. reflexivity.
    + rewrite H5, map_app. cbn. rewrite <- app_assoc. reflexivity.
Qed.

Lemma addAwait_fst (fn : M W A) st :
  fst (addAwait fn st) = fst (Utils.exponentialBackoff fn 5 1000 st).
Proof.
  unfold addAwait. destruct (Utils.exponentialBackoff fn 5 1000 st).
  reflexivity.
Qed.

Lemma addAwait_snd (fn : M W A) st :
  snd (addAwait fn st) =
  emit (ESetTimeout (Num 50)) (snd (Utils.exponentialBackoff fn 5 1000 st)).
Proof.
  unfold addAwait. destruct (Utils.exponentialBackoff fn 5 1000 st).
  reflexivity.
Qed.

Lemma awaitAll_cons (fn : M W A) rest st :
  awaitAll (fn :: rest) st =
  (fst (addAwait fn st) :: fst (awaitAll rest (snd (addAwait fn st))),
   snd (awaitAll rest (snd (addAwait fn st)))).
Proof.
  cbn [awaitAll]. destruct (addAwait fn st) as [o st1]. cbn [fst snd].
  destruct (awaitAll rest st1). reflexivity.
Qed.

(** The same run, with what each caller receives and what the world has
    seen: the units ran one after the other in queue order. *)
Lemma drain_outcomes n :
  forall (q : @Queue W A) request,
    workers q = [AwaitRequest request] ->
    length (queue q) = n ->
    exists q1,
      run (drain (S n)) q = Some q1 /\
      promises q1 =
        promises q ++
        combine (ticket request :: map ticket (queue q))
                (fst (awaitAll (unit_fn request :: map unit_fn (queue q))
                               (env q))) /\
      env q1 =
        snd (awaitAll (unit_fn request :: map unit_fn (queue q)) (env q)).
Proof.
  induction n as [| n IH]; intros q request Hws Hlen;
    rewrite run_drain_S, (settle_running q Hws), timer_waiting
      by reflexivity;
    unfold worker_loop;
    qfields;
    destruct (queue q) as [| x rest]; try discriminate;
    rewrite awaitAll_cons, addAwait_fst, addAwait_snd; cbn [fst snd].
  - eexists. split; [reflexivity |]. cbn. split; reflexivity.
  - simpl in Hlen. injection Hlen as Hlen.
    match goal with
    | |- exists q1, run _ ?q2 = _ /\ _ =>
        destruct (IH q2 x eq_refl Hlen) as [q1 [Hr [H1 H2]]]
    end.
    exists q1. split; [exact Hr |].
    qfields in H1, H2.
    rewrite H1, H2. cbn [map combine]. rewrite <- app_assoc.
    split; reflexivity.
Qed.

Lemma run_app (s1 s2 : list (@Step W A)) q :
  run (s1 ++ s2) q =
  match run s1 q with
  | Some q1 => run s2 q1
  | None => None
  end.
Proof.
  revert q. induction s1 as [| s s1 IH]; intros q; simpl; [reflexivity |].
  destruct (step s q); [apply IH | reflexivity].
Qed.

(** Adding to a busy queue, several times. *)
Lemma adds_busy (fns : list (M W A)) :
  forall q : @Queue W A,
    isProcessing q = true ->
    run (map DoAdd fns) q =
    Some (mkQueue
            (queue q ++
             map (fun p => mkRequest (fst p) (snd p))
                 (combine (seq (nextTicket q) (length fns)) fns))
            true (workers q) (promises q) (nextTicket q + length fns)
            (qlog q) (env q)).
Proof.
  induction fns as [| fn fns IH]; intros q Hp.
  - simpl. rewrite List.app_nil_r, Nat.add_0_r, <- Hp.
    destruct q; reflexivity.
  - cbn [map run step]. rewrite IH.
    + unfold add, process. cbn [isProcessing]. rewrite Hp.
      cbn [queue isProcessing workers promises nextTicket qlog env length
           combine seq map fst snd].
      rewrite <- app_assoc, Nat.add_succ_r. reflexivity.
    + unfold add, process. cbn [isProcessing]. rewrite Hp. reflexivity.
Qed.

Lemma requests_tickets (fns : list (M W A)) a :
  map ticket
      (map (fun p => mkRequest (fst p) (snd p))
           (combine (seq a (length fns)) fns)) = seq a (length fns) /\
  map unit_fn
      (map (fun p => mkRequest (fst p) (snd p))
           (combine (seq a (length fns)) fns)) = fns.
Proof.
  revert a. induction fns as [| fn fns IH]; intros a; [now split |].
  cbn. destruct (IH (S a)) as [H1 H2]. rewrite H1, H2. now split.
Qed.

(** Units added together on an idle queue and then left to the worker
    run one after the other in the order they were added: each caller
    receives the outcome its unit has when awaited in that order. *)
Lemma adds_then_drain (fn : M W A) fns st :
  exists q,
    run (map DoAdd (fn :: fns) ++ drain (S (length fns))) (empty st)
      = Some q /\
    promises q =
      combine (seq 0 (S (length fns))) (fst (awaitAll (fn :: fns) st)) /\
    env q = snd (awaitAll (fn :: fns) st) /\
    isProcessing q = false /\
    queue q = [].
Proof.
  rewrite run_app. cbn [map run step].
  unfold add at 1, process, worker_loop.
  cbn [queue isProcessing workers promises nextTicket qlog env empty app].
  rewrite adds_busy by reflexivity.
  cbn [queue isProcessing workers promises nextTicket qlog env app].
  destruct (requests_tickets fns 1) as [Ht Hu].
  match goal with
  | |- exists q, run _ ?q0 = _ /\ _ =>
      destruct (@drain_all (length fns) q0 (mkRequest 0 fn) eq_refl)
        as [q [Hr [H1 [H2 [H3 _]]]]];
      [ cbn [queue]; now rewrite length_map, length_combine, length_seq,
                                 Nat.min_id
      | destruct (@drain_outcomes (length fns) q0 (mkRequest 0 fn) eq_refl)
          as [q' [Hr' [H4 H5]]];
        [ cbn [queue]; now rewrite length_map, length_combine, length_seq,
                                   Nat.min_id | ] ]
  end.
  rewrite Hr in Hr'. injection Hr' as <-.
  exists q. split; [exact Hr |].
  cbn [queue isProcessing workers promises nextTicket qlog env ticket
       unit_fn app] in H4, H5.
  rewrite Ht, Hu in H4. rewrite Hu in H5.
  repeat split; assumption.
Qed.

End Facts.
End QueueFacts.

Module QueueClaims.
Import RequestQueue Observations QueueFacts.

(** C2.  In every state the queue can reach, at most one activation of the
    worker exists and at most one queued unit is executing; [add] on a
    queue that is being drained starts nothing and only appends to the
    queue; units are started in the order they were added; and a unit is
    started either first of all or directly after the 50 ms timer set at
    the settlement of the previous unit has fired. *)
Theorem C2_single_worker_fifo_paced :
  forall (W A : Type) (st0 : St W) (steps : list (@Step W A)) q,
    run steps (empty st0) = Some q ->
    ((length (workers q) <= 1)%nat /\ (length (inflight q) <= 1)%nat) /\
    (isProcessing q = false -> workers q = []) /\
    (forall fn,
        isProcessing q = true ->
        workers (add fn q) = workers q /\
        inflight (add fn q) = inflight q /\
        queue (add fn q) = queue q ++ [mkRequest (nextTicket q) fn] /\
        qlog (add fn q) = qlog q) /\
    started (qlog q) ++ map ticket (queue q) = seq 0 (nextTicket q) /\
    (forall l1 t l2,
        qlog q = l1 ++ Started t :: l2 ->
        l1 = [] \/
        exists l0 t0 o, l1 = l0 ++ [Settled t0 o; TimerSet 50; TimerFired]).
Proof.
  intros W A st0 steps q Hrun.
  assert (Hinv : inv q) by (eapply inv_run; [apply inv_empty | exact Hrun]).
  split; [now apply inv_single |].
  split.
  { destruct Hinv as [Hw _]. intros Hp.
    destruct Hw as [[_ [Hws _]] | [[Hp' _] | [Hp' _]]];
      [assumption | congruence | congruence]. }
  split; [intros fn Hp; now apply add_busy |].
  split; [apply Hinv |].
  intros l1 t l2 Hlog.
  destruct Hinv as [Hw _].
  assert (Hp : exists p, pace Idle (qlog q) = Some p).
  { destruct Hw as [[_ [_ [_ Hl]]] | [[_ [r [_ Hl]]] | [_ [_ Hl]]]];
      eexists; exact Hl. }
  destruct Hp as [p Hp].
  eapply pace_start_after_delay; eauto.
Qed.

Lemma C2_witness :
  exists q,
    run [DoAdd (Scenario.okUnit 1); DoAdd Scenario.failingUnit;
         DoAdd (Scenario.okUnit 3); DoSettle 0; DoTimer 0]
        (empty (Scenario.start 0%nat)) = Some q /\
    inflight q = [1%nat] /\
    started (qlog q) ++ map ticket (queue q) = seq 0 (nextTicket q).
Proof.
  eexists. split; [reflexivity |]. split; [reflexivity |].
  apply (@C2_single_worker_fifo_paced nat nat (Scenario.start 0%nat)
           [DoAdd (Scenario.okUnit 1); DoAdd Scenario.failingUnit;
            DoAdd (Scenario.okUnit 3); DoSettle 0; DoTimer 0]).
  reflexivity.
Defined.

(** C10.  When the unit an activation awaits fails, the failure rejects
    the promise of that unit's caller and nothing else: the activation
    stays alive at its 50 ms timer, the queue is untouched, and once the
    timer fires the worker starts every unit queued behind the failing
    one, in queue order, and settles each caller's promise with that
    unit's own outcome. *)
Theorem C10_failure_does_not_stop_worker :
  forall (W A : Type) (st0 : St W) (steps : list (@Step W A)) q
         request e st1,
    run steps (empty st0) = Some q ->
    In (AwaitRequest request) (workers q) ->
    Utils.exponentialBackoff (unit_fn request) 5 1000 (env q)
      = (Throw e, st1) ->
    exists q1 q2,
      settle 0 q = Some q1 /\
      promises q1 = promises q ++ [(ticket request, Throw e)] /\
      workers q1 = [AwaitDelay] /\
      isProcessing q1 = true /\
      queue q1 = queue q /\
      run (DoTimer 0 :: drain (length (queue q))) q1 = Some q2 /\
      started (qlog q2) = started (qlog q) ++ map ticket (queue q) /\
      promises q2 =
        promises q1 ++
        combine (map ticket (queue q))
                (fst (awaitAll (map unit_fn (queue q)) (env q1))) /\
      queue q2 = [] /\
      isProcessing q2 = false.
Proof.
  intros W A st0 steps q request e st1 Hrun Hin Hfail.
  assert (Hinv : inv q) by (eapply inv_run; [apply inv_empty | exact Hrun]).
  destruct Hinv as [Hw _].
  assert (Hws : workers q = [AwaitRequest request] /\ isProcessing q = true).
  { destruct Hw as [[_ [Hws _]] | [[Hp [r [Hws _]]] | [_ [Hws _]]]];
      rewrite Hws in Hin; simpl in Hin.
    - contradiction.
    - destruct Hin as [Hin | []]. injection Hin as ->. now split.
    - destruct Hin as [Hin | []]. discriminate. }
  destruct Hws as [Hws Hp].
  pose proof (settle_running q Hws) as Hs. rewrite Hfail in Hs.
  cbn [fst snd] in Hs.
  eexists. 
  assert (Hcont :
    forall q1 : @Queue W A,
      workers q1 = [AwaitDelay] ->
      exists q2,
        run (DoTimer 0 :: drain (length (queue q1))) q1 = Some q2 /\
        started (qlog q2) = started (qlog q1) ++ map ticket (queue q1) /\
        promises q2 =
          promises q1 ++
          combine (map ticket (queue q1))
                  (fst (awaitAll (map unit_fn (queue q1)) (env q1))) /\
        queue q2 = [] /\ isProcessing q2 = false).
  { intros q1 Hq1. cbn [run step]. rewrite (timer_waiting q1 Hq1).
    unfold worker_loop.
    qfields.
    destruct (queue q1) as [| x rest] eqn:Hq.
    - eexists. split; [reflexivity |].
      cbn [queue isProcessing workers promises nextTicket qlog env map
           combine].
      rewrite started_app, !List.app_nil_r. cbn.
      rewrite ?List.app_nil_r. repeat split.
    - cbn [length].
      match goal with
      | |- exists q2, run _ ?q3 = _ /\ _ =>
          destruct (@drain_all W A (length rest) q3 x eq_refl eq_refl)
            as [q2 [Hr [H1 [H2 [H3 [H4 H5]]]]]];
          destruct (@drain_outcomes W A (length rest) q3 x eq_refl eq_refl)
            as [q2' [Hr' [H6 H7]]]
      end.
      rewrite Hr in Hr'. injection Hr' as <-.
      exists q2. split; [exact Hr |].
      qfields in H4, H6.
      split.
      { rewrite H4, !started_app. cbn. rewrite List.app_nil_r.
        rewrite <- app_assoc. reflexivity. }
      split; [exact H6 |]. split; assumption. }
  match type of Hs with
  | settle 0 q = Some ?q1 =>
      destruct (Hcont q1 eq_refl) as [q2 [Hr [H1 [H2 [H3 H4]]]]];
      exists q2
  end.
  qfields in *.
  split; [exact Hs |].
  split; [reflexivity |]. split; [reflexivity |]. split; [exact Hp |].
  split; [reflexivity |]. split; [exact Hr |].
  split.
  { rewrite H1, started_app. cbn. rewrite List.app_nil_r. reflexivity. }
  split; [exact H2 |]. split; assumption.
Qed.

Lemma C10_witness :
  exists q1 q2,
    settle 0 (add (Scenario.okUnit 3)
                (add (Scenario.okUnit 2)
                   (add Scenario.failingUnit
                      (empty (Scenario.start 0%nat))))) = Some q1 /\
    promises q1 = [(0%nat, Throw (PlainError (js "boom")))] /\
    run (DoTimer 0 :: drain 2) q1 = Some q2 /\
    started (qlog q2) = [0; 1; 2]%nat /\
    promises q2 =
      [(0%nat, Throw (PlainError (js "boom"))); (1%nat, Ok 2%nat);
       (2%nat, Ok 3%nat)].
Proof.
  destruct (@C10_failure_does_not_stop_worker nat nat (Scenario.start 0%nat)
              [DoAdd Scenario.failingUnit; DoAdd (Scenario.okUnit 2);
               DoAdd (Scenario.okUnit 3)]
              (add (Scenario.okUnit 3)
                 (add (Scenario.okUnit 2)
                    (add Scenario.failingUnit
                       (empty (Scenario.start 0%nat)))))
              (mkRequest 0 Scenario.failingUnit)
              (PlainError (js "boom"))
              (withWorld (Scenario.start 0%nat) 1%nat)
              eq_refl (or_introl eq_refl) eq_refl)
    as [q1 [q2 [H1 [H2 [_ [_ [_ [H3 [H4 [H5 _]]]]]]]]]].
  exists q1, q2.
  split; [exact H1 |]. split; [exact H2 |]. split; [exact H3 |].
  split; [exact H4 |].
  rewrite H5, H2.
  injection H1 as <-. reflexivity.
Defined.

End QueueClaims.

(* ===================================================================== *)
(** * The track resolver *)
(* ===================================================================== *)

(** Case analysis on the innermost scrutinee of the goal. *)
Ltac case_inner :=
  match goal with
  | |- context [match ?x with _ => _ end] =>
      lazymatch x with
      | context [match _ with _ => _ end] => fail
      | _ => destruct x
      end
  end.

Module ResolverFacts.
Import Index RequestQueue Observations.

Lemma batchLoop_unfold {X} (songs : list X) i batches :
  batchLoop songs i batches =
  if (i <? length songs)%nat
  then batchLoop songs (i + batchSize)
         (batches ++ [slice i (i + batchSize) songs])
  else batches.
Proof.
  rewrite batchLoop_equation_1. unfold batchLoop_unfold_clause_1.
  destruct (Utils.decide (i <? length songs)%nat) as [H | H]; simpl;
    (etransitivity; [ | symmetry; rewrite H; reflexivity ]); reflexivity.
Qed.

Lemma slice_step {X} (songs : list X) i :
  slice i (i + batchSize) songs = firstn batchSize (skipn i songs).
Proof.
  unfold slice. f_equal. lia.
Qed.

(** The batches are consecutive pieces of the input. *)
Lemma batchLoop_concat {X} (songs : list X) n :
  forall i batches,
    (length songs - i <= n)%nat ->
    concat (batchLoop songs i batches) = concat batches ++ skipn i songs.
Proof.
  induction n as [| n IH]; intros i batches Hn;
    rewrite batchLoop_unfold;
    destruct (Nat.ltb_spec i (length songs)) as [Hlt | Hge]; try lia.
  - rewrite skipn_all2 by lia. now rewrite List.app_nil_r.
  - rewrite IH by (unfold batchSize; lia).
    rewrite concat_app. simpl. rewrite List.app_nil_r, <- app_assoc.
    f_equal. rewrite slice_step.
    rewrite <- (firstn_skipn batchSize (skipn i songs)) at 2.
    f_equal. rewrite skipn_skipn. f_equal. lia.
  - rewrite skipn_all2 by lia. now rewrite List.app_nil_r.
Qed.



Section Facts.
Context {W : Type}.
Variable P : Platform W.

(** A unit that does not fail is called once by the wrapper. *)
Lemma addAwait_ok {A} (fn : M W A) st a st1 :
  fn st = (Ok a, st1) ->
  addAwait fn st = (Ok a, emit (ESetTimeout (Num 50)) st1).
Proof.
  intros H. unfold addAwait, Utils.exponentialBackoff.
  rewrite UtilsFacts.backoff_loop_unfold, H. reflexivity.
Qed.

(** Units that all succeed: awaiting them one by one in a loop gives what
    the queue gives when they are added together. *)
Lemma mapM_addAwait_awaitAll {A} (fns : list (M W A)) :
  forall st values st1,
    mapM addAwait fns st = (Ok values, st1) ->
    awaitAll fns st = (map Ok values, st1).
Proof.
  induction fns as [| fn fns IH]; intros st values st1; cbn [mapM awaitAll].
  - intros H. injection H as <- <-. reflexivity.
  - unfold bind.
    destruct (addAwait fn st) as [[a | e] s1]; [| discriminate].
    destruct (mapM addAwait fns s1) as [[vs | e] s2] eqn:E; [| discriminate].
    intros H. injection H as <- <-.
    rewrite (IH s1 vs s2 E). reflexivity.
Qed.

(** The [try]/[catch] around a song's resolution turns every failure into
    an absent entry. *)
Lemma resolveSong_total song st :
  exists u st1, resolveSong P song st = (Ok u, st1).
Proof.
  unfold resolveSong, catch.
  match goal with
  | |- exists u st1, match ?m st with _ => _ end = _ =>
      destruct (m st) as [[u | e] st1]
  end.
  - now exists u, st1.
  - now exists None, st1.
Qed.

Lemma Forall2_concat {A B} (R : A -> B -> Prop) ls ms :
  Forall2 (Forall2 R) ls ms -> Forall2 R (concat ls) (concat ms).
Proof.
  induction 1; simpl; [constructor | now apply Forall2_app].
Qed.

(** The body cut at its [await]s is the body: a song that is resolved
    alone is started and then resumed at each answer. *)
Lemma resolveSong_alone song st :
  resolveSong P song st =
  let '(l0, s0) := startSong P song st in
  let '(l1, s1) := resumeSong P l0 s0 in
  let '(l2, s2) := resumeSong P l1 s1 in
  let '(l3, s3) := resumeSong P l2 s2 in
  (Ok (resultOf l3), s3).
Proof.
  unfold resolveSong, artistFallback, startSong, catch, bind, call, random,
    ret, throw.
  destruct (searchTracks P (exactQuery song) (world st)) as [[ex | e] w1];
    cbn [resumeSong resultOf withWorld emit world trace]; [| reflexivity].
  destruct (foundCondition (tracks ex)).
  { destruct (tracks ex) as [found |]; [| reflexivity].
    destruct (nth_error found 0); reflexivity. }
  unfold call. cbn [withWorld emit world trace].
  destruct (searchArtists P (artist song) w1) as [[ar | e] w2];
    cbn [resumeSong resultOf withWorld emit world trace]; [| reflexivity].
  destruct (foundCondition (artists ar)); [| reflexivity].
  destruct (artists ar) as [found |]; [| reflexivity].
  destruct (nth_error found 0) as [a |]; [| reflexivity].
  unfold call. cbn [withWorld emit world trace].
  destruct (getArtistTopTracks P (artist_id a) (js "US") w2)
    as [[top | e] w3];
    cbn [resumeSong resultOf withWorld emit world trace]; [| reflexivity].
  destruct (0 <? length (top_tracks top))%nat; [| reflexivity].
  cbn [withWorld emit world trace].
  destruct (mathRandomIndex P (Nat.min 5 (length (top_tracks top))) w3)
    as [i w4].
  destruct (nth_error (top_tracks top) i); reflexivity.
Qed.

End Facts.

(** ** A batch resolved together *)

Section Batch.
Context {W : Type}.
Variable P : Platform W.

Lemma call_answers {R} ev (op : W -> Res R * W) st r st1 :
  call ev op st = (r, st1) ->
  answers op r /\ trace st1 = trace st ++ [ev].
Proof.
  unfold call, answers. destruct (op (world st)) as [r' w1] eqn:E.
  intros H. injection H as <- <-.
  split; [exists (world st); now rewrite E | reflexivity].
Qed.

(** One delivery to one lookup: the lookup stays a lookup of its song,
    sends one request at most, and has less to wait for. *)
Lemma resumeSong_spec song l st l1 st1 :
  lookupOf P song l ->
  resumeSong P l st = (l1, st1) ->
  lookupOf P song l1 /\
  (stepsLeft l1 <= stepsLeft l)%nat /\
  (isOut l = true -> (stepsLeft l1 < stepsLeft l)%nat) /\
  exists evs,
    trace st1 = trace st ++ evs /\ Forall isLookup evs /\
    (length evs + requestsLeft l1 <= requestsLeft l)%nat.
Proof.
  assert (Hquiet : forall entry,
             resolvedFor P song entry ->
             (stepsLeft (Returned entry) <= stepsLeft l)%nat ->
             (isOut l = true -> (0 < stepsLeft l)%nat) ->
             (Returned entry, st) = (l1, st1) ->
             lookupOf P song l1 /\
             (stepsLeft l1 <= stepsLeft l)%nat /\
             (isOut l = true -> (stepsLeft l1 < stepsLeft l)%nat) /\
             exists evs,
               trace st1 = trace st ++ evs /\ Forall isLookup evs /\
               (length evs + requestsLeft l1 <= requestsLeft l)%nat).
  { intros entry He Hs Ho H. injection H as <- <-.
    split; [exact He |]. split; [exact Hs |]. split; [exact Ho |].
    exists []. rewrite List.app_nil_r. cbn. repeat split; [constructor | cbn; lia]. }
  destruct l as [s [ex | e] | [ar | e] | [top | e] | entry];
    cbn [lookupOf resumeSong]; intros Hl.
  - destruct Hl as [-> Hans].
    destruct (foundCondition (tracks ex)) eqn:Hf.
    + destruct (tracks ex) as [found |] eqn:Ht;
        [| apply Hquiet; cbn; auto; lia].
      destruct (nth_error found 0) as [t |] eqn:Hn;
        [| apply Hquiet; cbn; auto; lia].
      apply Hquiet; cbn; auto; try lia.
      left. now exists ex, found, t.
    + destruct (call (ESearchArtists (artist song))
                     (searchArtists P (artist song)) st)
        as [answer s1] eqn:Hc.
      destruct (call_answers _ _ _ Hc) as [Ha Htr].
      intros H. injection H as <- <-.
      split; [exact Ha |]. split; [cbn; lia |]. split; [cbn; lia |].
      exists [ESearchArtists (artist song)].
      split; [exact Htr |]. split; [now repeat constructor | cbn; lia].
  - apply Hquiet; cbn; auto; lia.
  - destruct (foundCondition (artists ar)) eqn:Hf;
      [| apply Hquiet; cbn; auto; lia].
    destruct (artists ar) as [found |] eqn:Hfound;
      [| apply Hquiet; cbn; auto; lia].
    destruct found as [| a rest]; cbn [nth_error];
      [apply Hquiet; cbn; auto; lia |].
    destruct (call (EGetArtistTopTracks (artist_id a) (js "US"))
                   (getArtistTopTracks P (artist_id a) (js "US")) st)
      as [answer s1] eqn:Hc.
    destruct (call_answers _ _ _ Hc) as [Ha Htr].
    intros H. injection H as <- <-.
    split; [now exists ar, a, rest |].
    split; [cbn; lia |]. split; [cbn; lia |].
    exists [EGetArtistTopTracks (artist_id a) (js "US")].
    split; [exact Htr |]. split; [now repeat constructor | cbn; lia].
  - apply Hquiet; cbn; auto; lia.
  - destruct Hl as [body [a [rest [Hb [Hart Htop]]]]].
    destruct (0 <? length (top_tracks top))%nat;
      [| apply Hquiet; cbn; auto; lia].
    destruct (mathRandomIndex P (Nat.min 5 (length (top_tracks top)))
                (world st)) as [i w1].
    destruct (nth_error (top_tracks top) i) as [t |] eqn:Hn;
      intros H; injection H as <- <-.
    + split.
      { right. exists body, a, rest, top, t.
        repeat split; try assumption. eapply nth_error_In; eassumption. }
      split; [cbn; lia |]. split; [cbn; lia |].
      exists []. rewrite List.app_nil_r.
      repeat split; [constructor | cbn; lia].
    + split; [exact I |]. split; [cbn; lia |]. split; [cbn; lia |].
      exists []. rewrite List.app_nil_r.
      repeat split; [constructor | cbn; lia].
  - apply Hquiet; cbn; auto; lia.
  - intros H. injection H as <- <-.
    split; [exact Hl |]. split; [lia |]. split; [discriminate |].
    exists []. rewrite List.app_nil_r.
    repeat split; [constructor | cbn; lia].
Qed.

Lemma outCount_cons l ls :
  outCount (l :: ls) =
  if isOut l then S (outCount ls) else outCount ls.
Proof. unfold outCount. cbn [filter]. now destruct (isOut l). Qed.

Lemma sumOver_cons f l ls : sumOver f (l :: ls) = (f l + sumOver f ls)%nat.
Proof. reflexivity. Qed.

Lemma outCount_steps ls : (outCount ls <= sumOver stepsLeft ls)%nat.
Proof.
  induction ls as [| l ls IH]; [cbn; lia |].
  rewrite outCount_cons, sumOver_cons.
  destruct l; cbn [isOut stepsLeft]; lia.
Qed.

(** One delivery to a batch. *)
Lemma deliver_spec batch :
  forall ls k st ls1 st1,
    Forall2 (lookupOf P) batch ls ->
    deliver P k ls st = (ls1, st1) ->
    Forall2 (lookupOf P) batch ls1 /\
    (sumOver stepsLeft ls1 <= sumOver stepsLeft ls)%nat /\
    ((k < outCount ls)%nat ->
     (sumOver stepsLeft ls1 < sumOver stepsLeft ls)%nat) /\
    exists evs,
      trace st1 = trace st ++ evs /\ Forall isLookup evs /\
      (length evs + sumOver requestsLeft ls1
         <= sumOver requestsLeft ls)%nat.
Proof.
  induction batch as [| song batch IH]; intros ls k st ls1 st1 Hls;
    inversion Hls as [| ? l ? rest Hl Hrest]; subst; cbn [deliver].
  - intros H. injection H as <- <-.
    split; [constructor |]. split; [lia |].
    split; [cbn; lia |].
    exists []. rewrite List.app_nil_r. repeat split; [constructor | cbn; lia].
  - rewrite outCount_cons, !sumOver_cons.
    destruct (isOut l) eqn:Hout.
    + destruct k as [| k].
      * destruct (resumeSong P l st) as [l1 s1] eqn:Hr.
        intros H. injection H as <- <-.
        destruct (@resumeSong_spec song l st l1 s1 Hl Hr)
          as [Hl1 [Hle [Hlt [evs [Ht [Hq Hc]]]]]].
        split; [now constructor |]. rewrite !sumOver_cons.
        split; [lia |]. split; [intros _; specialize (Hlt Hout); lia |].
        exists evs. repeat split; try assumption. lia.
      * destruct (deliver P k rest st) as [rest1 s1] eqn:Hd.
        intros H. injection H as <- <-.
        destruct (IH rest k st rest1 s1 Hrest Hd)
          as [Hf [Hle [Hlt [evs [Ht [Hq Hc]]]]]].
        split; [now constructor |]. rewrite !sumOver_cons.
        split; [lia |].
        split; [intros Hk; assert (k < outCount rest)%nat by lia;
                specialize (Hlt ltac:(assumption)); lia |].
        exists evs. repeat split; try assumption. lia.
    + destruct (deliver P k rest st) as [rest1 s1] eqn:Hd.
      intros H. injection H as <- <-.
      destruct (IH rest k st rest1 s1 Hrest Hd)
        as [Hf [Hle [Hlt [evs [Ht [Hq Hc]]]]]].
      split; [now constructor |]. rewrite !sumOver_cons.
      split; [lia |].
      split; [intros Hk; specialize (Hlt Hk); lia |].
      exists evs. repeat split; try assumption. lia.
Qed.

(** With a delivery for every answer that can be waited for, every
    function of the batch returns. *)
Lemma settleAll_spec batch :
  forall fuel ls st ls1 st1,
    Forall2 (lookupOf P) batch ls ->
    (sumOver stepsLeft ls <= fuel)%nat ->
    settleAll P fuel ls st = (ls1, st1) ->
    Forall2 (lookupOf P) batch ls1 /\
    outCount ls1 = 0%nat /\
    exists evs,
      trace st1 = trace st ++ evs /\ Forall isLookup evs /\
      (length evs + sumOver requestsLeft ls1
         <= sumOver requestsLeft ls)%nat.
Proof.
  induction fuel as [| fuel IH]; intros ls st ls1 st1 Hls Hfuel;
    cbn [settleAll].
  - intros H. injection H as <- <-.
    pose proof (outCount_steps ls).
    split; [exact Hls |]. split; [lia |].
    exists []. rewrite List.app_nil_r. repeat split; [constructor | cbn; lia].
  - destruct (outCount ls) as [| n] eqn:Hn.
    + intros H. injection H as <- <-.
      split; [exact Hls |]. split; [exact Hn |].
      exists []. rewrite List.app_nil_r. repeat split; [constructor | cbn; lia].
    + destruct (deliverNext P (S n) (world st)) as [k w1].
      destruct (deliver P (k mod S n) ls (withWorld st w1))
        as [ls2 s2] eqn:Hd.
      destruct (@deliver_spec batch ls (k mod S n) (withWorld st w1) ls2 s2 Hls Hd)
        as [Hls2 [_ [Hlt [evs [Ht [Hq Hc]]]]]].
      assert (Hk : (k mod S n < outCount ls)%nat)
        by (rewrite Hn; apply Nat.mod_upper_bound; lia).
      specialize (Hlt Hk).
      intros H.
      destruct (IH ls2 s2 ls1 st1 Hls2 ltac:(lia) H)
        as [Hls1 [Hdone [evs1 [Ht1 [Hq1 Hc1]]]]].
      split; [exact Hls1 |]. split; [exact Hdone |].
      exists (evs ++ evs1). rewrite Ht1, Ht. cbn [withWorld trace].
      rewrite app_assoc, length_app.
      repeat split; [now apply Forall_app | lia].
Qed.

Lemma startAll_spec :
  forall batch st ls st1,
    startAll P batch st = (ls, st1) ->
    Forall2 (lookupOf P) batch ls /\
    sumOver stepsLeft ls = (3 * length batch)%nat /\
    sumOver requestsLeft ls = (2 * length batch)%nat /\
    exists evs,
      trace st1 = trace st ++ evs /\ Forall isLookup evs /\
      length evs = length batch.
Proof.
  induction batch as [| song batch IH]; intros st ls st1; cbn [startAll].
  - intros H. injection H as <- <-.
    split; [constructor |]. split; [reflexivity |]. split; [reflexivity |].
    exists []. rewrite List.app_nil_r. repeat split. constructor.
  - unfold startSong.
    destruct (call (ESearchTracks (exactQuery song))
                   (searchTracks P (exactQuery song)) st)
      as [answer s1] eqn:Hc.
    destruct (call_answers _ _ _ Hc) as [Ha Htr].
    destruct (startAll P batch s1) as [rest s2] eqn:Hs.
    intros H. injection H as <- <-.
    destruct (IH s1 rest s2 Hs) as [Hf [H3 [H2 [evs [Ht [Hq Hlen]]]]]].
    split; [constructor; [now split | exact Hf] |].
    rewrite !sumOver_cons. cbn [stepsLeft requestsLeft length].
    split; [lia |]. split; [lia |].
    exists (ESearchTracks (exactQuery song) :: evs).
    rewrite Ht, Htr, <- app_assoc. cbn [length].
    repeat split; [now constructor | lia].
Qed.

Lemma returned_entries batch :
  forall ls,
    Forall2 (lookupOf P) batch ls ->
    outCount ls = 0%nat ->
    Forall2 (resolvedFor P) batch (map resultOf ls) /\
    sumOver requestsLeft ls = 0%nat.
Proof.
  induction batch as [| song batch IH]; intros ls Hls;
    inversion Hls as [| ? l ? rest Hl Hrest]; subst.
  - intros _. split; [constructor | reflexivity].
  - rewrite outCount_cons.
    destruct l; cbn [isOut]; try discriminate.
    intros Hout. destruct (IH rest Hrest Hout) as [Hf Hz].
    split; [now constructor |].
    rewrite sumOver_cons. cbn [requestsLeft]. lia.
Qed.

(** A batch always resolves: one entry per song, each absent or found for
    the song at its position, at the cost of one to three lookups per
    song, whatever the platform answers and in whatever order the answers
    are delivered. *)
Lemma resolveBatch_run batch st :
  exists entries st1 evs,
    resolveBatch P batch st = (Ok entries, st1) /\
    Forall2 (resolvedFor P) batch entries /\
    trace st1 = trace st ++ evs /\
    Forall isLookup evs /\
    (length batch <= length evs <= 3 * length batch)%nat.
Proof.
  unfold resolveBatch.
  destruct (startAll P batch st) as [ls s1] eqn:Hs.
  destruct (@startAll_spec batch st ls s1 Hs)
    as [Hls [H3 [H2 [evs0 [Ht0 [Hq0 Hlen0]]]]]].
  destruct (settleAll P (3 * length batch) ls s1) as [ls1 s2] eqn:Hrun.
  destruct (@settleAll_spec batch (3 * length batch) ls s1 ls1 s2 Hls
              ltac:(lia) Hrun)
    as [Hls1 [Hdone [evs1 [Ht1 [Hq1 Hc1]]]]].
  destruct (@returned_entries batch ls1 Hls1 Hdone) as [Hentries Hz].
  exists (map resultOf ls1), s2, (evs0 ++ evs1).
  split; [reflexivity |]. split; [exact Hentries |].
  split; [rewrite Ht1, Ht0, app_assoc; reflexivity |].
  split; [now apply Forall_app |].
  rewrite length_app. lia.
Qed.

End Batch.
End ResolverFacts.


(* ===================================================================== *)
(** * What the operations add to the trace *)
(* ===================================================================== *)

Module FlowFacts.
Import Index RequestQueue Observations Measures.

Section Emits.
Context {W : Type}.

Lemma emits_silent {A} Q (m : M W A) :
  (forall st, trace (snd (m st)) = trace st) -> emits Q m.
Proof.
  intros H st. exists []. rewrite List.app_nil_r. split; [apply H | constructor].
Qed.

Lemma emits_ret {A} Q (a : A) : emits Q (ret (W := W) a).
Proof. now apply emits_silent. Qed.

Lemma emits_throw {A} Q e : emits Q (throw (W := W) (A := A) e).
Proof. now apply emits_silent. Qed.

Lemma emits_bind {A B} Q (m : M W A) (k : A -> M W B) :
  emits Q m -> (forall a, emits Q (k a)) -> emits Q (bind m k).
Proof.
  intros Hm Hk st. unfold bind.
  destruct (Hm st) as [evs [Ht Hq]].
  destruct (m st) as [[a | e] st1]; cbn [snd] in *.
  - destruct (Hk a st1) as [evs1 [Ht1 Hq1]].
    exists (evs ++ evs1). rewrite Ht1, Ht, app_assoc.
    split; [reflexivity | now apply Forall_app].
  - now exists evs.
Qed.

Lemma emits_catch {A} Q (m : M W A) (h : JsError -> M W A) :
  emits Q m -> (forall e, emits Q (h e)) -> emits Q (catch m h).
Proof.
  intros Hm Hh st. unfold catch.
  destruct (Hm st) as [evs [Ht Hq]].
  destruct (m st) as [[a | e] st1]; cbn [snd] in *.
  - now exists evs.
  - destruct (Hh e st1) as [evs1 [Ht1 Hq1]].
    exists (evs ++ evs1). rewrite Ht1, Ht, app_assoc.
    split; [reflexivity | now apply Forall_app].
Qed.

Lemma emits_call {R} (Q : Event -> Prop) ev (op : W -> Res R * W) :
  Q ev -> emits Q (call ev op).
Proof.
  intros Hq st. unfold call. destruct (op (world st)) as [r w1].
  exists [ev]. split; [reflexivity | now constructor].
Qed.

Lemma emits_mapM {A B} Q (f : A -> M W B) l :
  (forall a, emits Q (f a)) -> emits Q (mapM f l).
Proof.
  intros Hf. induction l as [| a l IH]; cbn [mapM].
  - apply emits_ret.
  - apply emits_bind; [apply Hf |]. intros b.
    apply emits_bind; [apply IH |]. intros bs. apply emits_ret.
Qed.

Lemma emits_backoff_loop {A} (Q : Event -> Prop) (fn : M W A) maxRetries
      initialDelay k :
  emits Q fn ->
  (forall d, Q (ESetTimeout d)) ->
  forall retries,
    (maxRetries - retries <= k)%nat ->
    emits Q (Utils.backoff_loop fn maxRetries initialDelay retries).
Proof.
  intros Hfn Hq.
  induction k as [| k IH]; intros retries Hk st;
    rewrite UtilsFacts.backoff_loop_unfold;
    destruct (Hfn st) as [evs [Ht Hevs]];
    destruct (fn st) as [[result | error] st1]; cbn [snd] in *;
    try (now exists evs);
    destruct (Utils.shouldRetry maxRetries error retries) eqn:Hs;
    try (now exists evs).
  - unfold Utils.shouldRetry in Hs. apply andb_prop in Hs.
    destruct Hs as [_ Hs]. apply Nat.ltb_lt in Hs. lia.
  - destruct (Utils.retryDelay initialDelay error retries) as [delay | e];
      [| now exists evs].
    destruct (IH (S retries) ltac:(lia) (emit (ESetTimeout delay) st1))
      as [evs1 [Ht1 Hevs1]].
    exists (evs ++ ESetTimeout delay :: evs1).
    rewrite Ht1. cbn [emit trace]. rewrite Ht, <- !app_assoc.
    split; [reflexivity |].
    apply Forall_app. split; [assumption |]. constructor; [apply Hq | assumption].
Qed.

Lemma emits_addAwait {A} (Q : Event -> Prop) (fn : M W A) :
  emits Q fn -> (forall d, Q (ESetTimeout d)) -> emits Q (addAwait fn).
Proof.
  intros Hfn Hq st. unfold addAwait, Utils.exponentialBackoff.
  destruct (@emits_backoff_loop A Q fn 5 1000 5 Hfn Hq 0%nat ltac:(lia) st)
    as [evs [Ht Hevs]].
  destruct (Utils.backoff_loop fn 5 1000 0 st) as [outcome st1].
  cbn [snd emit trace] in *.
  exists (evs ++ [ESetTimeout (Num 50)]). rewrite Ht, app_assoc.
  split; [reflexivity |].
  apply Forall_app. split; [assumption |]. constructor; [apply Hq | constructor].
Qed.

Lemma emits_weaken {A} (Q Q' : Event -> Prop) (m : M W A) :
  (forall ev, Q ev -> Q' ev) -> emits Q m -> emits Q' m.
Proof.
  intros Himp Hm st. destruct (Hm st) as [evs [Ht Hevs]].
  exists evs. split; [assumption |].
  eapply Forall_impl; eauto.
Qed.

Variable P : Platform W.

Lemma emits_random Q m : emits Q (random P m).
Proof.
  apply emits_silent. intros st. unfold random.
  destruct (mathRandomIndex P m (world st)). reflexivity.
Qed.

Lemma emits_now Q : emits Q (now P).
Proof.
  apply emits_silent. intros st. unfold now.
  destruct (dateNow P (world st)). reflexivity.
Qed.

Lemma emits_artistFallback song : emits isLookup (artistFallback P song).
Proof.
  unfold artistFallback.
  apply emits_bind; [now apply emits_call |]. intros artistSearch.
  destruct (foundCondition (artists artistSearch)); [| apply emits_ret].
  destruct (artists artistSearch) as [found |]; [| apply emits_throw].
  destruct (nth_error found 0) as [a |]; [| apply emits_throw].
  apply emits_bind; [now apply emits_call |]. intros topTracks.
  destruct (0 <? length (top_tracks topTracks))%nat; [| apply emits_ret].
  apply emits_bind; [apply emits_random |]. intros i.
  destruct (nth_error (top_tracks topTracks) i);
    [apply emits_ret | apply emits_throw].
Qed.

Lemma emits_resolveSong song : emits isLookup (resolveSong P song).
Proof.
  unfold resolveSong.
  apply emits_catch; [| intros e; apply emits_ret].
  apply emits_bind; [now apply emits_call |]. intros exactSearch.
  destruct (foundCondition (tracks exactSearch));
    [| apply emits_artistFallback].
  destruct (tracks exactSearch) as [found |]; [| apply emits_ret].
  destruct (nth_error found 0); [apply emits_ret | apply emits_throw].
Qed.

Lemma lookupCount_app evs1 evs2 :
  lookupCount (evs1 ++ evs2) = (lookupCount evs1 + lookupCount evs2)%nat.
Proof. unfold lookupCount. now rewrite filter_app, length_app. Qed.

Lemma lookupCount_lookups evs :
  Forall isLookup evs -> lookupCount evs = length evs.
Proof.
  unfold lookupCount.
  induction 1 as [| ev evs Hev _ IH]; [reflexivity |].
  destruct ev; simpl in Hev; try contradiction; cbn [filter isLookupb length];
    now rewrite IH.
Qed.

Lemma lookups_pacing evs :
  Forall isLookup evs -> Forall isLookupOrPacing evs.
Proof.
  apply Forall_impl. intros ev. destruct ev; simpl; tauto.
Qed.

Lemma lookups_no_timer evs :
  Forall isLookup evs -> filter isTimer evs = [].
Proof.
  induction 1 as [| ev evs Hev _ IH]; [reflexivity |].
  cbn [filter]. rewrite IH. destruct ev; simpl in Hev; try contradiction;
    reflexivity.
Qed.

(** Batches sent through the queue one after the other: each is resolved
    as a whole, then the worker pauses. *)
Lemma batches_run (batches : list (list Song)) :
  forall st, exists results st1 evs,
    mapM (fun batch => addAwait (resolveBatch P batch)) batches st =
      (Ok results, st1) /\
    Forall2 (Forall2 (resolvedFor P)) batches results /\
    trace st1 = trace st ++ evs /\
    Forall isLookupOrPacing evs /\
    (length (concat batches) <= lookupCount evs
       <= 3 * length (concat batches))%nat /\
    length (filter isTimer evs) = length batches.
Proof.
  induction batches as [| batch batches IH]; intros st.
  - exists [], st, []. rewrite List.app_nil_r.
    repeat split; [constructor | constructor | cbn; lia | cbn; lia].
  - destruct (ResolverFacts.resolveBatch_run P batch st)
      as [us [s1 [evs1 [H1 [Hr1 [Ht1 [Hq1 Hc1]]]]]]].
    destruct (IH (emit (ESetTimeout (Num 50)) s1))
      as [results [s2 [evs2 [H2 [Hr2 [Ht2 [Hq2 [Hc2 Hn2]]]]]]]].
    exists (us :: results), s2, (evs1 ++ [ESetTimeout (Num 50)] ++ evs2).
    cbn [mapM]. unfold bind at 1.
    rewrite (ResolverFacts.addAwait_ok _ _ H1).
    unfold bind. rewrite H2. cbn [ret].
    split; [reflexivity |].
    split; [now constructor |].
    split.
    { rewrite Ht2. cbn [emit trace]. rewrite Ht1, <- !app_assoc.
      reflexivity. }
    split.
    { apply Forall_app. split; [now apply lookups_pacing |].
      constructor; [reflexivity | assumption]. }
    split.
    { rewrite !lookupCount_app, (lookupCount_lookups Hq1).
      cbn [concat]. rewrite length_app.
      change (lookupCount [ESetTimeout (Num 50)]) with 0%nat. lia. }
    rewrite !filter_app, !length_app, (lookups_no_timer Hq1), Hn2.
    reflexivity.
Qed.

(** [findTrackUris] always returns: one entry per song, absent or found
    for the song at its position; one to three lookups per song; one
    50 ms pause of the worker per batch. *)
Lemma findTrackUris_run songs st :
  exists uris st1 evs,
    findTrackUris P songs st = (Ok uris, st1) /\
    Forall2 (resolvedFor P) songs uris /\
    trace st1 = trace st ++ evs /\
    Forall isLookupOrPacing evs /\
    (length songs <= lookupCount evs <= 3 * length songs)%nat /\
    length (filter isTimer evs) = length (makeBatches songs).
Proof.
  destruct (batches_run (makeBatches songs) st)
    as [results [st1 [evs [H [Hr [Ht [Hq [Hc Hn]]]]]]]].
  assert (Hconcat : concat (makeBatches songs) = songs).
  { unfold makeBatches.
    rewrite (@ResolverFacts.batchLoop_concat _ songs (length songs)) by lia.
    reflexivity. }
  exists (concat results), st1, evs.
  unfold findTrackUris, bind. rewrite H. cbn [ret].
  rewrite Hconcat in Hc.
  split; [reflexivity |].
  split.
  { rewrite <- Hconcat at 1. now apply ResolverFacts.Forall2_concat. }
  repeat split; try assumption; lia.
Qed.

Lemma emits_findTrackUris songs : emits isResolution (findTrackUris P songs).
Proof.
  intros st.
  destruct (findTrackUris_run songs st)
    as [uris [st1 [evs [H [_ [Ht [Hq _]]]]]]].
  exists evs. rewrite H. split; [exact Ht |].
  eapply Forall_impl; [| exact Hq].
  intros ev. destruct ev; simpl; tauto.
Qed.

(** The units of work [findTrackUris] sends through the queue, counted by
    their 50 ms timers: one per batch. *)
Lemma findTrackUris_units songs st :
  exists evs,
    trace (snd (findTrackUris P songs st)) = trace st ++ evs /\
    length (filter isTimer evs) = length (makeBatches songs).
Proof.
  destruct (findTrackUris_run songs st)
    as [uris [st1 [evs [H [_ [Ht [_ [_ Hn]]]]]]]].
  exists evs. rewrite H. now split.
Qed.

Lemma emits_refreshTokenIfNeeded : emits isTokenEvent (refreshTokenIfNeeded P).
Proof.
  unfold refreshTokenIfNeeded.
  apply emits_catch; [| intros e; apply emits_throw].
  apply emits_bind.
  { apply emits_silent. intros st. unfold readTokenFile.
    destruct (tokenFile st); reflexivity. }
  intros tokenData.
  apply emits_bind; [apply emits_now |]. intros t.
  destruct (t >? expires_at tokenData - 300000).
  - apply emits_bind; [now apply emits_silent |]. intros _.
    apply emits_bind.
    { intros st. unfold refreshAccessTokenCall.
      apply (@emits_call _ isTokenEvent
               (ERefreshAccessToken (clientRefreshToken st))
               (refreshAccessToken P (clientRefreshToken st)) I st). }
    intros data.
    apply emits_bind; [apply emits_now |]. intros t2.
    apply emits_bind; [| intros _; now apply emits_silent].
    intros st. unfold writeTokenFile.
    destruct (writeFile P (world st)) as [[[] | e] w1]; cbn [snd trace].
    + eexists [_]. split; [reflexivity |]. constructor; [exact I | constructor].
    + exists []. rewrite List.app_nil_r. split; [reflexivity | constructor].
  - now apply emits_silent.
Qed.

End Emits.
End FlowFacts.


Module ResolverClaims.
Import Index RequestQueue Observations ResolverFacts FlowFacts.

Lemma foundCondition_iff {X} (found : option (list X)) :
  foundCondition found = true <-> exists x rest, found = Some (x :: rest).
Proof.
  unfold foundCondition, countOf.
  destruct found as [[| x rest] |]; simpl; split;
    try discriminate; try (intros [x' [rest' H]]; discriminate).
  - intros _. now exists x, rest.
  - intros _. reflexivity.
Qed.

Lemma foundCondition_count {X} (found : option (list X)) :
  foundCondition found = countGreaterThanZero found.
Proof.
  unfold foundCondition, countGreaterThanZero, countOf.
  destruct found as [[| x rest] |]; reflexivity.
Qed.

(** The artist fallback starts with the artist-name search. *)
Lemma artistFallback_searches {W} (P : Platform W) song st :
  exists r st2 evs,
    catch (artistFallback P song) (fun _ => ret None) st = (Ok r, st2) /\
    trace st2 = trace st ++ ESearchArtists (artist song) :: evs.
Proof.
  unfold catch, artistFallback, bind, call.
  destruct (searchArtists P (artist song) (world st)) as [[body | e] w1].
  2:{ exists None, (withWorld (emit (ESearchArtists (artist song)) st) w1), [].
      split; reflexivity. }
  cbn [withWorld emit world trace].
  destruct (foundCondition (artists body)).
  2:{ eexists _, _, []. split; reflexivity. }
  destruct (artists body) as [found |].
  2:{ eexists _, _, []. split; reflexivity. }
  destruct (nth_error found 0) as [a |].
  2:{ eexists _, _, []. split; reflexivity. }
  cbn [withWorld emit world trace].
  destruct (getArtistTopTracks P (artist_id a) (js "US") w1)
    as [[top | e] w2]; cbn [withWorld emit world trace].
  2:{ eexists _, _, [_]. split; [reflexivity |].
      cbn. rewrite <- app_assoc. reflexivity. }
  destruct (0 <? length (top_tracks top))%nat.
  2:{ eexists _, _, [_]. split; [reflexivity |].
      cbn. rewrite <- app_assoc. reflexivity. }
  unfold random. cbn [withWorld emit world trace].
  destruct (mathRandomIndex P (Nat.min 5 (length (top_tracks top))) w2)
    as [i w3].
  destruct (nth_error (top_tracks top) i);
    (eexists _, _, [_]; split; [reflexivity |];
     cbn; rewrite <- app_assoc; reflexivity).
Qed.

(** C3, as the code has it.  The condition [count ?? 0 > 0] of the exact
    search holds exactly when the [tracks] field is present and has at
    least one item, which is the condition "count greater than 0"; with one
    item or more the resolver returns the first track's identifier after
    the exact search alone; with the field present and zero items (or the
    field absent) it goes on to the artist-name search. *)
Theorem C3_found_iff_count_positive :
  forall (W : Type) (P : Platform W) (song : Song) (st : St W)
         (body : SearchTracksBody) (w1 : W),
    searchTracks P (exactQuery song) (world st) = (Ok body, w1) ->
    (foundCondition (tracks body) = true <->
     exists t rest, tracks body = Some (t :: rest)) /\
    foundCondition (tracks body) = countGreaterThanZero (tracks body) /\
    (forall t rest,
        tracks body = Some (t :: rest) ->
        resolveSong P song st =
        (Ok (Some (uri t)),
         withWorld (emit (ESearchTracks (exactQuery song)) st) w1)) /\
    (tracks body = Some [] \/ tracks body = None ->
     exists r st2 evs,
       resolveSong P song st = (Ok r, st2) /\
       trace st2 =
         trace st ++
         ESearchTracks (exactQuery song) :: ESearchArtists (artist song)
           :: evs).
Proof.
  intros W P song st body w1 Hs.
  split; [apply foundCondition_iff |].
  split; [apply foundCondition_count |].
  split.
  - intros t rest Ht. unfold resolveSong, catch, bind, call.
    rewrite Hs, Ht. reflexivity.
  - intros Hz.
    assert (Hf : foundCondition (tracks body) = false)
      by (destruct Hz as [-> | ->]; reflexivity).
    destruct (artistFallback_searches P song
                (withWorld (emit (ESearchTracks (exactQuery song)) st) w1))
      as [r [st2 [evs [Hr Ht]]]].
    exists r, st2, evs. split.
    + rewrite <- Hr. unfold resolveSong, catch, bind, call at 1.
      rewrite Hs, Hf. reflexivity.
    + rewrite Ht. cbn. rewrite <- app_assoc. reflexivity.
Qed.

Lemma C3_witness :
  foundCondition (Some [mkTrack (js "uri:hey-jude")]) = true /\
  resolveSong Scenario.demo Scenario.heyJude (Scenario.start 0%nat) =
  (Ok (Some (js "uri:hey-jude")),
   withWorld
     (emit (ESearchTracks (exactQuery Scenario.heyJude))
           (Scenario.start 0%nat)) 1%nat).
Proof.
  destruct (@C3_found_iff_count_positive nat Scenario.demo Scenario.heyJude
              (Scenario.start 0%nat)
              (mkSearchTracksBody (Some [mkTrack (js "uri:hey-jude")]))
              1%nat eq_refl)
    as [H1 [_ [H3 _]]].
  split.
  - apply H1. now exists (mkTrack (js "uri:hey-jude")), [].
  - apply (H3 (mkTrack (js "uri:hey-jude")) []). reflexivity.
Defined.

(** C3 as the specification words it fails: an exact search that answers
    with the [tracks] field present and zero items does not take the found
    branch; the resolver makes the artist-name search and returns one of the
    artist's top tracks. *)
Lemma C3_counterexample :
  fst (searchTracks Scenario.demo (exactQuery Scenario.bSide) 0%nat) =
    Ok (mkSearchTracksBody (Some [])) /\
  foundCondition (Some (@nil Track)) = false /\
  trace (snd (resolveSong Scenario.demo Scenario.bSide
                (Scenario.start 0%nat))) =
    [ESearchTracks (js "track:B-side artist:The Beatles");
     ESearchArtists (js "The Beatles");
     EGetArtistTopTracks (js "beatles") (js "US")] /\
  fst (resolveSong Scenario.demo Scenario.bSide (Scenario.start 0%nat)) =
    Ok (Some (js "uri:top0")).
Proof. repeat split. Qed.


(** Twenty-five songs on the example platform: two units of work went
    through the queue (two 50 ms delays), 25 entries come back. *)
Example findTrackUris_25 :
  let run := findTrackUris Scenario.demo
               (repeat Scenario.heyJude 25) (Scenario.start 0%nat) in
  fst run = Ok (repeat (Some (js "uri:hey-jude")) 25) /\
  filter (fun ev => match ev with ESetTimeout _ => true | _ => false end)
         (trace (snd run)) = [ESetTimeout (Num 50); ESetTimeout (Num 50)] /\
  nth_error (trace (snd run)) 20 = Some (ESetTimeout (Num 50)).
Proof. vm_compute. repeat split. Qed.

(** Two songs of one batch share the platform: on a platform that
    refuses every lookup from the fourth on, both exact searches go out
    first, then the two artist searches, then a top-tracks request, and
    neither song is resolved; resolved alone, the first song is. *)
Example batch_shares_the_platform :
  let run := resolveBatch Scenario2.demoRefusing
               [Scenario.bSide; Scenario.bSide] (Scenario.start 0%nat) in
  fst run = Ok [None; None] /\
  trace (snd run) =
    [ESearchTracks (js "track:B-side artist:The Beatles");
     ESearchTracks (js "track:B-side artist:The Beatles");
     ESearchArtists (js "The Beatles");
     ESearchArtists (js "The Beatles");
     EGetArtistTopTracks (js "beatles") (js "US")] /\
  fst (resolveSong Scenario2.demoRefusing Scenario.bSide
         (Scenario.start 0%nat)) = Ok (Some (js "uri:top0")).
Proof. vm_compute. repeat split. Qed.

End ResolverClaims.

(* ===================================================================== *)
(** * The token lifecycle *)
(* ===================================================================== *)

Module TokenFacts.
Import Index.

(** Outside the safety margin the check sets the stored access token on
    the client and does nothing else. *)
Lemma refresh_outside_margin {W} (P : Platform W) st td t w1 :
  tokenFile st = Some td ->
  dateNow P (world st) = (t, w1) ->
  t <= expires_at td - 300000 ->
  refreshTokenIfNeeded P st =
  (Ok tt,
   mkSt w1 (trace st) (tokenFile st) (savedPlaylistsFile st)
        (Some (access_token td)) (clientRefreshToken st)).
Proof.
  intros Hfile Hnow Hout.
  unfold refreshTokenIfNeeded, catch, bind, readTokenFile, now.
  rewrite Hfile, Hnow.
  destruct (Z.gtb_spec t (expires_at td - 300000)) as [Hin | _]; [lia |].
  cbn. rewrite Hfile. reflexivity.
Qed.

End TokenFacts.

Module TokenClaims.
Import Index Observations.



End TokenClaims.

(* ===================================================================== *)
(** * Pagination of the liked songs *)
(* ===================================================================== *)

Module LikedFacts.
Import Index Observations.

Lemma mapRes_likedOf (l : list SavedTrack) :
  Forall hasArtist l -> mapRes toLikedSong l = Ok (map likedOf l).
Proof.
  induction 1 as [| item l Hitem _ IH]; [reflexivity |].
  cbn [mapRes map]. rewrite IH. unfold toLikedSong, likedOf, hasArtist in *.
  destruct (track_artists item); [congruence | reflexivity].
Qed.

Lemma Forall_slice {X} (Q : X -> Prop) i j (l : list X) :
  Forall Q l -> Forall Q (slice i j l).
Proof.
  intros H. unfold slice. rewrite Forall_forall in *. intros x Hx.
  apply H. rewrite <- (firstn_skipn i l). apply in_or_app. right.
  rewrite <- (firstn_skipn (j - i) (skipn i l)). apply in_or_app. now left.
Qed.

Lemma continue_iff (T : Z) (k : nat) :
  (offsetOf k + limit <? T) = true <-> (S k < pageCount T)%nat.
Proof.
  unfold offsetOf, limit, pageCount. rewrite Z.ltb_lt.
  pose proof (Z.div_mod (T + 49) 50 ltac:(lia)) as Hd.
  pose proof (Z.mod_pos_bound (T + 49) 50 ltac:(lia)) as Hm.
  split; intros H.
  - assert (Z.of_nat (S k) < (T + 49) / 50) by lia. lia.
  - assert (Z.of_nat (S k) < (T + 49) / 50) by lia. lia.
Qed.

Section Loop.
Context {W : Type}.
Variable P : Platform W.
Variable T : Z.
Variable page : Z -> list SavedTrack.

(** The platform reports the total [T] and answers the request at an
    offset with that offset's page. *)
Hypothesis answers :
  forall offset w, exists w1,
    getMySavedTracks P limit offset w =
    (Ok (mkSavedTracksBody T (page offset)), w1).
Hypothesis pages_ok : forall offset, Forall hasArtist (page offset).

Lemma likedSongsLoop_pages m :
  forall k fuel allTracks st,
    (k + S m = pageCount T)%nat ->
    (S m <= fuel)%nat ->
    exists st1,
      likedSongsLoop P fuel allTracks (offsetOf k) st =
        Some (Ok (allTracks ++
                  map likedOf
                      (concat (map (fun j => page (offsetOf j))
                                   (seq k (S m))))),
              st1) /\
      trace st1 =
        trace st ++
        map (fun j => EGetMySavedTracks limit (offsetOf j)) (seq k (S m)).
Proof.
  induction m as [| m IH]; intros k fuel allTracks st Hk Hfuel;
    (destruct fuel as [| fuel]; [lia |]);
    cbn [likedSongsLoop]; unfold call;
    destruct (answers (offsetOf k) (world st)) as [w1 Hans];
    rewrite Hans; cbn [total items];
    rewrite (mapRes_likedOf (pages_ok (offsetOf k))).
  - assert (Hstop : (offsetOf k + limit <? T) = false).
    { destruct (offsetOf k + limit <? T) eqn:E; [| reflexivity].
      apply continue_iff in E. lia. }
    rewrite Hstop. eexists. split.
    + cbn [seq map concat]. rewrite List.app_nil_r. reflexivity.
    + reflexivity.
  - assert (Hgo : (offsetOf k + limit <? T) = true)
      by (apply continue_iff; lia).
    rewrite Hgo.
    replace (offsetOf k + limit) with (offsetOf (S k))
      by (unfold offsetOf, limit; lia).
    destruct (IH (S k) fuel (allTracks ++ map likedOf (page (offsetOf k)))
                (withWorld (emit (EGetMySavedTracks limit (offsetOf k)) st) w1))
      as [st1 [Hloop Htrace]]; [lia | lia |].
    exists st1. split.
    + rewrite Hloop. do 2 f_equal.
      change (seq k (S (S m))) with (k :: seq (S k) (S m)).
      cbn [map concat]. rewrite map_app, app_assoc. reflexivity.
    + rewrite Htrace. cbn [withWorld emit trace].
      change (seq k (S (S m))) with (k :: seq (S k) (S m)).
      cbn [map]. rewrite <- app_assoc. reflexivity.
Qed.

End Loop.
End LikedFacts.

Module LikedClaims.
Import Index Observations LikedFacts.

(** C6.  Against a platform that reports the total [T] and answers each
    request with the page at the requested offset, [getAllLikedSongs]
    requests the offsets 0, 50, 100, ... with page size 50, one request at
    least and then for as long as the next offset is below [T], and returns
    the pages' songs concatenated in request order.  With [T = 120] that is
    exactly 3 requests, and pages of 50, 50 and 20 items give 120 songs. *)
Theorem C6_pagination :
  forall (W : Type) (P : Platform W) (T : Z) (page : Z -> list SavedTrack)
         (st : St W) (fuel : nat),
    (forall offset w, exists w1,
        getMySavedTracks P 50 offset w =
        (Ok (mkSavedTracksBody T (page offset)), w1)) ->
    (forall offset, Forall hasArtist (page offset)) ->
    (pageCount T <= fuel)%nat ->
    (exists st1,
        getAllLikedSongs P fuel st =
          Some (Ok (map likedOf
                        (concat (map (fun j => page (offsetOf j))
                                     (seq 0 (pageCount T))))),
                st1) /\
        trace st1 =
          trace st ++
          map (fun j => EGetMySavedTracks 50 (offsetOf j))
              (seq 0 (pageCount T))) /\
    (T = 120 ->
     pageCount T = 3%nat /\
     map offsetOf (seq 0 (pageCount T)) = [0; 50; 100] /\
     (length (page 0) = 50%nat -> length (page 50) = 50%nat ->
      length (page 100) = 20%nat ->
      length (map likedOf
                  (concat (map (fun j => page (offsetOf j))
                               (seq 0 (pageCount T))))) = 120%nat)).
Proof.
  intros W P T page st fuel Hans Hpages Hfuel. split.
  - assert (Hn : (1 <= pageCount T)%nat) by (unfold pageCount; lia).
    destruct (pageCount T) as [| m] eqn:Hm; [lia |].
    destruct (@likedSongsLoop_pages W P T page Hans Hpages m 0%nat fuel [] st)
      as [st1 [Hloop Htrace]]; [lia | lia |].
    exists st1. split; [exact Hloop | exact Htrace].
  - intros ->. split; [reflexivity |]. split; [reflexivity |].
    intros H0 H50 H100.
    change (pageCount 120) with 3%nat.
    cbn [seq map concat]. unfold offsetOf.
    change (50 * Z.of_nat 0) with 0. change (50 * Z.of_nat 1) with 50.
    change (50 * Z.of_nat 2) with 100.
    rewrite length_map, !length_app, H0, H50, H100. reflexivity.
Qed.

Lemma C6_witness :
  exists st1,
    getAllLikedSongs Scenario.demo 3 (Scenario.start 0%nat) =
      Some (Ok (map likedOf Scenario.library), st1) /\
    trace st1 =
      [EGetMySavedTracks 50 0; EGetMySavedTracks 50 50;
       EGetMySavedTracks 50 100] /\
    length (map likedOf Scenario.library) = 120%nat.
Proof.
  destruct (@C6_pagination nat Scenario.demo 120
              (fun offset =>
                 slice (Z.to_nat offset) (Z.to_nat (offset + 50))
                       Scenario.library)
              (Scenario.start 0%nat) 3)
    as [[st1 [H1 H2]] _].
  - intros offset w. exists (S w). reflexivity.
  - intros offset. apply Forall_slice.
    apply Forall_forall. intros item Hin.
    unfold Scenario.library in Hin. apply in_map_iff in Hin.
    destruct Hin as [i [<- _]]. discriminate.
  - vm_compute. lia.
  - exists st1. split; [| split].
    + rewrite H1. reflexivity.
    + rewrite H2. reflexivity.
    + reflexivity.
Defined.

End LikedClaims.

(* ===================================================================== *)
(** * The playlist flows *)
(* ===================================================================== *)

Module SanitizeFacts.
Import Index.

Lemma slice_from_0 {X} n (l : list X) : slice 0 n l = firstn n l.
Proof. unfold slice. now rewrite Nat.sub_0_r. Qed.

(** The sanitized name is the trimmed name cut at 100 code units: exactly
    100 when the trimmed name is longer, the trimmed name itself
    otherwise.  The same holds for the description with 300. *)
Lemma sanitized_name playlist :
  name (sanitizePlaylistData playlist) = firstn 100 (trim (name playlist)) /\
  ((100 < length (trim (name playlist)))%nat ->
   length (name (sanitizePlaylistData playlist)) = 100%nat) /\
  ((length (trim (name playlist)) <= 100)%nat ->
   name (sanitizePlaylistData playlist) = trim (name playlist)).
Proof.
  cbn [sanitizePlaylistData name]. rewrite slice_from_0.
  split; [reflexivity |]. split; intros H.
  - rewrite length_firstn. lia.
  - now apply firstn_all2.
Qed.

Lemma sanitized_description playlist :
  description (sanitizePlaylistData playlist) =
    firstn 300 (trim (description playlist)) /\
  ((300 < length (trim (description playlist)))%nat ->
   length (description (sanitizePlaylistData playlist)) = 300%nat) /\
  ((length (trim (description playlist)) <= 300)%nat ->
   description (sanitizePlaylistData playlist) = trim (description playlist)).
Proof.
  cbn [sanitizePlaylistData description]. rewrite slice_from_0.
  split; [reflexivity |]. split; intros H.
  - rewrite length_firstn. lia.
  - now apply firstn_all2.
Qed.

End SanitizeFacts.

Module FlowClaims.
Import Index RequestQueue Observations FlowFacts.

Section Steps.
Context {W : Type}.
Variable P : Platform W.

Lemma previewStep_cases playlist acc st :
  exists acc1 st1,
    previewStep P playlist acc st = (Ok acc1, st1) /\
    (acc1 = acc \/
     exists id,
       acc1 = (fst acc ++ [id], snd acc ++ [embedOf playlist id])).
Proof.
  destruct acc as [ids embeds]. unfold previewStep, catch.
  match goal with
  | |- exists acc1 st1, match ?m st with _ => _ end = _ /\ _ =>
      assert (Hm : forall r s, m st = (Ok r, s) ->
                r = (ids, embeds) \/
                exists id, r = (ids ++ [id], embeds ++ [embedOf playlist id]));
      [| destruct (m st) as [[r | e] s] eqn:E]
  end.
  - intros r s. unfold bind.
    destruct (findTrackUris P (songs playlist) st) as [[uris | e] s1];
      [| discriminate].
    destruct (length (definedOnly uris) =? 0)%nat.
    + intros H. injection H as <- _. now left.
    + match goal with
      | |- context [addAwait ?c s1] => destruct (addAwait c s1) as [[id | e] s2]
      end; [| discriminate].
      destruct (addTracksLoop P id (definedOnly uris) 0 s2) as [[[] | e] s3];
        [| discriminate].
      intros H. injection H as <- _. right. now exists id.
  - exists r, s. split; [reflexivity | now apply Hm with s].
  - exists (ids, embeds), s. split; [reflexivity | now left].
Qed.

Lemma previewLoop_total playlists :
  forall acc st,
    exists acc1 st1,
      previewLoop P playlists acc st = (Ok acc1, st1) /\
      (length (fst acc) = length (snd acc) ->
       length (fst acc1) = length (snd acc1)).
Proof.
  induction playlists as [| playlist rest IH]; intros acc st.
  - exists acc, st. split; [reflexivity | auto].
  - destruct (previewStep_cases playlist acc st) as [acc1 [st1 [Hs Hc]]].
    destruct (IH acc1 st1) as [acc2 [st2 [Hl Hlen]]].
    exists acc2, st2. split.
    + cbn [previewLoop]. unfold bind. rewrite Hs. exact Hl.
    + intros H. apply Hlen.
      destruct Hc as [-> | [id ->]]; [assumption |].
      cbn [fst snd]. rewrite !length_app. cbn. lia.
Qed.

Lemma previewLoop_cons playlist rest acc st acc1 st1 :
  previewStep P playlist acc st = (Ok acc1, st1) ->
  previewLoop P (playlist :: rest) acc st = previewLoop P rest acc1 st1.
Proof.
  intros H. cbn [previewLoop]. unfold bind. rewrite H. reflexivity.
Qed.

Lemma previewStep_skip playlist acc st uris st1 :
  findTrackUris P (songs playlist) st = (Ok uris, st1) ->
  definedOnly uris = [] ->
  previewStep P playlist acc st = (Ok acc, st1).
Proof.
  intros Hf Hd. destruct acc as [ids embeds].
  unfold previewStep, catch, bind. rewrite Hf, Hd. reflexivity.
Qed.

Lemma previewStep_create_fails playlist acc st uris st1 e st2 :
  findTrackUris P (songs playlist) st = (Ok uris, st1) ->
  definedOnly uris <> [] ->
  createSanitized P playlist st1 = (Throw e, st2) ->
  previewStep P playlist acc st = (Ok acc, st2).
Proof.
  intros Hf Hd Hc. destruct acc as [ids embeds].
  unfold previewStep, catch, bind. rewrite Hf.
  destruct (definedOnly uris) as [| u us] eqn:E; [congruence |].
  cbn [length Nat.eqb]. unfold createSanitized in Hc. rewrite Hc.
  reflexivity.
Qed.

Lemma previewStep_add_fails playlist acc st uris st1 id st2 e st3 :
  findTrackUris P (songs playlist) st = (Ok uris, st1) ->
  definedOnly uris <> [] ->
  createSanitized P playlist st1 = (Ok id, st2) ->
  addTracksLoop P id (definedOnly uris) 0 st2 = (Throw e, st3) ->
  previewStep P playlist acc st = (Ok acc, st3).
Proof.
  intros Hf Hd Hc Ha. destruct acc as [ids embeds].
  unfold previewStep, catch, bind. rewrite Hf.
  destruct (definedOnly uris) as [| u us] eqn:E; [congruence |].
  cbn [length Nat.eqb]. unfold createSanitized in Hc. rewrite Hc, Ha.
  reflexivity.
Qed.

Lemma previewStep_created playlist acc st uris st1 id st2 st3 :
  findTrackUris P (songs playlist) st = (Ok uris, st1) ->
  definedOnly uris <> [] ->
  createSanitized P playlist st1 = (Ok id, st2) ->
  addTracksLoop P id (definedOnly uris) 0 st2 = (Ok tt, st3) ->
  previewStep P playlist acc st =
  (Ok (fst acc ++ [id], snd acc ++ [embedOf playlist id]), st3).
Proof.
  intros Hf Hd Hc Ha. destruct acc as [ids embeds].
  unfold previewStep, catch, bind. rewrite Hf.
  destruct (definedOnly uris) as [| u us] eqn:E; [congruence |].
  cbn [length Nat.eqb]. unfold createSanitized in Hc. rewrite Hc, Ha.
  reflexivity.
Qed.

Lemma previewPlaylists_response st :
  exists resp st1,
    previewPlaylists P st = (Ok resp, st1) /\
    match previewCreate P st with
    | (Ok (ids, embeds), _) =>
        length ids = length embeds /\
        (status resp = 500 <-> ids = []) /\
        (ids <> [] -> resp = mkResponse 200 (BPreviewPage embeds))
    | (Throw _, _) => status resp = 500
    end.
Proof.
  unfold previewPlaylists, catch, bind.
  assert (Hlen : forall ids embeds s,
             previewCreate P st = (Ok (ids, embeds), s) ->
             length ids = length embeds).
  { unfold previewCreate, bind. intros ids embeds s.
    destruct (refreshTokenIfNeeded P st) as [[[] | e] s1]; [| discriminate].
    destruct (readSavedPlaylists s1) as [[[playlists |] | e] s2];
      try discriminate.
    destruct (previewLoop_total playlists ([], []) s2)
      as [acc1 [s3 [Hl Hk]]].
    rewrite Hl. intros H. injection H as -> _. now apply Hk. }
  destruct (previewCreate P st) as [[[ids embeds] | e] s] eqn:E.
  - specialize (Hlen ids embeds s eq_refl). cbn [snd].
    destruct embeds as [| em embeds]; cbn [length Nat.eqb].
    + destruct ids; [| discriminate].
      eexists _, _. split; [reflexivity |]. cbn.
      split; [reflexivity |]. split; [split; reflexivity | congruence].
    + destruct ids as [| id ids]; [discriminate |].
      eexists _, _. split; [reflexivity |]. cbn.
      split; [exact Hlen |].
      split; [split; discriminate | reflexivity].
  - eexists _, _. split; reflexivity.
Qed.

End Steps.

(** C7.  The bulk handler always answers.  Its status is 500 exactly when
    the run ends with no created playlist (the list [createdPlaylistIds] is
    empty, also when the token check or the snapshot file fails before the
    loop); otherwise it is 200 with one card per created playlist.  A
    playlist whose songs all fail to resolve is passed over: the loop goes
    on with the remaining playlists from the state the resolution left,
    with its lists unchanged, and the resolution made only searches.  A
    playlist whose creation, or whose population, fails is passed over in
    the same way.  A playlist that is resolved, created and populated adds
    its identifier and its card.  On the example platform, six suggested
    playlists of which the third resolves to no track give five created
    playlists and status 200. *)
Theorem C7_bulk_flow_isolates_failures :
  forall (W : Type) (P : Platform W) (st : St W),
    (exists resp st1,
        previewPlaylists P st = (Ok resp, st1) /\
        match previewCreate P st with
        | (Ok (ids, embeds), _) =>
            length ids = length embeds /\
            (status resp = 500 <-> ids = []) /\
            (ids <> [] -> resp = mkResponse 200 (BPreviewPage embeds))
        | (Throw _, _) => status resp = 500
        end) /\
    (forall playlist rest acc s uris s1,
        findTrackUris P (songs playlist) s = (Ok uris, s1) ->
        definedOnly uris = [] ->
        previewLoop P (playlist :: rest) acc s = previewLoop P rest acc s1 /\
        exists evs, trace s1 = trace s ++ evs /\ Forall isResolution evs) /\
    (forall playlist rest acc s uris s1 e s2,
        findTrackUris P (songs playlist) s = (Ok uris, s1) ->
        definedOnly uris <> [] ->
        createSanitized P playlist s1 = (Throw e, s2) ->
        previewLoop P (playlist :: rest) acc s = previewLoop P rest acc s2) /\
    (forall playlist rest acc s uris s1 id s2 e s3,
        findTrackUris P (songs playlist) s = (Ok uris, s1) ->
        definedOnly uris <> [] ->
        createSanitized P playlist s1 = (Ok id, s2) ->
        addTracksLoop P id (definedOnly uris) 0 s2 = (Throw e, s3) ->
        previewLoop P (playlist :: rest) acc s = previewLoop P rest acc s3) /\
    (forall playlist rest acc s uris s1 id s2 s3,
        findTrackUris P (songs playlist) s = (Ok uris, s1) ->
        definedOnly uris <> [] ->
        createSanitized P playlist s1 = (Ok id, s2) ->
        addTracksLoop P id (definedOnly uris) 0 s2 = (Ok tt, s3) ->
        previewLoop P (playlist :: rest) acc s =
        previewLoop P rest
          (fst acc ++ [id], snd acc ++ [embedOf playlist id]) s3) /\
    (exists embeds st1,
        length Scenario.suggested = 6%nat /\
        fst (findTrackUris Scenario.demo
               [Scenario.nothing; Scenario.nothing] (Scenario.start 0%nat)) =
          Ok [None; None] /\
        previewPlaylists Scenario.demo (Scenario.loggedIn 5000000) =
          (Ok (mkResponse 200 (BPreviewPage embeds)), st1) /\
        map embed_name embeds =
          [js "One"; js "Two"; js "Four"; js "Five"; js "Six"] /\
        length (filter isCreatePlaylist (trace st1)) = 5%nat).
Proof.
  intros W P st.
  split; [apply previewPlaylists_response |].
  split.
  { intros playlist rest acc s uris s1 Hf Hd. split.
    - apply previewLoop_cons. eapply previewStep_skip; eauto.
    - destruct (emits_findTrackUris P (songs playlist) s) as [evs [Ht Hq]].
      rewrite Hf in Ht. now exists evs. }
  split.
  { intros. apply previewLoop_cons. eapply previewStep_create_fails; eauto. }
  split.
  { intros. apply previewLoop_cons. eapply previewStep_add_fails; eauto. }
  split.
  { intros. apply previewLoop_cons. eapply previewStep_created; eauto. }
  eexists _, _. split; [reflexivity |]. split; [reflexivity |].
  split; [vm_compute; reflexivity |].
  split; vm_compute; reflexivity.
Qed.


(** C8, as the code has it.  A request to the custom-playlist endpoint
    whose prompt is empty or missing makes no call to the language model
    and no search, creation or population call: the only outbound events
    are those of the token checks (the refresh exchange with the platform
    and the write of the token file).  The answer is 401 when the
    middleware's token check fails, 500 when the handler's own check fails,
    and the 400 "Prompt is required" when both pass.  With a stored token
    that stays outside the 5-minute margin nothing at all is called and the
    answer is 400. *)
Theorem C8_empty_prompt_only_token_checks :
  forall (W : Type) (P : Platform W) (req : HttpRequest) (st : St W),
    path req = js "/create-custom-playlist" ->
    promptMissing (prompt req) = true ->
    exists resp st2 evs,
      serveCreateCustomPlaylist P req st = (Ok resp, st2) /\
      trace st2 = trace st ++ evs /\
      Forall isTokenEvent evs /\
      Forall (fun ev => isLanguageModelCall ev = false) evs /\
      match refreshTokenIfNeeded P st with
      | (Throw _, _) => status resp = 401
      | (Ok _, st1) =>
          match refreshTokenIfNeeded P st1 with
          | (Ok _, _) =>
              resp = mkResponse 400 (BText (js "Prompt is required"))
          | (Throw _, _) => status resp = 500
          end
      end /\
      (forall td,
          tokenFile st = Some td ->
          (forall w, fst (dateNow P w) <= expires_at td - 300000) ->
          evs = [] /\
          resp = mkResponse 400 (BText (js "Prompt is required"))).
Proof.
  intros W P req st Hpath Hprompt.
  unfold serveCreateCustomPlaylist, tokenMiddleware. rewrite Hpath.
  cbn [jsstring_eqb negb andb].
  change (negb (jsstring_eqb (js "/create-custom-playlist") (js "/login")) &&
          negb (jsstring_eqb (js "/create-custom-playlist") (js "/callback")))
    with true.
  cbv iota.
  assert (Hhandler :
    forall s, exists resp s2 evs,
      createCustomPlaylist P req s = (Ok resp, s2) /\
      trace s2 = trace s ++ evs /\ Forall isTokenEvent evs /\
      match refreshTokenIfNeeded P s with
      | (Ok _, s1) =>
          resp = mkResponse 400 (BText (js "Prompt is required")) /\ s2 = s1
      | (Throw _, s1) => status resp = 500 /\ s2 = s1
      end).
  { intros s. unfold createCustomPlaylist, catch, bind. rewrite Hprompt.
    destruct (emits_refreshTokenIfNeeded P s) as [evs [Ht Hq]].
    destruct (refreshTokenIfNeeded P s) as [[[] | e] s1]; cbn [snd] in Ht;
      eexists _, _, evs; (split; [reflexivity |]);
      (split; [exact Ht |]); (split; [exact Hq |]); split; reflexivity. }
  assert (Htok : forall evs, Forall isTokenEvent evs ->
                 Forall (fun ev => isLanguageModelCall ev = false) evs).
  { intros evs H. eapply Forall_impl; [| exact H].
    intros ev. destruct ev; simpl; intros Hev; try reflexivity; contradiction. }
  destruct (emits_refreshTokenIfNeeded P st) as [evs1 [Ht1 Hq1]].
  destruct (refreshTokenIfNeeded P st) as [[[] | e] st1] eqn:Hfirst;
    cbn [snd] in Ht1.
  - destruct (Hhandler st1) as [resp [s2 [evs2 [Hh [Ht2 [Hq2 Hm]]]]]].
    exists resp, s2, (evs1 ++ evs2).
    split; [exact Hh |].
    split; [rewrite Ht2, Ht1, app_assoc; reflexivity |].
    split; [now apply Forall_app |].
    split; [apply Htok; now apply Forall_app |].
    split.
    + destruct (refreshTokenIfNeeded P st1) as [[[] | e] s3];
        destruct Hm as [Hm _]; exact Hm.
    + intros td Hfile Hclock.
      destruct (dateNow P (world st)) as [t w1] eqn:Hnow.
      pose proof (Hclock (world st)) as Hc. rewrite Hnow in Hc. cbn in Hc.
      rewrite (TokenFacts.refresh_outside_margin P st Hfile Hnow Hc)
        in Hfirst.
      injection Hfirst as <-.
      cbn [trace] in Ht1.
      assert (evs1 = []) as ->.
      { apply app_inv_head with (l := trace st).
        rewrite List.app_nil_r. symmetry. exact Ht1. }
      destruct (dateNow P w1) as [t' w2] eqn:Hnow'.
      pose proof (Hclock w1) as Hc'. rewrite Hnow' in Hc'. cbn in Hc'.
      match type of Hm with
      | match refreshTokenIfNeeded P ?s with _ => _ end =>
          rewrite (@TokenFacts.refresh_outside_margin W P s td t' w2
                     Hfile Hnow' Hc') in Hm
      end.
      destruct Hm as [-> ->]. cbn [trace] in Ht2.
      assert (evs2 = []) as ->.
      { apply app_inv_head with (l := trace st).
        rewrite List.app_nil_r. symmetry. exact Ht2. }
      split; reflexivity.
  - eexists _, st1, evs1.
    split; [reflexivity |]. split; [exact Ht1 |]. split; [exact Hq1 |].
    split; [now apply Htok |]. split; [reflexivity |].
    intros td Hfile Hclock.
    destruct (dateNow P (world st)) as [t w1] eqn:Hnow.
    pose proof (Hclock (world st)) as Hc. rewrite Hnow in Hc. cbn in Hc.
    rewrite (TokenFacts.refresh_outside_margin P st Hfile Hnow Hc) in Hfirst.
    discriminate.
Qed.

Lemma C8_witness :
  exists st2,
    serveCreateCustomPlaylist Scenario.demo
      (mkHttpRequest (js "/create-custom-playlist") (Some []))
      (Scenario.loggedIn 5000000) =
    (Ok (mkResponse 400 (BText (js "Prompt is required"))), st2) /\
    trace st2 = [].
Proof.
  destruct (@C8_empty_prompt_only_token_checks nat Scenario.demo
              (mkHttpRequest (js "/create-custom-playlist") (Some []))
              (Scenario.loggedIn 5000000) eq_refl eq_refl)
    as [resp [st2 [evs [H1 [H2 [_ [_ [_ H3]]]]]]]].
  destruct (H3 (Scenario.stored 5000000) eq_refl) as [-> ->].
  { intros w. simpl. lia. }
  exists st2. split; [exact H1 | exact H2].
Defined.

(** C8 as the specification words it fails twice.  With the stored token
    inside the 5-minute margin, the empty prompt still gets its 400, but the
    refresh exchange with the platform was made before it; and without a
    stored token the answer is 401, not 400. *)
Lemma C8_counterexample :
  (let run :=
     serveCreateCustomPlaylist Scenario.demo
       (mkHttpRequest (js "/create-custom-playlist") (Some []))
       (Scenario.loggedIn 1200000) in
   fst run = Ok (mkResponse 400 (BText (js "Prompt is required"))) /\
   trace (snd run) =
     [ERefreshAccessToken (Some (js "the-refresh-token"));
      EWriteTokenFile
        (mkTokenData (js "fresh") (js "the-refresh-token") 4600000)] /\
   existsb isPlatformCall (trace (snd run)) = true) /\
  (let run :=
     serveCreateCustomPlaylist Scenario.demo
       (mkHttpRequest (js "/create-custom-playlist") None)
       (Scenario.start 0%nat) in
   fst run =
     Ok (mkResponse 401
           (BText (js "Authentication required. Please log in again.")))).
Proof. repeat split. Qed.

(** C9 at the failing input.  The language model proposes a playlist whose
    name has 101 characters and whose description has surrounding blanks.
    The bulk flow creates it under the first 100 characters of the name and
    the trimmed description; the custom-prompt flow creates it under the
    name and the description as proposed. *)
Theorem C9_custom_flow_creates_unsanitized :
  length (name Scenario.proposed) = 101%nat /\
  filter isCreatePlaylist
    (trace (snd (previewStep Scenario.demo Scenario.proposed ([], [])
                   (Scenario.start 0%nat)))) =
    [ECreatePlaylist (repeat 97%N 100) (js "described")] /\
  filter isCreatePlaylist
    (trace (snd (createCustomPlaylist Scenario.demo
                   (mkHttpRequest (js "/create-custom-playlist")
                                  (Some (js "rock")))
                   (Scenario.loggedIn 5000000)))) =
    [ECreatePlaylist (repeat 97%N 101) (js "  described  ")].
Proof. vm_compute. repeat split. Qed.

End FlowClaims.

(* ===================================================================== *)
(** * Further properties: the backoff wrapper and the queue *)
(* ===================================================================== *)

Module BackoffMore.
Import Utils Policy Measures UtilsFacts.

Section Schedule.
Context {W A : Type}.
Variable fn : M W A.
Variable ev : Event.
Variables (maxRetries : nat) (initialDelay : Z).

Lemma backoff_loop_schedule k :
  alwaysLimited fn ev ->
  1 <= initialDelay ->
  initialDelay * 2 ^ Z.of_nat maxRetries < 2 ^ 53 ->
  forall retries st,
    (retries + k = maxRetries)%nat ->
    exists e st1,
      backoff_loop fn maxRetries initialDelay retries st = (Throw e, st1) /\
      tooManyRequests e /\
      trace st1 = trace st ++ retrySchedule ev initialDelay retries k.
Proof.
  intros Hfn Hd Hb. induction k as [| k IH]; intros retries st Hk;
    rewrite backoff_loop_unfold;
    destruct (Hfn st) as [e [s1 [Hcall [Ht [Hh Htr]]]]]; rewrite Hcall.
  - destruct (shouldRetry maxRetries e retries) eqn:Hs.
    + apply shouldRetry_true in Hs. destruct Hs as [_ Hs]. lia.
    + exists e, s1. split; [reflexivity |]. split; [assumption |].
      exact Htr.
  - assert (Hs : shouldRetry maxRetries e retries = true)
      by (apply shouldRetry_true; split; [assumption | lia]).
    assert (Hexact : initialDelay * 2 ^ Z.of_nat retries < 2 ^ 53).
    { assert (2 ^ Z.of_nat retries <= 2 ^ Z.of_nat maxRetries)
        by (apply Z.pow_le_mono_r; lia).
      nia. }
    rewrite Hs, (retryDelay_no_hint initialDelay retries Ht Hh),
      (doubled_delay retries Hd Hexact).
    destruct (IH (S retries)
                (emit (ESetTimeout
                         (Num (initialDelay * 2 ^ Z.of_nat retries))) s1))
      as [e' [st1 [Hloop [Ht' Htr']]]]; [lia |].
    exists e', st1. split; [exact Hloop |]. split; [assumption |].
    rewrite Htr'. cbn [emit trace]. rewrite Htr, <- !app_assoc.
    unfold retrySchedule. cbn [seq flat_map app doubling]. reflexivity.
Qed.

Lemma retrySchedule_calls k :
  isCall ev = true ->
  forall first,
    length (filter isCall (retrySchedule ev initialDelay first k)) = S k.
Proof.
  intros Hev. unfold retrySchedule.
  induction k as [| k IH]; intros first; cbn [seq flat_map filter app].
  - rewrite Hev. reflexivity.
  - specialize (IH (S first)). cbn [filter isCall doubling] in *.
    rewrite Hev in *. cbn [length] in *. now rewrite IH.
Qed.

Lemma retrySchedule_delay k :
  isCall ev = true ->
  forall first,
    totalDelay (retrySchedule ev initialDelay first k) =
    initialDelay * 2 ^ Z.of_nat first * (2 ^ Z.of_nat k - 1).
Proof.
  intros Hev.
  assert (Hskip : forall l, totalDelay (ev :: l) = totalDelay l)
    by (intros l; destruct ev; try discriminate; reflexivity).
  unfold retrySchedule.
  induction k as [| k IH]; intros first; cbn [seq flat_map app].
  - rewrite Hskip. cbn. lia.
  - rewrite Hskip. unfold doubling at 1.
    change (totalDelay (ESetTimeout (Num (initialDelay * 2 ^ Z.of_nat first))
                          :: ?l))
      with (initialDelay * 2 ^ Z.of_nat first + totalDelay l).
    rewrite IH.
    rewrite !Nat2Z.inj_succ, !Z.pow_succ_r by lia. lia.
Qed.

End Schedule.

(** X1.  For a retry bound [m] and an initial delay [d >= 1] with
    [d * 2^m] below 2^53 (so that the doubled delays are exact), a unit
    that is rate limited at every call and gives no retry-after hint is
    called exactly [m + 1] times: the trace is the unit's call, then for
    each retry a wait of [d], [2d], ..., [2^(m-1) d] ms followed by the
    call again, which adds up to [d (2^m - 1)] ms of waiting, and the
    wrapper hands on a rate-limit failure.  With [m = 0] the unit is called
    once and nothing is waited for. *)
Theorem X1_exhaustion_schedule :
  forall (W A : Type) (fn : M W A) (ev : Event) (m : nat) (d : Z)
         (st : St W),
    alwaysLimited fn ev ->
    isCall ev = true ->
    1 <= d ->
    d * 2 ^ Z.of_nat m < 2 ^ 53 ->
    exists e st1,
      exponentialBackoff fn m d st = (Throw e, st1) /\
      tooManyRequests e /\
      trace st1 = trace st ++ retrySchedule ev d 0 m /\
      length (filter isCall (retrySchedule ev d 0 m)) = S m /\
      totalDelay (retrySchedule ev d 0 m) = d * (2 ^ Z.of_nat m - 1).
Proof.
  intros W A fn ev m d st Hfn Hev Hd Hb.
  destruct (@backoff_loop_schedule W A fn ev m d m Hfn Hd Hb 0%nat st eq_refl)
    as [e [st1 [Hloop [Ht Htr]]]].
  exists e, st1.
  split; [exact Hloop |]. split; [exact Ht |]. split; [exact Htr |].
  split; [now apply retrySchedule_calls |].
  rewrite retrySchedule_delay by assumption. cbn. lia.
Qed.

Lemma X1_witness :
  exists e st1,
    exponentialBackoff Scenario2.limitedUnit 3 10 (Scenario.start 0%nat) =
      (Throw e, st1) /\
    tooManyRequests e /\
    trace st1 =
      trace (Scenario.start 0%nat) ++
      retrySchedule (ECreatePlaylist (js "Busy") []) 10 0 3 /\
    length (filter isCall
              (retrySchedule (ECreatePlaylist (js "Busy") []) 10 0 3)) =
      4%nat /\
    totalDelay (retrySchedule (ECreatePlaylist (js "Busy") []) 10 0 3) =
      10 * (2 ^ Z.of_nat 3 - 1).
Proof.
  apply (@X1_exhaustion_schedule nat jsstring Scenario2.limitedUnit
           (ECreatePlaylist (js "Busy") []) 3 10 (Scenario.start 0%nat)).
  - intros s. exists (Scenario.tooMany []), (withWorld
      (emit (ECreatePlaylist (js "Busy") []) s) (S (world s))).
    repeat split.
  - reflexivity.
  - lia.
  - reflexivity.
Defined.

Lemma parseInt_letter c rest :
  isLetter c -> parseInt (c :: rest) = NaN.
Proof.
  intros Hc. unfold parseInt, isLetter in *.
  assert (Hws : isWhiteSpace c = false).
  { unfold isWhiteSpace.
    repeat match goal with
           | |- context [(?a =? ?b)%N] =>
               destruct (N.eqb_spec a b); [lia |]
           end.
    destruct (N.leb_spec 8192 c); [lia | reflexivity]. }
  cbn [trimStart]. rewrite Hws. cbv zeta.
  assert (H45 : (c =? 45)%N = false) by (apply N.eqb_neq; lia).
  assert (H43 : (c =? 43)%N = false) by (apply N.eqb_neq; lia).
  assert (H48 : (c =? 48)%N = false) by (apply N.eqb_neq; lia).
  rewrite H45, H43. cbn [orb]. cbv iota.
  assert (Hhex :
    match c :: rest with
    | c1 :: c2 :: _ => ((c1 =? 48) && ((c2 =? 120) || (c2 =? 88)))%N
    | _ => false
    end = false).
  { destruct rest; [reflexivity |]. rewrite H48. reflexivity. }
  rewrite Hhex. cbn [parseDigits]. unfold digitValue.
  destruct ((48 <=? c) && (c <=? 57))%N eqn:Hd.
  { apply andb_prop in Hd. destruct Hd as [H1 H2].
    apply N.leb_le in H1, H2. lia. }
  destruct ((97 <=? c) && (c <=? 122))%N eqn:Hl.
  { apply andb_prop in Hl. destruct Hl as [H1 H2].
    apply N.leb_le in H1, H2.
    destruct (N.ltb_spec (c - 97 + 10) 10); [lia | reflexivity]. }
  destruct ((65 <=? c) && (c <=? 90))%N eqn:Hu.
  { apply andb_prop in Hu. destruct Hu as [H1 H2].
    apply N.leb_le in H1, H2.
    destruct (N.ltb_spec (c - 65 + 10) 10); [lia | reflexivity]. }
  reflexivity.
Qed.

(** X2.  A retry-after hint that starts with a letter, as the HTTP-date
    form of the header does, is not read as a number: the wrapper asks the
    timer for a [NaN] delay and then retries as after any other wait. *)
Theorem X2_date_hint_waits_nan :
  forall (W A : Type) (fn : M W A) (st st1 : St W) hdrs msg c rest,
    fn st = (Throw (WebapiError 429 hdrs msg), st1) ->
    lookup (js "retry-after") hdrs = Some (c :: rest) ->
    isLetter c ->
    exponentialBackoff fn 5 1000 st =
    backoff_loop fn 5 1000 1 (emit (ESetTimeout NaN) st1).
Proof.
  intros W A fn st st1 hdrs msg c rest Hfn Hh Hc.
  unfold exponentialBackoff. rewrite backoff_loop_unfold, Hfn.
  cbn [shouldRetry statusCodeOf]. cbn [Z.eqb Pos.eqb Nat.ltb Nat.leb andb].
  cbn [retryDelay]. rewrite Hh. cbn [truthy_string].
  rewrite (parseInt_letter rest Hc). reflexivity.
Qed.

Lemma X2_witness :
  firstn 2 (trace (snd (exponentialBackoff Scenario2.datedUnit 5 1000
                          (Scenario.start 0%nat)))) =
  [ESetTimeout NaN; ESetTimeout NaN].
Proof.
  rewrite (@X2_date_hint_waits_nan nat nat Scenario2.datedUnit
             (Scenario.start 0%nat)
             (withWorld (Scenario.start 0%nat) 1%nat)
             [(js "retry-after", js "Wed, 21 Oct 2015 07:28:00 GMT")]
             (js "Too Many Requests") 87%N
             (js "ed, 21 Oct 2015 07:28:00 GMT") eq_refl eq_refl).
  - reflexivity.
  - unfold isLetter. lia.
Defined.

End BackoffMore.

Module QueueMore.
Import RequestQueue Observations QueueFacts.

(** X3.  In every state the queue can reach, each unit ever added is in
    exactly one place: settled, executing, or waiting in the queue, in
    ticket order; no promise is settled twice and none is dropped. *)
Theorem X3_units_conserved :
  forall (W A : Type) (st0 : St W) (steps : list (@Step W A)) q,
    run steps (empty st0) = Some q ->
    map fst (promises q) ++ inflight q ++ map ticket (queue q) =
      seq 0 (nextTicket q) /\
    NoDup (map fst (promises q)).
Proof.
  intros W A st0 steps q Hrun.
  assert (Hinv : inv q) by (eapply inv_run; [apply inv_empty | exact Hrun]).
  destruct Hinv as [_ [Hf1 Hf2]].
  assert (Hall : map fst (promises q) ++ inflight q ++ map ticket (queue q) =
                 seq 0 (nextTicket q))
    by (rewrite app_assoc, Hf2; exact Hf1).
  split; [exact Hall |].
  pose proof (seq_NoDup (nextTicket q) 0) as Hnd.
  rewrite <- Hall in Hnd.
  apply NoDup_app_remove_r in Hnd. exact Hnd.
Qed.

Lemma X3_witness :
  exists q,
    run [DoAdd (Scenario.okUnit 1); DoAdd Scenario.failingUnit;
         DoAdd (Scenario.okUnit 3); DoSettle 0; DoTimer 0]
        (empty (Scenario.start 0%nat)) = Some q /\
    map fst (promises q) = [0%nat] /\ inflight q = [1%nat] /\
    map ticket (queue q) = [2%nat] /\
    NoDup (map fst (promises q)).
Proof.
  eexists. split; [reflexivity |]. repeat (split; [reflexivity |]).
  apply (@X3_units_conserved nat nat (Scenario.start 0%nat)
           [DoAdd (Scenario.okUnit 1); DoAdd Scenario.failingUnit;
            DoAdd (Scenario.okUnit 3); DoSettle 0; DoTimer 0]).
  reflexivity.
Defined.

(** X4.  In every state the queue can reach, a unit waiting in the queue
    has a live worker, and when no worker is live every unit ever added has
    been settled.  The wait for a unit has no timeout: as long as the unit
    the worker awaits has not settled, adding units, however many, starts
    and settles nothing; they pile up behind it in the order they were
    added. *)
Theorem X4_no_stranded_unit :
  forall (W A : Type) (st0 : St W) (steps : list (@Step W A)) q,
    run steps (empty st0) = Some q ->
    (queue q <> [] -> isProcessing q = true /\ workers q <> []) /\
    (isProcessing q = false ->
     map fst (promises q) = seq 0 (nextTicket q)) /\
    (forall request fns,
        workers q = [AwaitRequest request] ->
        exists q1,
          run (map DoAdd fns) q = Some q1 /\
          workers q1 = [AwaitRequest request] /\
          promises q1 = promises q /\
          started (qlog q1) = started (qlog q) /\
          env q1 = env q /\
          map unit_fn (queue q1) = map unit_fn (queue q) ++ fns).
Proof.
  intros W A st0 steps q Hrun.
  assert (Hinv : inv q) by (eapply inv_run; [apply inv_empty | exact Hrun]).
  destruct Hinv as [Hw [Hf1 Hf2]].
  assert (Hblocked :
    forall request fns,
      workers q = [AwaitRequest request] ->
      isProcessing q = true ->
      exists q1,
        run (map DoAdd fns) q = Some q1 /\
        workers q1 = [AwaitRequest request] /\
        promises q1 = promises q /\
        started (qlog q1) = started (qlog q) /\
        env q1 = env q /\
        map unit_fn (queue q1) = map unit_fn (queue q) ++ fns).
  { intros request fns Hws Hp. eexists.
    split; [apply (adds_busy fns q Hp) |].
    cbn [workers promises qlog env queue].
    split; [exact Hws |]. split; [reflexivity |]. split; [reflexivity |].
    split; [reflexivity |].
    rewrite map_app. f_equal.
    apply (requests_tickets fns (nextTicket q)). }
  destruct Hw as [[Hp [Hws [Hq Hl]]] | [[Hp [r [Hws Hl]]] | [Hp [Hws Hl]]]].
  - split; [intros H; congruence |].
    split.
    + intros _. unfold inflight in Hf2. rewrite Hws in Hf2. cbn in Hf2.
      rewrite Hq in Hf1. cbn in Hf1.
      rewrite List.app_nil_r in Hf1, Hf2. congruence.
    + intros request fns H. rewrite Hws in H. discriminate.
  - split; [intros _; split; [assumption | rewrite Hws; discriminate] |].
    split; [intros H; congruence |].
    intros request fns H. now apply Hblocked.
  - split; [intros _; split; [assumption | rewrite Hws; discriminate] |].
    split; [intros H; congruence |].
    intros request fns H. now apply Hblocked.
Qed.

Lemma X4_witness :
  exists q,
    run [DoAdd (Scenario.okUnit 1); DoAdd Scenario.failingUnit;
         DoSettle 0; DoTimer 0; DoSettle 0; DoTimer 0]
        (empty (Scenario.start 0%nat)) = Some q /\
    isProcessing q = false /\
    map fst (promises q) = seq 0 (nextTicket q).
Proof.
  eexists. split; [reflexivity |]. split; [reflexivity |].
  apply (@X4_no_stranded_unit nat nat (Scenario.start 0%nat)
           [DoAdd (Scenario.okUnit 1); DoAdd Scenario.failingUnit;
            DoSettle 0; DoTimer 0; DoSettle 0; DoTimer 0]);
    reflexivity.
Defined.

(** X5.  Units added together to an idle queue and then left to the
    worker run one after the other in the order they were added: each
    caller's promise is settled with the outcome its unit has when the units
    are awaited one by one in that order, the world ends as after that
    sequence, and the queue is idle and empty again. *)
Theorem X5_added_together_run_in_order :
  forall (W A : Type) (fn : M W A) (fns : list (M W A)) (st : St W),
    exists q,
      run (map DoAdd (fn :: fns) ++ drain (S (length fns))) (empty st)
        = Some q /\
      promises q =
        combine (seq 0 (S (length fns))) (fst (awaitAll (fn :: fns) st)) /\
      env q = snd (awaitAll (fn :: fns) st) /\
      isProcessing q = false /\
      queue q = [].
Proof.
  intros W A fn fns st. apply adds_then_drain.
Qed.

End QueueMore.

(* ===================================================================== *)
(** * Further properties: track resolution and population *)
(* ===================================================================== *)

Module ResolverMore.
Import Index RequestQueue Observations Measures ResolverFacts FlowFacts.

Lemma ceil20_step n :
  (0 < n)%nat -> ((n + 19) / 20 = S ((n - 20 + 19) / 20))%nat.
Proof.
  intros Hn. destruct (Nat.le_gt_cases 20 n) as [Hle | Hlt].
  - replace (n + 19)%nat with ((n - 20 + 19) + 1 * 20)%nat by lia.
    rewrite Nat.div_add by lia. lia.
  - replace (n - 20 + 19)%nat with 19%nat by lia.
    replace (n + 19)%nat with ((n - 1) + 1 * 20)%nat by lia.
    rewrite Nat.div_add by lia.
    rewrite (Nat.div_small (n - 1) 20) by lia. reflexivity.
Qed.

Lemma batchLoop_length {X} (songs : list X) n :
  forall i batches,
    (length songs - i <= n)%nat ->
    length (batchLoop songs i batches) =
    (length batches + (length songs - i + 19) / 20)%nat.
Proof.
  induction n as [| n IH]; intros i batches Hn;
    rewrite batchLoop_unfold;
    destruct (Nat.ltb_spec i (length songs)) as [Hlt | Hge]; try lia.
  - replace (length songs - i)%nat with 0%nat by lia. cbn. lia.
  - rewrite IH by (unfold batchSize; lia).
    rewrite length_app. cbn [length].
    rewrite (@ceil20_step (length songs - i)) by lia.
    unfold batchSize. replace (length songs - (i + 20))%nat
      with (length songs - i - 20)%nat by lia. lia.
  - replace (length songs - i)%nat with 0%nat by lia. cbn. lia.
Qed.

Lemma makeBatches_length (songs : list Song) :
  length (makeBatches songs) = ((length songs + 19) / 20)%nat.
Proof.
  unfold makeBatches.
  rewrite (@batchLoop_length _ songs (length songs)) by lia.
  cbn [length]. now rewrite Nat.sub_0_r.
Qed.

Lemma makeBatches_concat (songs : list Song) :
  concat (makeBatches songs) = songs.
Proof.
  unfold makeBatches.
  rewrite (@batchLoop_concat _ songs (length songs)) by lia. reflexivity.
Qed.

(** X6.  Track resolution never fails and never backs off, whatever the
    platform answers (rate-limit failures included): every song costs one
    to three lookups, no lookup is repeated after a wait, and the only
    timers are the 50 ms pauses of the queue's worker, one per started
    block of 20 songs. *)
Theorem X6_resolution_budget :
  forall (W : Type) (P : Platform W) (songs : list Song) (st : St W),
    exists uris st1 evs,
      findTrackUris P songs st = (Ok uris, st1) /\
      trace st1 = trace st ++ evs /\
      Forall isLookupOrPacing evs /\
      (length songs <= lookupCount evs <= 3 * length songs)%nat /\
      length (filter isTimer evs) = ((length songs + 19) / 20)%nat.
Proof.
  intros W P songs st.
  destruct (FlowFacts.findTrackUris_run P songs st)
    as [uris [st1 [evs [H [_ [Ht [Hq [Hc Hn]]]]]]]].
  exists uris, st1, evs. rewrite makeBatches_length in Hn.
  repeat split; try assumption; lia.
Qed.

(** X7.  When [Math.floor(Math.random() * m)] is below [m], a song that
    is resolved through the artist fallback gets one of the first five of
    the top tracks the platform returns, on market US, for the first artist
    of the artist search. *)
Theorem X7_fallback_picks_among_first_five :
  forall (W : Type) (P : Platform W) (song : Song) (st st1 : St W) u,
    randomInRange P ->
    artistFallback P song st = (Ok (Some u), st1) ->
    exists a rest w1 top w2,
      searchArtists P (artist song) (world st) =
        (Ok (mkSearchArtistsBody (Some (a :: rest))), w1) /\
      getArtistTopTracks P (artist_id a) (js "US") w1 = (Ok top, w2) /\
      In u (map uri (firstn 5 (top_tracks top))).
Proof.
  intros W P song st st1 u Hr H.
  unfold artistFallback, bind, call, random, ret, throw in H.
  destruct (searchArtists P (artist song) (world st))
    as [[[found] | e] w1] eqn:Hs;
    cbn [withWorld emit world trace artists] in H; [| discriminate].
  destruct (foundCondition found); [| discriminate].
  destruct found as [[| a rest] |];
    cbn [nth_error withWorld emit world trace] in H; try discriminate.
  destruct (getArtistTopTracks P (artist_id a) (js "US") w1)
    as [[top | e] w2] eqn:Ht;
    cbn [withWorld emit world trace] in H; [| discriminate].
  destruct (Nat.ltb_spec 0 (length (top_tracks top))) as [Hlen | Hlen];
    [| discriminate].
  cbn [withWorld emit world trace] in H.
  pose proof (Hr (Nat.min 5 (length (top_tracks top))) w2 ltac:(lia)) as Hi.
  destruct (mathRandomIndex P (Nat.min 5 (length (top_tracks top))) w2)
    as [i w3]. cbn [fst] in Hi.
  cbn [withWorld emit world trace] in H.
  destruct (nth_error (top_tracks top) i) as [t |] eqn:Hn; [| discriminate].
  injection H as Hu _. subst u.
  exists a, rest, w1, top, w2.
  repeat split; try assumption. apply in_map.
  rewrite <- (firstn_skipn 5 (top_tracks top)) in Hn.
  rewrite nth_error_app1 in Hn by (rewrite length_firstn; lia).
  eapply nth_error_In; eassumption.
Qed.

Lemma X7_witness :
  exists a rest w1 top w2,
    searchArtists Scenario.demo (artist Scenario.bSide) 0%nat =
      (Ok (mkSearchArtistsBody (Some (a :: rest))), w1) /\
    getArtistTopTracks Scenario.demo (artist_id a) (js "US") w1 =
      (Ok top, w2) /\
    In (js "uri:top0") (map uri (firstn 5 (top_tracks top))).
Proof.
  apply (@X7_fallback_picks_among_first_five nat Scenario.demo Scenario.bSide
           (Scenario.start 0%nat)
           (snd (artistFallback Scenario.demo Scenario.bSide
                   (Scenario.start 0%nat)))).
  - intros m w Hm. exact Hm.
  - reflexivity.
Defined.

End ResolverMore.

Module PopulationMore.
Import Index RequestQueue Observations Measures ResolverFacts.

Lemma ceil100_step n :
  (0 < n)%nat -> ((n + 99) / 100 = S ((n - 100 + 99) / 100))%nat.
Proof.
  intros Hn. destruct (Nat.le_gt_cases 100 n) as [Hle | Hlt].
  - replace (n + 99)%nat with ((n - 100 + 99) + 1 * 100)%nat by lia.
    rewrite Nat.div_add by lia. lia.
  - replace (n - 100 + 99)%nat with 99%nat by lia.
    replace (n + 99)%nat with ((n - 1) + 1 * 100)%nat by lia.
    rewrite Nat.div_add by lia.
    rewrite (Nat.div_small (n - 1) 100) by lia. reflexivity.
Qed.

Section Population.
Context {W : Type}.
Variable P : Platform W.

Lemma addTracksLoop_unfold playlistId (validTrackUris : list jsstring) i :
  addTracksLoop P playlistId validTrackUris i =
  if (i <? length validTrackUris)%nat
  then bind (addAwait
               (call (EAddTracksToPlaylist playlistId
                        (slice i (i + 100) validTrackUris))
                     (addTracksToPlaylist P playlistId
                        (slice i (i + 100) validTrackUris))))
            (fun _ => addTracksLoop P playlistId validTrackUris (i + 100)%nat)
  else ret tt.
Proof.
  rewrite addTracksLoop_equation_1. unfold addTracksLoop_unfold_clause_1.
  destruct (Utils.decide (i <? length validTrackUris)%nat) as [H | H]; simpl;
    (etransitivity; [ | symmetry; rewrite H; reflexivity ]); reflexivity.
Qed.

Hypothesis accepts : populationSucceeds P.

Lemma addTracksLoop_chunks playlistId (uris : list jsstring) n :
  forall i st,
    (length uris - i <= n)%nat ->
    exists st1 evs,
      addTracksLoop P playlistId uris i st = (Ok tt, st1) /\
      trace st1 = trace st ++ evs /\
      addedUris evs = skipn i uris /\
      Forall (isChunkFor playlistId) evs /\
      length (filter isAddTracks evs) = ((length uris - i + 99) / 100)%nat.
Proof.
  induction n as [| n IH]; intros i st Hn;
    rewrite addTracksLoop_unfold;
    destruct (Nat.ltb_spec i (length uris)) as [Hlt | Hge]; try lia.
  - exists st, []. rewrite List.app_nil_r, skipn_all2 by lia.
    replace (length uris - i)%nat with 0%nat by lia.
    repeat split. constructor.
  - unfold bind at 1.
    destruct (accepts playlistId (slice i (i + 100) uris) (world st))
      as [w1 Hw].
    rewrite (@addAwait_ok W unit _ st tt
               (withWorld
                  (emit (EAddTracksToPlaylist playlistId
                           (slice i (i + 100) uris)) st) w1))
      by (unfold call; now rewrite Hw).
    match goal with
    | |- context [addTracksLoop P playlistId uris (i + 100) ?s] =>
        destruct (IH (i + 100)%nat s ltac:(lia))
          as [st1 [evs [H [Ht [Ha [Hq Hc]]]]]]
    end.
    exists st1,
      ([EAddTracksToPlaylist playlistId (slice i (i + 100) uris);
        ESetTimeout (Num 50)] ++ evs).
    split; [exact H |].
    split.
    { rewrite Ht. cbn [emit withWorld trace]. rewrite <- !app_assoc.
      reflexivity. }
    split.
    { unfold addedUris in *. cbn [flat_map app]. rewrite Ha.
      unfold slice. replace (i + 100 - i)%nat with 100%nat by lia.
      rewrite <- (firstn_skipn 100 (skipn i uris)) at 2.
      rewrite skipn_skipn. f_equal. f_equal. lia. }
    split.
    { constructor; [| constructor; [reflexivity | assumption]].
      split; [reflexivity |]. unfold slice.
      rewrite length_firstn, length_skipn. lia. }
    cbn [app filter isAddTracks length]. rewrite Hc.
    rewrite (@ceil100_step (length uris - i)) by lia.
    replace (length uris - (i + 100))%nat
      with (length uris - i - 100)%nat by lia. reflexivity.
  - exists st, []. rewrite List.app_nil_r, skipn_all2 by lia.
    replace (length uris - i)%nat with 0%nat by lia.
    repeat split. constructor.
Qed.

End Population.

(** X8.  On a platform that accepts every population call, the bulk
    flow's population loop hands over every identifier exactly once and in
    order, in calls of at most 100 identifiers for the playlist just
    created, one call per started block of 100, each followed by the 50 ms
    pause of the queue's worker. *)
Theorem X8_population_in_chunks :
  forall (W : Type) (P : Platform W) playlistId (uris : list jsstring)
         (st : St W),
    populationSucceeds P ->
    exists st1 evs,
      addTracksLoop P playlistId uris 0 st = (Ok tt, st1) /\
      trace st1 = trace st ++ evs /\
      addedUris evs = uris /\
      Forall (isChunkFor playlistId) evs /\
      length (filter isAddTracks evs) = ((length uris + 99) / 100)%nat.
Proof.
  intros W P playlistId uris st Hacc.
  destruct (@addTracksLoop_chunks W P Hacc playlistId uris (length uris)
              0%nat st ltac:(lia))
    as [st1 [evs [H [Ht [Ha [Hq Hc]]]]]].
  exists st1, evs. rewrite Nat.sub_0_r in Hc.
  repeat split; assumption.
Qed.

Lemma X8_witness :
  exists st1 evs,
    addTracksLoop Scenario.demo (js "p1") (repeat (js "u") 250) 0
      (Scenario.start 0%nat) = (Ok tt, st1) /\
    trace st1 = trace (Scenario.start 0%nat) ++ evs /\
    addedUris evs = repeat (js "u") 250 /\
    Forall (isChunkFor (js "p1")) evs /\
    length (filter isAddTracks evs) =
      ((length (repeat (js "u") 250) + 99) / 100)%nat.
Proof.
  apply (@X8_population_in_chunks nat Scenario.demo (js "p1")
           (repeat (js "u") 250) (Scenario.start 0%nat)).
  intros id uris w. exists (S w). reflexivity.
Defined.

End PopulationMore.

(* ===================================================================== *)
(** * Further properties: the bulk flow and the custom flow *)
(* ===================================================================== *)

Module FlowMore.
Import Index RequestQueue Observations Measures FlowFacts.

Lemma token_creates_nothing evs :
  Forall isTokenEvent evs -> Forall createsNothing evs.
Proof. apply Forall_impl. intros ev. destruct ev; simpl; tauto. Qed.

Lemma resolution_creates_nothing evs :
  Forall isResolution evs -> Forall createsNothing evs.
Proof. apply Forall_impl. intros ev. destruct ev; simpl; tauto. Qed.

Lemma token_custom embed uris evs :
  Forall isTokenEvent evs -> Forall (isCustomFlowWrite embed uris) evs.
Proof. apply Forall_impl. intros ev. destruct ev; simpl; tauto. Qed.

Lemma resolution_custom embed uris evs :
  Forall isResolution evs -> Forall (isCustomFlowWrite embed uris) evs.
Proof. apply Forall_impl. intros ev. destruct ev; simpl; tauto. Qed.

Lemma retried_custom embed uris ev evs :
  isCustomFlowWrite embed uris ev ->
  Forall (fun e => e = ev \/ isTimer e = true) evs ->
  Forall (isCustomFlowWrite embed uris) evs.
Proof.
  intros Hev. apply Forall_impl. intros e [-> | Ht]; [exact Hev |].
  destruct e; simpl in *; try discriminate; exact I.
Qed.

Section Flow.
Context {W : Type}.
Variable P : Platform W.

Lemma call_trace {R} ev (op : W -> Res R * W) st :
  trace (snd (call ev op st)) = trace st ++ [ev].
Proof. unfold call. destruct (op (world st)). reflexivity. Qed.

(** A call sent through the queue is made once at least; what follows are
    repetitions of the same call and timers. *)
Lemma addAwait_call_events {R} ev (op : W -> Res R * W) st :
  exists evs,
    trace (snd (addAwait (call ev op) st)) = trace st ++ ev :: evs /\
    Forall (fun e => e = ev \/ isTimer e = true) evs.
Proof.
  unfold addAwait, Utils.exponentialBackoff.
  rewrite UtilsFacts.backoff_loop_unfold.
  pose proof (call_trace ev op st) as Hc.
  assert (Hpause : Forall (fun e => e = ev \/ isTimer e = true)
                     [ESetTimeout (Num 50)])
    by (constructor; [now right | constructor]).
  destruct (call ev op st) as [[r | e] s1]; cbn [snd] in Hc.
  - exists [ESetTimeout (Num 50)]. cbn [snd emit trace].
    rewrite Hc, <- app_assoc. split; [reflexivity | exact Hpause].
  - destruct (Utils.shouldRetry 5 e 0).
    + destruct (Utils.retryDelay 1000 e 0) as [d | e'].
      * destruct (@emits_backoff_loop W R
                    (fun e => e = ev \/ isTimer e = true)
                    (call ev op) 5 1000 5
                    ltac:(apply emits_call; now left)
                    ltac:(intros d0; now right)
                    1%nat ltac:(lia) (emit (ESetTimeout d) s1))
          as [evs [Ht Hq]].
        destruct (Utils.backoff_loop (call ev op) 5 1000 1
                    (emit (ESetTimeout d) s1)) as [outcome s2].
        cbn [snd emit trace] in *.
        exists (ESetTimeout d :: evs ++ [ESetTimeout (Num 50)]).
        rewrite Ht, Hc, <- !app_assoc. split; [reflexivity |].
        constructor; [now right |]. now apply Forall_app.
      * exists [ESetTimeout (Num 50)]. cbn [snd emit trace].
        rewrite Hc, <- app_assoc. split; [reflexivity | exact Hpause].
    + exists [ESetTimeout (Num 50)]. cbn [snd emit trace].
      rewrite Hc, <- app_assoc. split; [reflexivity | exact Hpause].
Qed.

(** A success of the backoff wrapper is a success of the unit. *)
Lemma backoff_ok_answer {R} (fn : M W R) maxRetries initialDelay k :
  forall retries st a st1,
    (maxRetries - retries <= k)%nat ->
    Utils.backoff_loop fn maxRetries initialDelay retries st = (Ok a, st1) ->
    exists s s1, fn s = (Ok a, s1).
Proof.
  induction k as [| k IH]; intros retries st a st1 Hk;
    rewrite UtilsFacts.backoff_loop_unfold;
    destruct (fn st) as [[r | e] s1] eqn:Hfn;
    try (intros H; injection H as <- <-; now exists st, s1).
  - destruct (Utils.shouldRetry maxRetries e retries) eqn:Hs;
      [| discriminate].
    unfold Utils.shouldRetry in Hs. apply andb_prop in Hs.
    destruct Hs as [_ Hs]. apply Nat.ltb_lt in Hs. lia.
  - destruct (Utils.shouldRetry maxRetries e retries) eqn:Hs;
      [| discriminate].
    destruct (Utils.retryDelay initialDelay e retries) as [d | e'];
      [| discriminate].
    unfold Utils.shouldRetry in Hs. apply andb_prop in Hs.
    destruct Hs as [_ Hs]. apply Nat.ltb_lt in Hs.
    apply IH. lia.
Qed.

(** The value of a call that came through the queue is an answer of the
    operation called. *)
Lemma addAwait_call_answer {R} ev (op : W -> Res R * W) st a st1 :
  addAwait (call ev op) st = (Ok a, st1) ->
  exists w w1, op w = (Ok a, w1).
Proof.
  unfold addAwait, Utils.exponentialBackoff.
  destruct (Utils.backoff_loop (call ev op) 5 1000 0 st) as [outcome s1]
    eqn:Hloop.
  intros H. injection H as -> _.
  destruct (@backoff_ok_answer R (call ev op) 5 1000 5 0%nat st a s1
              ltac:(lia) Hloop) as [s [s2 Hcall]].
  unfold call in Hcall. destruct (op (world s)) as [r w1] eqn:Hop.
  injection Hcall as -> _. now exists (world s), w1.
Qed.

Lemma refresh_keeps_snapshot st :
  savedPlaylistsFile (snd (refreshTokenIfNeeded P st)) = savedPlaylistsFile st.
Proof.
  unfold refreshTokenIfNeeded, catch, bind, readTokenFile, now,
    setRefreshToken, refreshAccessTokenCall, call, writeTokenFile,
    setAccessToken, throw.
  repeat (case_inner;
          cbn [withWorld emit world trace tokenFile savedPlaylistsFile
               clientAccessToken clientRefreshToken]);
    reflexivity.
Qed.

Lemma emits_addTracksLoop (Q : Event -> Prop) playlistId uris n :
  (forall us, Q (EAddTracksToPlaylist playlistId us)) ->
  (forall d, Q (ESetTimeout d)) ->
  forall i,
    (length uris - i <= n)%nat ->
    emits Q (addTracksLoop P playlistId uris i).
Proof.
  intros Ha Hd. induction n as [| n IH]; intros i Hn;
    rewrite PopulationMore.addTracksLoop_unfold;
    destruct (Nat.ltb_spec i (length uris)) as [Hlt | Hge]; try lia;
    try apply emits_ret.
  apply emits_bind.
  - apply emits_addAwait; [apply emits_call, Ha | exact Hd].
  - intros _. apply IH. lia.
Qed.

Lemma emits_previewStep playlist acc :
  emits isBulkFlowEvent (previewStep P playlist acc).
Proof.
  destruct acc as [ids embeds]. unfold previewStep.
  apply emits_catch; [| intros e; apply emits_ret].
  apply emits_bind.
  { apply emits_weaken with (Q := isResolution);
      [| apply emits_findTrackUris].
    intros ev. destruct ev; simpl; tauto. }
  intros trackUris. cbv zeta.
  destruct (length (definedOnly trackUris) =? 0)%nat; [apply emits_ret |].
  apply emits_bind.
  { apply emits_addAwait; [now apply emits_call | intros d; exact I]. }
  intros newPlaylistId.
  apply emits_bind; [| intros _; apply emits_ret].
  apply emits_addTracksLoop with (n := length (definedOnly trackUris));
    [intros us; exact I | intros d; exact I | lia].
Qed.

Lemma emits_previewLoop playlists :
  forall acc, emits isBulkFlowEvent (previewLoop P playlists acc).
Proof.
  induction playlists as [| playlist rest IH]; intros acc; cbn [previewLoop].
  - apply emits_ret.
  - apply emits_bind; [apply emits_previewStep | intros acc1; apply IH].
Qed.

Lemma emits_refresh_bulk : emits isBulkFlowEvent (refreshTokenIfNeeded P).
Proof.
  apply emits_weaken with (Q := isTokenEvent);
    [| apply emits_refreshTokenIfNeeded].
  intros ev. destruct ev; simpl; tauto.
Qed.

Lemma emits_previewPlaylists : emits isBulkFlowEvent (previewPlaylists P).
Proof.
  unfold previewPlaylists, previewCreate.
  apply emits_catch; [| intros e; apply emits_ret].
  apply emits_bind.
  - apply emits_bind; [apply emits_refresh_bulk |]. intros _.
    apply emits_bind.
    + apply emits_silent. intros st. unfold readSavedPlaylists.
      destruct (savedPlaylistsFile st); reflexivity.
    + intros [playlists |]; [apply emits_previewLoop | apply emits_throw].
  - intros acc. destruct (length (snd acc) =? 0)%nat;
      [apply emits_throw | apply emits_ret].
Qed.

Lemma emits_tokenMiddleware (Q : Event -> Prop) req next :
  emits Q (refreshTokenIfNeeded P) -> emits Q next ->
  emits Q (tokenMiddleware P req next).
Proof.
  intros Hr Hn. unfold tokenMiddleware.
  destruct (negb (jsstring_eqb (path req) (js "/login")) &&
            negb (jsstring_eqb (path req) (js "/callback")));
    [| exact Hn].
  intros st. destruct (Hr st) as [evs [Ht Hq]].
  destruct (refreshTokenIfNeeded P st) as [[[] | e] s1]; cbn [snd] in *.
  - destruct (Hn s1) as [evs1 [Ht1 Hq1]].
    exists (evs ++ evs1). rewrite Ht1, Ht, app_assoc.
    split; [reflexivity | now apply Forall_app].
  - now exists evs.
Qed.

Lemma tokenMiddleware_answers req next :
  (forall st, exists resp st1, next st = (Ok resp, st1)) ->
  forall st, exists resp st1, tokenMiddleware P req next st = (Ok resp, st1).
Proof.
  intros Hn st. unfold tokenMiddleware.
  destruct (negb (jsstring_eqb (path req) (js "/login")) &&
            negb (jsstring_eqb (path req) (js "/callback")));
    [| apply Hn].
  destruct (refreshTokenIfNeeded P st) as [[[] | e] s1];
    [apply Hn | eexists _, _; reflexivity].
Qed.

Lemma previewPlaylists_answers st :
  exists resp st1, previewPlaylists P st = (Ok resp, st1).
Proof.
  destruct (FlowClaims.previewPlaylists_response P st)
    as [resp [st1 [H _]]].
  now exists resp, st1.
Qed.

(** Without a snapshot the handler answers 500 after its token check. *)
Lemma previewPlaylists_no_snapshot st :
  savedPlaylistsFile st = None ->
  exists resp st1 evs,
    previewPlaylists P st = (Ok resp, st1) /\ status resp = 500 /\
    trace st1 = trace st ++ evs /\ Forall isTokenEvent evs.
Proof.
  intros Hnone. unfold previewPlaylists, previewCreate, catch, bind.
  destruct (emits_refreshTokenIfNeeded P st) as [evs [Ht Hq]].
  pose proof (refresh_keeps_snapshot st) as Hk.
  destruct (refreshTokenIfNeeded P st) as [[[] | e] s1]; cbn [snd] in *.
  - unfold readSavedPlaylists. rewrite Hk, Hnone. cbn [ret].
    eexists _, s1, evs. repeat split; assumption.
  - cbn [ret]. eexists _, s1, evs. repeat split; assumption.
Qed.

(** A step of the bulk loop leaves the lists alone or adds the card of
    its playlist under an identifier the platform answered for it. *)
Lemma previewStep_card playlist acc st :
  exists acc1 st1,
    previewStep P playlist acc st = (Ok acc1, st1) /\
    (acc1 = acc \/
     exists id,
       acc1 = (fst acc ++ [id], snd acc ++ [embedOf playlist id]) /\
       createdFor P playlist id).
Proof.
  destruct acc as [ids embeds]. unfold previewStep, catch, bind.
  destruct (findTrackUris P (songs playlist) st) as [[uris | e] s1];
    [| eexists _, _; split; [reflexivity | now left]].
  cbv zeta.
  destruct (length (definedOnly uris) =? 0)%nat;
    [eexists _, _; split; [reflexivity | now left] |].
  match goal with
  | |- context [addAwait ?c s1] =>
      destruct (addAwait c s1) as [[id | e] s2] eqn:Hcreate
  end; [| eexists _, _; split; [reflexivity | now left]].
  apply addAwait_call_answer in Hcreate.
  destruct (addTracksLoop P id (definedOnly uris) 0 s2) as [[[] | e] s3];
    [| eexists _, _; split; [reflexivity | now left]].
  eexists _, _. split; [reflexivity |]. right. exists id.
  split; [reflexivity | exact Hcreate].
Qed.

Lemma previewLoop_cards playlists :
  forall acc st,
    exists ids embeds st1 kept,
      previewLoop P playlists acc st =
        (Ok (fst acc ++ ids, snd acc ++ embeds), st1) /\
      Subseq kept playlists /\
      Forall2 (createdFor P) kept ids /\
      embeds = cardsOf kept ids.
Proof.
  induction playlists as [| playlist rest IH]; intros acc st.
  - exists [], [], st, []. rewrite !List.app_nil_r. destruct acc.
    repeat split; constructor.
  - destruct (previewStep_card playlist acc st)
      as [acc1 [s1 [Hs Hc]]].
    destruct (IH acc1 s1) as [ids [embeds [s2 [kept [Hl [Hsub [Hcr He]]]]]]].
    rewrite (@FlowClaims.previewLoop_cons W P playlist rest acc st acc1 s1 Hs), Hl.
    destruct Hc as [-> | [id [-> Hid]]].
    + exists ids, embeds, s2, kept.
      split; [reflexivity |]. split; [now constructor |]. now split.
    + exists (id :: ids), (embedOf playlist id :: embeds), s2,
        (playlist :: kept).
      cbn [fst snd]. rewrite <- !app_assoc.
      split; [reflexivity |]. split; [now constructor |].
      split; [now constructor |].
      unfold cardsOf. cbn [combine map fst snd]. f_equal. exact He.
Qed.


(** The outcomes of the custom flow, with what each one has let out. *)
Lemma customFlow_outcomes req st resp st1 :
  createCustomPlaylist P req st = (Ok resp, st1) ->
  exists evs,
    trace st1 = trace st ++ evs /\
    (status resp = 500 \/
     (status resp = 400 /\ Forall createsNothing evs) \/
     (status resp = 404 /\ Forall createsNothing evs) \/
     (exists embed uris userPrompt,
         resp = mkResponse 200 (BCustomPage embed) /\
         uris <> [] /\
         prompt req = Some userPrompt /\
         In (EMessagesCreate userPrompt) evs /\
         In (EAddTracksToPlaylist (embed_playlist_id embed) uris) evs /\
         Forall (isCustomFlowWrite embed uris) evs)).
Proof.
  intros H. unfold createCustomPlaylist, catch, bind in H.
  destruct (emits_refreshTokenIfNeeded P st) as [evs0 [Ht0 Hq0]].
  destruct (refreshTokenIfNeeded P st) as [[[] | e] s0]; cbn [snd] in Ht0.
  2: { injection H as <- <-. exists evs0. split; [exact Ht0 | now left]. }
  destruct (promptMissing (prompt req)) eqn:Hp.
  { injection H as <- <-. exists evs0. split; [exact Ht0 |].
    right; left. split; [reflexivity | now apply token_creates_nothing]. }
  destruct (prompt req) as [userPrompt |] eqn:Hprompt; [| discriminate Hp].
  cbv zeta in H. unfold generateCustomPlaylistWithClaude in H.
  pose proof (call_trace (EMessagesCreate userPrompt)
                (messagesCreate P userPrompt) s0) as Ht1.
  destruct (call (EMessagesCreate userPrompt) (messagesCreate P userPrompt) s0)
    as [[cp | e] s1]; cbn [snd] in Ht1.
  2: { injection H as <- <-. eexists. split; [| now left].
       rewrite Ht1, Ht0, <- app_assoc. reflexivity. }
  destruct (emits_findTrackUris P (songs cp) s1) as [evs2 [Ht2 Hq2]].
  destruct (findTrackUris P (songs cp) s1) as [[uris | e] s2];
    cbn [snd] in Ht2.
  2: { injection H as <- <-. eexists. split; [| now left].
       rewrite Ht2, Ht1, Ht0, <- !app_assoc. reflexivity. }
  destruct (definedOnly uris) as [| u us] eqn:Hd; cbn [length Nat.eqb] in H.
  { injection H as <- <-.
    exists (evs0 ++ [EMessagesCreate userPrompt] ++ evs2).
    split; [rewrite Ht2, Ht1, Ht0, <- !app_assoc; reflexivity |].
    right; right; left. split; [reflexivity |].
    apply Forall_app. split; [now apply token_creates_nothing |].
    constructor; [exact I | now apply resolution_creates_nothing]. }
  destruct (addAwait_call_events
              (ECreatePlaylist (name cp) (description cp))
              (createPlaylist P (name cp) (description cp)) s2)
    as [evs3 [Ht3 Hq3]].
  destruct (addAwait
              (call (ECreatePlaylist (name cp) (description cp))
                    (createPlaylist P (name cp) (description cp))) s2)
    as [[id | e] s3]; cbn [snd] in Ht3.
  2: { injection H as <- <-. eexists. split; [| now left].
       rewrite Ht3, Ht2, Ht1, Ht0, <- !app_assoc. reflexivity. }
  destruct (addAwait_call_events
              (EAddTracksToPlaylist id (u :: us))
              (addTracksToPlaylist P id (u :: us)) s3)
    as [evs4 [Ht4 Hq4]].
  destruct (addAwait
              (call (EAddTracksToPlaylist id (u :: us))
                    (addTracksToPlaylist P id (u :: us))) s3)
    as [[[] | e] s4]; cbn [snd] in Ht4.
  2: { injection H as <- <-. eexists. split; [| now left].
       rewrite Ht4, Ht3, Ht2, Ht1, Ht0, <- !app_assoc. reflexivity. }
  cbn [ret] in H. injection H as <- <-.
  exists (evs0 ++ [EMessagesCreate userPrompt] ++ evs2 ++
          (ECreatePlaylist (name cp) (description cp) :: evs3) ++
          EAddTracksToPlaylist id (u :: us) :: evs4).
  split; [rewrite Ht4, Ht3, Ht2, Ht1, Ht0, <- !app_assoc; reflexivity |].
  right; right; right.
  exists (mkEmbed (name cp) (description cp) id), (u :: us), userPrompt.
  split; [reflexivity |]. split; [discriminate |].
  split; [reflexivity |].
  split; [apply in_or_app; right; now left |].
  split.
  { cbn [embed_playlist_id].
    apply in_or_app; right. apply in_cons.
    apply in_or_app; right. apply in_or_app; right. now left. }
  apply Forall_app. split; [now apply token_custom |].
  constructor; [exact I |].
  apply Forall_app. split; [now apply resolution_custom |].
  apply Forall_app. split.
  - constructor; [now split |].
    eapply retried_custom; [| exact Hq3]. now split.
  - constructor; [now split |].
    eapply retried_custom; [| exact Hq4]. now split.
Qed.

End Flow.

(** X9.  The cards of a preview page follow the snapshot: each card
    belongs to one playlist of the stored snapshot, the cards are in the
    snapshot's order, and a card shows the sanitized name and description of
    its playlist together with an identifier that the platform answered to
    the creation of a playlist under that name and description.  A page is
    only sent with one card at least. *)
Theorem X9_preview_cards_follow_snapshot :
  forall (W : Type) (P : Platform W) (st st1 : St W) (embeds : list Embed),
    previewPlaylists P st =
      (Ok (mkResponse 200 (BPreviewPage embeds)), st1) ->
    exists playlists kept ids,
      savedPlaylistsFile st = Some (ParsedArray playlists) /\
      Subseq kept playlists /\
      Forall2 (createdFor P) kept ids /\
      embeds = cardsOf kept ids /\
      kept <> [].
Proof.
  intros W P st st1 embeds H.
  unfold previewPlaylists, previewCreate, catch, bind in H.
  pose proof (refresh_keeps_snapshot P st) as Hk.
  destruct (refreshTokenIfNeeded P st) as [[[] | e] s0]; cbn [snd] in Hk;
    [| discriminate].
  unfold readSavedPlaylists in H. rewrite Hk in H.
  destruct (savedPlaylistsFile st) as [[playlists |] |]; try discriminate.
  destruct (previewLoop_cards P playlists ([], []) s0)
    as [ids [embeds0 [s2 [kept [Hl [Hsub [Hcr He]]]]]]].
  rewrite Hl in H. cbn [fst snd app] in H.
  destruct embeds0 as [| em embeds0]; cbn [length Nat.eqb] in H;
    [discriminate |].
  injection H as <- _.
  exists playlists, kept, ids. repeat split; try assumption.
  intros ->. inversion Hcr; subst. discriminate.
Qed.

Lemma X9_witness :
  exists playlists kept ids,
    savedPlaylistsFile (Scenario.loggedIn 5000000) =
      Some (ParsedArray playlists) /\
    Subseq kept playlists /\
    Forall2 (createdFor Scenario.demo) kept ids /\
    match fst (previewPlaylists Scenario.demo (Scenario.loggedIn 5000000)) with
    | Ok (mkResponse _ (BPreviewPage embeds)) => embeds
    | _ => []
    end = cardsOf kept ids /\
    kept <> [].
Proof.
  apply (@X9_preview_cards_follow_snapshot nat Scenario.demo
           (Scenario.loggedIn 5000000)
           (snd (previewPlaylists Scenario.demo (Scenario.loggedIn 5000000)))).
  vm_compute. reflexivity.
Defined.

(** X10.  A request to the preview endpoint always gets an answer, and on
    the way never calls the language model and never requests the saved
    tracks: everything it works on comes from the snapshot file. *)
Theorem X10_preview_never_asks_the_model :
  forall (W : Type) (P : Platform W) (req : HttpRequest) (st : St W),
    exists resp st1 evs,
      servePreviewPlaylists P req st = (Ok resp, st1) /\
      trace st1 = trace st ++ evs /\
      Forall isBulkFlowEvent evs.
Proof.
  intros W P req st. unfold servePreviewPlaylists.
  destruct (@tokenMiddleware_answers W P req (previewPlaylists P)
              (previewPlaylists_answers P) st)
    as [resp [st1 H]].
  destruct (@emits_tokenMiddleware W P isBulkFlowEvent req
              (previewPlaylists P) (emits_refresh_bulk P)
              (emits_previewPlaylists P) st) as [evs [Ht Hq]].
  rewrite H in Ht. now exists resp, st1, evs.
Qed.

(** X11.  Without a snapshot file the preview endpoint creates nothing:
    the answer is 401 or 500, and nothing but token checks was let out. *)
Theorem X11_preview_without_snapshot :
  forall (W : Type) (P : Platform W) (req : HttpRequest) (st : St W),
    savedPlaylistsFile st = None ->
    exists resp st1 evs,
      servePreviewPlaylists P req st = (Ok resp, st1) /\
      (status resp = 401 \/ status resp = 500) /\
      trace st1 = trace st ++ evs /\
      Forall isTokenEvent evs.
Proof.
  intros W P req st Hnone. unfold servePreviewPlaylists, tokenMiddleware.
  destruct (negb (jsstring_eqb (path req) (js "/login")) &&
            negb (jsstring_eqb (path req) (js "/callback"))).
  - destruct (emits_refreshTokenIfNeeded P st) as [evs [Ht Hq]].
    pose proof (refresh_keeps_snapshot P st) as Hk.
    destruct (refreshTokenIfNeeded P st) as [[[] | e] s1]; cbn [snd] in *.
    + destruct (@previewPlaylists_no_snapshot W P s1)
        as [resp [st1 [evs1 [H [Hs [Ht1 Hq1]]]]]]; [congruence |].
      exists resp, st1, (evs ++ evs1).
      split; [exact H |]. split; [now right |].
      split; [rewrite Ht1, Ht, app_assoc; reflexivity |].
      now apply Forall_app.
    + eexists _, s1, evs. split; [reflexivity |].
      split; [now left |]. now split.
  - destruct (@previewPlaylists_no_snapshot W P st Hnone)
      as [resp [st1 [evs1 [H [Hs [Ht1 Hq1]]]]]].
    exists resp, st1, evs1. split; [exact H |].
    split; [now right |]. now split.
Qed.

Lemma X11_witness :
  exists resp st1 evs,
    servePreviewPlaylists Scenario.demo
      (mkHttpRequest (js "/preview-playlists") None)
      (mkSt 0%nat [] (Some (Scenario.stored 5000000)) None None None) =
      (Ok resp, st1) /\
    (status resp = 401 \/ status resp = 500) /\
    trace st1 =
      trace (mkSt 0%nat [] (Some (Scenario.stored 5000000)) None None None)
        ++ evs /\
    Forall isTokenEvent evs.
Proof.
  apply (@X11_preview_without_snapshot nat Scenario.demo
           (mkHttpRequest (js "/preview-playlists") None)
           (mkSt 0%nat [] (Some (Scenario.stored 5000000)) None None None)).
  reflexivity.
Defined.

(** X12.  When the custom flow answers 404 (no song of the proposed
    playlist was resolved), no playlist was created and none populated. *)
Theorem X12_custom_404_creates_nothing :
  forall (W : Type) (P : Platform W) (req : HttpRequest) (st st1 : St W)
         (resp : Response),
    createCustomPlaylist P req st = (Ok resp, st1) ->
    status resp = 404 ->
    exists evs,
      trace st1 = trace st ++ evs /\ Forall createsNothing evs.
Proof.
  intros W P req st st1 resp H H404.
  destruct (customFlow_outcomes P req st H)
    as [evs [Ht [H500 | [[H400 _] | [[_ Hq] | Hok]]]]].
  - rewrite H404 in H500. discriminate.
  - rewrite H404 in H400. discriminate.
  - now exists evs.
  - destruct Hok as [embed [uris [userPrompt [-> _]]]]. discriminate.
Qed.

Lemma X12_witness :
  exists evs,
    trace (snd (createCustomPlaylist
                  (Scenario2.demoProposing Scenario2.unknownOnly)
                  (mkHttpRequest (js "/create-custom-playlist")
                                 (Some (js "ghosts")))
                  (Scenario.loggedIn 5000000))) =
      trace (Scenario.loggedIn 5000000) ++ evs /\
    Forall createsNothing evs.
Proof.
  apply (@X12_custom_404_creates_nothing nat
           (Scenario2.demoProposing Scenario2.unknownOnly)
           (mkHttpRequest (js "/create-custom-playlist") (Some (js "ghosts")))
           (Scenario.loggedIn 5000000)
           (snd (createCustomPlaylist
                   (Scenario2.demoProposing Scenario2.unknownOnly)
                   (mkHttpRequest (js "/create-custom-playlist")
                                  (Some (js "ghosts")))
                   (Scenario.loggedIn 5000000)))
           (mkResponse 404
              (BText (js "No valid tracks found for the custom playlist")))).
  - vm_compute. reflexivity.
  - reflexivity.
Defined.



End FlowMore.

(* ===================================================================== *)
(** * Further properties: token checks, the middleware and the login *)
(* ===================================================================== *)

Module TokenMore.
Import Index Observations Measures Routes.

Lemma jsstring_eqb_eq a b : jsstring_eqb a b = true <-> a = b.
Proof.
  unfold jsstring_eqb. destruct (list_eq_dec N.eq_dec a b); split;
    congruence.
Qed.

Lemma jsstring_eqb_neq a b : jsstring_eqb a b = false <-> a <> b.
Proof.
  unfold jsstring_eqb. destruct (list_eq_dec N.eq_dec a b); split;
    congruence.
Qed.

Section Token.
Context {W : Type}.
Variable P : Platform W.

Lemma refresh_without_file st :
  tokenFile st = None ->
  refreshTokenIfNeeded P st = (Throw refreshFailed, st).
Proof.
  intros H. unfold refreshTokenIfNeeded, catch, bind, readTokenFile.
  rewrite H. reflexivity.
Qed.

(** What a token check ends with: a failure that left the client's access
    token alone, or a stored record whose access token the client holds and
    which, with the clock at [t], is either the record found outside the
    margin or a record issued at [t]. *)
Lemma refresh_outcome st :
  match refreshTokenIfNeeded P st with
  | (Throw e, st1) =>
      e = refreshFailed /\ clientAccessToken st1 = clientAccessToken st
  | (Ok _, st1) =>
      exists td,
        tokenFile st1 = Some td /\
        clientAccessToken st1 = Some (access_token td) /\
        forall t, clockAt P t ->
          t <= expires_at td - 300000 \/
          exists tok w body w1,
            refreshAccessToken P tok w = (Ok body, w1) /\
            expires_at td = t + expires_in body * 1000
  end.
Proof.
  unfold refreshTokenIfNeeded, catch, bind, readTokenFile, now.
  destruct (tokenFile st) as [td |] eqn:Hfile; [| now split].
  destruct (dateNow P (world st)) as [t0 w1] eqn:Hnow.
  cbn [withWorld emit world trace tokenFile].
  destruct (Z.gtb_spec t0 (expires_at td - 300000)) as [Hin | Hout].
  - unfold setRefreshToken, refreshAccessTokenCall, call.
    cbn [withWorld emit world trace tokenFile clientRefreshToken
         clientAccessToken savedPlaylistsFile].
    destruct (refreshAccessToken P (Some (refresh_token td)) w1)
      as [[data | e] w2] eqn:Hex;
      cbn [withWorld emit world trace tokenFile clientRefreshToken
           clientAccessToken savedPlaylistsFile]; [| now split].
    destruct (dateNow P w2) as [t2 w3] eqn:Hnow2.
    unfold writeTokenFile.
    cbn [withWorld emit world trace tokenFile clientRefreshToken
         clientAccessToken savedPlaylistsFile].
    destruct (writeFile P w3) as [[[] | e] w4];
      cbn [withWorld emit world trace tokenFile clientRefreshToken
           clientAccessToken savedPlaylistsFile setAccessToken];
      [| now split].
    eexists. split; [reflexivity |]. split; [reflexivity |].
    intros t Hclock. right.
    exists (Some (refresh_token td)), w1, data, w2.
    split; [exact Hex |]. cbn [expires_at].
    pose proof (Hclock w2) as H2. rewrite Hnow2 in H2. cbn in H2. now subst.
  - cbn [setAccessToken tokenFile clientAccessToken].
    exists td. split; [exact Hfile |]. split; [reflexivity |].
    intros t Hclock. left.
    pose proof (Hclock (world st)) as H0. rewrite Hnow in H0. cbn in H0.
    now subst.
Qed.

End Token.

(** X14.  While no token is stored, a request to any path other than
    /login and /callback is answered 401 by the middleware: its handler
    does not run, nothing is called and nothing changes.  Requests to
    /login and /callback go straight to their handlers. *)
Theorem X14_no_token_no_handler :
  forall (W : Type) (P : Platform W) (req : HttpRequest)
         (next : M W Response) (st : St W),
    tokenFile st = None ->
    (path req <> js "/login" -> path req <> js "/callback" ->
     tokenMiddleware P req next st = (Ok authenticationRequired, st)) /\
    (path req = js "/login" \/ path req = js "/callback" ->
     tokenMiddleware P req next st = next st).
Proof.
  intros W P req next st Hnone. unfold tokenMiddleware. split.
  - intros H1 H2.
    apply jsstring_eqb_neq in H1. apply jsstring_eqb_neq in H2.
    rewrite H1, H2. cbn [negb andb].
    rewrite (refresh_without_file P st Hnone). reflexivity.
  - intros [H | H]; rewrite H.
    + reflexivity.
    + reflexivity.
Qed.

Lemma X14_witness :
  (path (mkHttpRequest (js "/liked-songs") None) <> js "/login" ->
   path (mkHttpRequest (js "/liked-songs") None) <> js "/callback" ->
   tokenMiddleware Scenario.demo (mkHttpRequest (js "/liked-songs") None)
     (previewPlaylists Scenario.demo) (Scenario.start 0%nat) =
   (Ok authenticationRequired, Scenario.start 0%nat)) /\
  (path (mkHttpRequest (js "/liked-songs") None) = js "/login" \/
   path (mkHttpRequest (js "/liked-songs") None) = js "/callback" ->
   tokenMiddleware Scenario.demo (mkHttpRequest (js "/liked-songs") None)
     (previewPlaylists Scenario.demo) (Scenario.start 0%nat) =
   previewPlaylists Scenario.demo (Scenario.start 0%nat)).
Proof.
  apply (@X14_no_token_no_handler nat Scenario.demo
           (mkHttpRequest (js "/liked-songs") None)
           (previewPlaylists Scenario.demo) (Scenario.start 0%nat)).
  reflexivity.
Defined.

(** X15.  A token check that fails always fails with the same error,
    "Failed to refresh token. Please log in again.", whatever went wrong
    (no stored record, a refused exchange, a failed write), and it leaves
    the access token of the client as it was. *)
Theorem X15_failed_check_is_uniform :
  forall (W : Type) (P : Platform W) (st st1 : St W) (e : JsError),
    refreshTokenIfNeeded P st = (Throw e, st1) ->
    e = refreshFailed /\ clientAccessToken st1 = clientAccessToken st.
Proof.
  intros W P st st1 e H.
  pose proof (refresh_outcome P st) as Ho. rewrite H in Ho. exact Ho.
Qed.

Lemma X15_witness :
  PlainError (js "Failed to refresh token. Please log in again.") =
    refreshFailed /\
  clientAccessToken (Scenario.start 0%nat) =
    clientAccessToken (Scenario.start 0%nat).
Proof.
  apply (@X15_failed_check_is_uniform nat Scenario.demo
           (Scenario.start 0%nat) (Scenario.start 0%nat)).
  reflexivity.
Defined.

(** X16.  After a token check that succeeds, a record is stored and the
    client holds that record's access token, whether the token was
    refreshed or not. *)
Theorem X16_client_holds_stored_token :
  forall (W : Type) (P : Platform W) (st st1 : St W),
    refreshTokenIfNeeded P st = (Ok tt, st1) ->
    exists td,
      tokenFile st1 = Some td /\
      clientAccessToken st1 = Some (access_token td).
Proof.
  intros W P st st1 H.
  pose proof (refresh_outcome P st) as Ho. rewrite H in Ho.
  destruct Ho as [td [H1 [H2 _]]]. now exists td.
Qed.

Lemma X16_witness :
  exists td,
    tokenFile (snd (refreshTokenIfNeeded Scenario.demo
                      (Scenario.loggedIn 1200000))) = Some td /\
    clientAccessToken (snd (refreshTokenIfNeeded Scenario.demo
                              (Scenario.loggedIn 1200000))) =
      Some (access_token td).
Proof.
  apply (@X16_client_holds_stored_token nat Scenario.demo
           (Scenario.loggedIn 1200000)).
  reflexivity.
Defined.

(** X17.  With the clock standing still and a platform whose refreshed
    tokens live for 5 minutes at least, a token check that follows a
    successful one makes no exchange and writes nothing: it succeeds and
    leaves the trace, the stored record and the client's access token as
    they are. *)
Theorem X17_second_check_is_quiet :
  forall (W : Type) (P : Platform W) (t : Z) (st st1 : St W),
    clockAt P t ->
    issuesForFiveMinutes P ->
    refreshTokenIfNeeded P st = (Ok tt, st1) ->
    exists st2,
      refreshTokenIfNeeded P st1 = (Ok tt, st2) /\
      trace st2 = trace st1 /\
      tokenFile st2 = tokenFile st1 /\
      clientAccessToken st2 = clientAccessToken st1.
Proof.
  intros W P t st st1 Hclock Hlife H.
  pose proof (refresh_outcome P st) as Ho. rewrite H in Ho.
  destruct Ho as [td [Hfile [Hclient Hexp]]].
  assert (Hout : t <= expires_at td - 300000).
  { destruct (Hexp t Hclock) as [Hout | [tok [w [body [w1 [Hex Heq]]]]]];
      [exact Hout |].
    pose proof (Hlife tok w body w1 Hex). lia. }
  destruct (dateNow P (world st1)) as [t1 w1] eqn:Hnow.
  pose proof (Hclock (world st1)) as Ht. rewrite Hnow in Ht. cbn in Ht.
  subst t1.
  rewrite (TokenFacts.refresh_outside_margin P st1 Hfile Hnow Hout).
  eexists. split; [reflexivity |]. cbn [trace tokenFile clientAccessToken].
  split; [reflexivity |]. split; [reflexivity |]. now rewrite Hclient.
Qed.

Lemma X17_witness :
  exists st2,
    refreshTokenIfNeeded Scenario.demo
      (snd (refreshTokenIfNeeded Scenario.demo (Scenario.loggedIn 1200000))) =
      (Ok tt, st2) /\
    trace st2 =
      trace (snd (refreshTokenIfNeeded Scenario.demo
                    (Scenario.loggedIn 1200000))) /\
    tokenFile st2 =
      tokenFile (snd (refreshTokenIfNeeded Scenario.demo
                        (Scenario.loggedIn 1200000))) /\
    clientAccessToken st2 =
      clientAccessToken (snd (refreshTokenIfNeeded Scenario.demo
                                (Scenario.loggedIn 1200000))).
Proof.
  apply (@X17_second_check_is_quiet nat Scenario.demo 1000000
           (Scenario.loggedIn 1200000)).
  - intros w. reflexivity.
  - intros tok w body w1 H. injection H as <- _. cbn. lia.
  - reflexivity.
Defined.

Section Login.
Context {W : Type}.
Variable P : Platform W.
Variable svc : Services W.


End Login.


(** X19.  After a login that answered 200, with the clock standing still
    and a grant that lives for 5 minutes at least, the first token check
    succeeds without any exchange and hands the granted access token to the
    client; until that check the client's tokens are as they were before
    the login. *)
Theorem X19_login_then_first_check :
  forall (W : Type) (P : Platform W) (svc : Services W)
         (code : option jsstring) (t : Z) (st st1 : St W) (resp : Response),
    clockAt P t ->
    callbackRoute P svc code st = (Ok resp, st1) ->
    status resp = 200 ->
    exists data w1,
      authorizationCodeGrant svc code (world st) = (Ok data, w1) /\
      clientAccessToken st1 = clientAccessToken st /\
      clientRefreshToken st1 = clientRefreshToken st /\
      (300 <= granted_expires_in data ->
       exists st2,
         refreshTokenIfNeeded P st1 = (Ok tt, st2) /\
         trace st2 = trace st1 /\
         clientAccessToken st2 = Some (granted_access_token data)).
Proof.
  intros W P svc code t st st1 resp Hclock H H200.
  unfold callbackRoute, catch, bind, now, writeTokenFile in H.
  destruct (authorizationCodeGrant svc code (world st))
    as [[data | e] w1] eqn:Hg;
    cbn [withWorld emit world trace tokenFile] in H.
  2: { injection H as <- _. discriminate. }
  destruct (dateNow P w1) as [t1 w2] eqn:Hnow.
  pose proof (Hclock w1) as Ht1. rewrite Hnow in Ht1. cbn in Ht1. subst t1.
  cbn [withWorld emit world trace tokenFile] in H.
  destruct (writeFile P w2) as [[[] | e] w3];
    cbn [withWorld emit world trace tokenFile ret clientAccessToken
         clientRefreshToken savedPlaylistsFile] in H.
  2: { injection H as <- _. discriminate. }
  injection H as _ <-.
  exists data, w1. split; [reflexivity |].
  split; [reflexivity |]. split; [reflexivity |].
  intros Hlife.
  match goal with
  | |- exists st2, refreshTokenIfNeeded P ?s = _ /\ _ =>
      destruct (dateNow P (world s)) as [t2 w4] eqn:Hnow2;
      pose proof (Hclock (world s)) as Ht2; rewrite Hnow2 in Ht2;
      cbn in Ht2; subst t2;
      rewrite (@TokenFacts.refresh_outside_margin W P s
                 (mkTokenData (granted_access_token data)
                              (granted_refresh_token data)
                              (t + granted_expires_in data * 1000))
                 t w4 eq_refl Hnow2)
  end.
  - eexists. split; [reflexivity |]. split; reflexivity.
  - cbn [expires_at]. lia.
Qed.

Lemma X19_witness :
  exists data w1,
    authorizationCodeGrant Scenario2.services (Some (js "code"))
      (world (Scenario.start 0%nat)) = (Ok data, w1) /\
    clientAccessToken
      (snd (callbackRoute Scenario.demo Scenario2.services
              (Some (js "code")) (Scenario.start 0%nat))) =
      clientAccessToken (Scenario.start 0%nat) /\
    clientRefreshToken
      (snd (callbackRoute Scenario.demo Scenario2.services
              (Some (js "code")) (Scenario.start 0%nat))) =
      clientRefreshToken (Scenario.start 0%nat) /\
    (300 <= granted_expires_in data ->
     exists st2,
       refreshTokenIfNeeded Scenario.demo
         (snd (callbackRoute Scenario.demo Scenario2.services
                 (Some (js "code")) (Scenario.start 0%nat))) = (Ok tt, st2) /\
       trace st2 =
         trace (snd (callbackRoute Scenario.demo Scenario2.services
                       (Some (js "code")) (Scenario.start 0%nat))) /\
       clientAccessToken st2 = Some (granted_access_token data)).
Proof.
  apply (@X19_login_then_first_check nat Scenario.demo Scenario2.services
           (Some (js "code")) 1000000 (Scenario.start 0%nat)
           (snd (callbackRoute Scenario.demo Scenario2.services
                   (Some (js "code")) (Scenario.start 0%nat)))
           (mkResponse 200
              (BText (js "Login successful! You can now use the other endpoints.")))).
  - intros w. reflexivity.
  - reflexivity.
  - reflexivity.
Defined.

End TokenMore.

(* ===================================================================== *)
(** * Further properties: the liked songs, the snapshot, sanitizing *)
(* ===================================================================== *)

Module LibraryMore.
Import Index Observations Measures Routes LikedFacts.

Lemma mapRes_no_artist (l : list SavedTrack) :
  Exists (fun item => track_artists item = []) l ->
  mapRes toLikedSong l = Throw (typeError (js "name")).
Proof.
  induction 1 as [item l Hitem | item l _ IH]; cbn [mapRes].
  - unfold toLikedSong. now rewrite Hitem.
  - unfold toLikedSong at 1.
    destruct (track_artists item); [reflexivity |]. now rewrite IH.
Qed.

Section Library.
Context {W : Type}.
Variable P : Platform W.

Lemma likedSongsLoop_fails k page e :
  answersUpTo P k page -> failsAt P k e ->
  forall m j fuel allTracks st,
    (j + m = k)%nat -> (m < fuel)%nat ->
    exists st1,
      likedSongsLoop P fuel allTracks (offsetOf j) st =
        Some (Throw e, st1) /\
      trace st1 =
        trace st ++
        map (fun i => EGetMySavedTracks 50 (offsetOf i)) (seq j (S m)).
Proof.
  intros Hans Hfail.
  induction m as [| m IH]; intros j fuel allTracks st Hj Hfuel;
    (destruct fuel as [| fuel]; [lia |]);
    cbn [likedSongsLoop]; unfold call, limit.
  - replace j with k by lia.
    destruct (Hfail (world st)) as [w1 [Hf | [body [Hf [Hex ->]]]]];
      rewrite Hf.
    + eexists. split; reflexivity.
    + rewrite (mapRes_no_artist Hex). eexists. split; reflexivity.
  - destruct (Hans j (world st) ltac:(lia)) as [w1 [Ha [Hart Htot]]].
    rewrite Ha, (mapRes_likedOf Hart).
    replace (offsetOf j + 50) with (offsetOf (S j))
      by (unfold offsetOf; lia).
    destruct (Z.ltb_spec (offsetOf (S j)) (total (page j))) as [_ | Hge];
      [| lia].
    destruct (IH (S j) fuel (allTracks ++ map likedOf (items (page j)))
                (withWorld (emit (EGetMySavedTracks 50 (offsetOf j)) st) w1))
      as [st1 [Hloop Htrace]]; [lia | lia |].
    exists st1. split; [exact Hloop |].
    rewrite Htrace. cbn [withWorld emit trace].
    change (seq j (S (S m))) with (j :: seq (S j) (S m)).
    cbn [map]. rewrite <- app_assoc. reflexivity.
Qed.

Lemma likedSongsLoop_goes_on :
  totalKeepsAhead P ->
  forall fuel allTracks offset st,
    likedSongsLoop P fuel allTracks offset st = None.
Proof.
  intros Hahead. induction fuel as [| fuel IH]; intros allTracks offset st;
    cbn [likedSongsLoop]; [reflexivity |].
  unfold call, limit.
  destruct (Hahead offset (world st)) as [body [w1 [Ha [Hart Htot]]]].
  rewrite Ha, (mapRes_likedOf Hart).
  destruct (Z.ltb_spec (offset + 50) (total body)) as [_ | Hge]; [| lia].
  apply IH.
Qed.


Variable svc : Services W.




End Library.

(** X20.  When the first [k] page requests are answered and request
    [k + 1] fails (the request itself, or an item without artist in its
    answer), [getAllLikedSongs] fails with that error after exactly [k + 1]
    requests: the songs of the pages already fetched are dropped, and the
    liked-songs route answers 500 with "Error: " and the error's message. *)
Theorem X20_failed_page_fails_the_fetch :
  forall (W : Type) (P : Platform W) (k : nat)
         (page : nat -> SavedTracksBody) (e : JsError) (fuel : nat)
         (st : St W),
    answersUpTo P k page ->
    failsAt P k e ->
    (k < fuel)%nat ->
    exists st1,
      getAllLikedSongs P fuel st = Some (Throw e, st1) /\
      trace st1 =
        trace st ++
        map (fun i => EGetMySavedTracks 50 (offsetOf i)) (seq 0 (S k)) /\
      likedSongsRoute P fuel st =
        Some (Ok (Plain (mkResponse 500
                           (BText (js "Error: " ++ messageOf e)))), st1).
Proof.
  intros W P k page e fuel st Hans Hfail Hfuel.
  destruct (@likedSongsLoop_fails W P k page e Hans Hfail k 0%nat fuel [] st
              ltac:(lia) Hfuel) as [st1 [Hloop Htrace]].
  exists st1. unfold likedSongsRoute, getAllLikedSongs.
  change (offsetOf 0) with 0 in Hloop. rewrite Hloop.
  repeat split. exact Htrace.
Qed.

Lemma X20_witness :
  exists st1,
    getAllLikedSongs (Scenario2.demoFailingFrom 100) 5
      (Scenario.start 0%nat) =
      Some (Throw (PlainError (js "socket hang up")), st1) /\
    trace st1 =
      trace (Scenario.start 0%nat) ++
      map (fun i => EGetMySavedTracks 50 (offsetOf i)) (seq 0 3) /\
    likedSongsRoute (Scenario2.demoFailingFrom 100) 5
      (Scenario.start 0%nat) =
      Some (Ok (Plain (mkResponse 500
                         (BText (js "Error: " ++
                                 messageOf (PlainError (js "socket hang up")))))),
            st1).
Proof.
  apply (@X20_failed_page_fails_the_fetch nat (Scenario2.demoFailingFrom 100)
           2%nat
           (fun j => mkSavedTracksBody 120
                       (slice (Z.to_nat (offsetOf j))
                              (Z.to_nat (offsetOf j + 50))
                              Scenario.library))).
  - intros j w Hj. exists (S w).
    assert (Hcases : j = 0%nat \/ j = 1%nat) by lia.
    split; [destruct Hcases as [-> | ->]; reflexivity |].
    split.
    + apply Forall_slice. apply Forall_forall. intros item Hin.
      unfold Scenario.library in Hin. apply in_map_iff in Hin.
      destruct Hin as [i [<- _]]. discriminate.
    + cbn [total]. unfold offsetOf. lia.
  - intros w. exists (S w). left. reflexivity.
  - lia.
Defined.

(** A saved track without artist on the first page: the route answers
    500 with the message of the [TypeError]. *)
Example liked_song_without_artist :
  fst (match likedSongsRoute Scenario2.demoNoArtist 5
               (Scenario.start 0%nat) with
       | Some run => run
       | None => (Throw nullLength, Scenario.start 0%nat)
       end) =
  Ok (Plain (mkResponse 500
               (BText (js "Error: Cannot read properties of undefined (reading 'name')")))).
Proof. vm_compute. reflexivity. Qed.

(** X21.  The loop of [getAllLikedSongs] has no bound of its own: against
    a platform that answers every page request with a total beyond the next
    offset, it never returns, however many pages it is allowed, and the
    liked-songs route never answers. *)
Theorem X21_growing_total_never_returns :
  forall (W : Type) (P : Platform W),
    totalKeepsAhead P ->
    forall (fuel : nat) (st : St W),
      getAllLikedSongs P fuel st = None /\
      likedSongsRoute P fuel st = None.
Proof.
  intros W P Hahead fuel st. unfold likedSongsRoute, getAllLikedSongs.
  rewrite (likedSongsLoop_goes_on Hahead). split; reflexivity.
Qed.

Lemma X21_witness :
  getAllLikedSongs Scenario2.demoGrowing 40 (Scenario.start 0%nat) = None /\
  likedSongsRoute Scenario2.demoGrowing 40 (Scenario.start 0%nat) = None.
Proof.
  apply (@X21_growing_total_never_returns nat Scenario2.demoGrowing).
  intros offset w. eexists _, (S w).
  split; [reflexivity |]. split; [constructor | cbn [total]; lia].
Defined.





End LibraryMore.

Module SanitizeMore.
Import Index Measures SanitizeFacts.

Lemma trimStart_snoc l c :
  isWhiteSpace c = false -> trimStart (l ++ [c]) = trimStart l ++ [c].
Proof.
  intros Hc. induction l as [| a l IH]; cbn [app trimStart].
  - now rewrite Hc.
  - destruct (isWhiteSpace a); [exact IH | reflexivity].
Qed.

Lemma trimStart_head s c rest :
  trimStart s = c :: rest -> isWhiteSpace c = false.
Proof.
  induction s as [| a s IH]; cbn [trimStart]; [discriminate |].
  destruct (isWhiteSpace a) eqn:Ha; [exact IH |].
  intros H. injection H as <- _. exact Ha.
Qed.

Lemma trimStart_blank s : isBlank s -> trimStart s = [].
Proof.
  induction 1 as [| c s Hc _ IH]; cbn [trimStart]; [reflexivity |].
  now rewrite Hc.
Qed.

Lemma trim_head s c rest :
  trim s = c :: rest -> isWhiteSpace c = false.
Proof.
  unfold trim, trimEnd.
  destruct (trimStart s) as [| a t] eqn:Ht; [discriminate |].
  pose proof (trimStart_head s Ht) as Ha.
  cbn [rev]. rewrite (@trimStart_snoc (rev t) a Ha), rev_app_distr. cbn [rev app].
  intros H. injection H as <- _. exact Ha.
Qed.

Lemma trim_blank s : isBlank s -> trim s = [].
Proof.
  intros H. unfold trim, trimEnd. now rewrite (trimStart_blank H).
Qed.

Lemma cut_head {X} n (l : list X) c rest :
  firstn n l = c :: rest -> exists rest', l = c :: rest'.
Proof.
  destruct n; [discriminate |]. destruct l as [| a l]; [discriminate |].
  cbn [firstn]. intros H. injection H as <- _. now exists l.
Qed.

(** X24.  A sanitized playlist has a name of at most 100 and a
    description of at most 300 code units, neither of which starts with
    white space, and the songs it was given; a name of white space only
    becomes the empty name.  The cut comes after the trimming, so a
    sanitized name can end with a blank: 99 letters, a blank and a letter
    give 99 letters and the blank. *)
Theorem X24_sanitized_fields :
  forall playlist : Playlist,
    (length (name (sanitizePlaylistData playlist)) <= 100)%nat /\
    (length (description (sanitizePlaylistData playlist)) <= 300)%nat /\
    songs (sanitizePlaylistData playlist) = songs playlist /\
    (forall c rest,
        name (sanitizePlaylistData playlist) = c :: rest ->
        isWhiteSpace c = false) /\
    (forall c rest,
        description (sanitizePlaylistData playlist) = c :: rest ->
        isWhiteSpace c = false) /\
    (isBlank (name playlist) -> name (sanitizePlaylistData playlist) = []) /\
    name (sanitizePlaylistData
            (mkPlaylist (repeat 97%N 99 ++ js " b") [] [])) =
      repeat 97%N 99 ++ js " ".
Proof.
  intros playlist.
  destruct (sanitized_name playlist) as [Hn _].
  destruct (sanitized_description playlist) as [Hd _].
  split; [rewrite Hn, length_firstn; lia |].
  split; [rewrite Hd, length_firstn; lia |].
  split; [reflexivity |].
  split.
  { intros c rest H. rewrite Hn in H.
    destruct (cut_head _ _ H) as [rest' Ht]. exact (trim_head _ Ht). }
  split.
  { intros c rest H. rewrite Hd in H.
    destruct (cut_head _ _ H) as [rest' Ht]. exact (trim_head _ Ht). }
  split.
  { intros Hb. rewrite Hn, (trim_blank Hb). reflexivity. }
  vm_compute. reflexivity.
Qed.

End SanitizeMore.
